(** * example-video-live: the live-session pipeline and the recommender

    A shallow embedding of [src/components/VideoPlayer.tsx]:

    - the audio helpers [createBlob], [decode] and [decodeAudioData];
    - the recommendation logic [calculateRelevance] and the
      [upNext]/[moreVideos] selection;
    - the session callbacks [connect], [disconnect] and [onmessage];
    - what the session streams ([onaudioprocess], [captureFrame]), the
      sidebar ([toggleSidebarMode], the recommendation list) and the play
      handler of [src/App.tsx].

    JavaScript numbers that hold audio samples or times are IEEE-754
    values, taken from the standard library's executable specification
    [SpecFloat];
    typed arrays are lists with the element conversion applied at every
    store; exceptions are an explicit result type. *)

From Stdlib Require Import ZArith QArith Qround Lia List Ascii String.
From Stdlib Require Import Floats.SpecFloat.
From Stdlib Require Import Sorting.Permutation Sorting.Sorted.
From stdpp Require Import base option list gmap strings.

Local Open Scope Z_scope.

(** ** JavaScript plumbing: exceptions and counted loops *)

Module Js.

Inductive JsError : Type :=
| TypeError
| RangeError
| InvalidCharacterError
| NotSupportedError
| InvalidAccessError
| InvalidStateError.

Inductive Result (A : Type) : Type :=
| Ok (a : A)
| Throw (e : JsError).

Arguments Ok {A} a.
Arguments Throw {A} e.

#[global] Instance Result_ret : MRet Result := fun _ a => Ok a.

#[global] Instance Result_bind : MBind Result := fun _ _ f r =>
  match r with
  | Ok a => f a
  | Throw e => Throw e
  end.

(** [for (let i = start; i < start + count; i++) st = body i st]. *)
Fixpoint for_loop {St : Type} (count : nat) (start : nat)
  (body : nat -> St -> St) (st : St) : St :=
  match count with
  | O => st
  | S count' => for_loop count' (S start) body (body start st)
  end.

(** How many [i = 0, 1, 2, ...] satisfy [i < bound] for a rational bound. *)
Definition iterations_below (bound : Q) : nat := Z.to_nat (Qceiling bound).

End Js.

(** ** IEEE-754 numbers

    A JavaScript number is a binary64 value and an element of a
    [Float32Array] a binary32 value; both are [spec_float]s in the
    canonical form of their format. *)

Module Float.

Definition prec64 : Z := 53.
Definition emax64 : Z := 1024.
Definition prec32 : Z := 24.
Definition emax32 : Z := 128.

(** The number denoted by an integer literal or by an integer-typed
    array element. *)
Definition of_Z (k : Z) : spec_float := binary_normalize prec64 emax64 k 0 false.

(** Reading a [Float32Array] element: the same real number as a binary64. *)
Definition of_float32 (x : spec_float) : spec_float :=
  match x with
  | S754_finite s m e => binary_round prec64 emax64 s m e
  | _ => x
  end.

(** Storing into a [Float32Array]: round to nearest binary32, ties to even. *)
Definition to_float32 (x : spec_float) : spec_float :=
  match x with
  | S754_finite s m e => binary_round prec32 emax32 s m e
  | _ => x
  end.

Definition mul : spec_float -> spec_float -> spec_float := SFmul prec64 emax64.
Definition div : spec_float -> spec_float -> spec_float := SFdiv prec64 emax64.
Definition add : spec_float -> spec_float -> spec_float := SFadd prec64 emax64.

(** [x < y] and [x <= y]: false when either side is NaN. *)
Definition ltb : spec_float -> spec_float -> bool := SFltb.
Definition leb : spec_float -> spec_float -> bool := SFleb.

(** [Math.max(x, y)]: NaN when either argument is NaN, and [+0] counts as
    larger than [-0]. *)
Definition max (x y : spec_float) : spec_float :=
  match x, y with
  | S754_nan, _ | _, S754_nan => S754_nan
  | S754_zero true, S754_zero _ => y
  | _, _ => if SFltb x y then y else x
  end.

(** The number that a sample rate given as a rational stands for: the
    quotient of numerator and denominator, which is the rate itself for
    the integer rates of the program. *)
Definition of_Q (q : Q) : spec_float :=
  div (of_Z (Qnum q)) (of_Z (Z.pos (Qden q))).

(** The integral part of a finite number, rounding towards zero. *)
Definition truncate (x : spec_float) : Z :=
  match x with
  | S754_finite s m e => cond_Zopp s (Z.shiftl (Z.pos m) e)
  | _ => 0
  end.

(** ECMAScript [ToInt16], the conversion of a store into an [Int16Array]:
    NaN, the infinities and the zeros give 0; any other number is
    truncated, reduced modulo 2^16 and read as a two's-complement value. *)
Definition ToInt16 (x : spec_float) : Z :=
  match x with
  | S754_finite _ _ _ =>
      let int16bit := truncate x mod 65536 in
      if 32768 <=? int16bit then int16bit - 65536 else int16bit
  | _ => 0
  end.

(** The binary32 value of [k / 32768]: a sample quantized to 16 bits. *)
Definition quantized (k : Z) : spec_float :=
  binary_normalize prec32 emax32 k (-15) false.

(** Structural equality of floats as a boolean. *)
Definition same (a b : spec_float) : bool :=
  match a, b with
  | S754_zero s, S754_zero t => Bool.eqb s t
  | S754_infinity s, S754_infinity t => Bool.eqb s t
  | S754_nan, S754_nan => true
  | S754_finite s m e, S754_finite t n f =>
      Bool.eqb s t && Pos.eqb m n && Z.eqb e f
  | _, _ => false
  end.

End Float.

(** ** The platform's base64 functions [btoa] and [atob]

    A binary string is a [string] whose characters are the code units
    0..255.  [btoa] is RFC 4648 base64 with padding; [atob] is the
    forgiving decoder of the WHATWG Infra standard. *)

Module Base64.

Import Js.

Definition alphabet : list ascii :=
  list_ascii_of_string
    "ABCDEFGHIJKLMNOPQRSTUVWXYZabcdefghijklmnopqrstuvwxyz0123456789+/".

Definition char_of_sextet (n : Z) : ascii :=
  nth (Z.to_nat n) alphabet "A"%char.

Fixpoint index_of (c : ascii) (l : list ascii) (i : Z) : option Z :=
  match l with
  | [] => None
  | x :: l' => if Ascii.eqb c x then Some i else index_of c l' (i + 1)
  end.

Definition sextet_of_char (c : ascii) : option Z := index_of c alphabet 0.

Definition charCode (c : ascii) : Z := Z.of_N (N_of_ascii c).
Definition fromCharCode (n : Z) : ascii := ascii_of_N (Z.to_N (n mod 256)).

(** Three bytes are four groups of six bits; a tail of one or two bytes
    is two or three groups, the last one filled up with zero bits. *)
Fixpoint to_sextets (bytes : list Z) : list Z :=
  match bytes with
  | a :: b :: c :: rest =>
      a / 4 :: (a mod 4) * 16 + b / 16 :: (b mod 16) * 4 + c / 64 :: c mod 64
        :: to_sextets rest
  | [a; b] => [a / 4; (a mod 4) * 16 + b / 16; (b mod 16) * 4]
  | [a] => [a / 4; (a mod 4) * 16]
  | [] => []
  end.

Definition padding (len : nat) : list ascii :=
  match (len mod 3)%nat with
  | 1%nat => ["="; "="]%char
  | 2%nat => ["="]%char
  | _ => []
  end.

Definition btoa (binary : string) : string :=
  let bytes := map charCode (list_ascii_of_string binary) in
  string_of_list_ascii
    (map char_of_sextet (to_sextets bytes) ++ padding (length bytes)).

Definition is_ascii_whitespace (c : ascii) : bool :=
  let n := charCode c in
  (n =? 9) || (n =? 10) || (n =? 12) || (n =? 13) || (n =? 32).

(** Step 2 of the forgiving decoder: with a length divisible by four, one
    or two trailing [=] are dropped. *)
Definition drop_trailing_equals (s : list ascii) : list ascii :=
  match rev s with
  | c :: r => if Ascii.eqb c "=" then rev r else s
  | [] => s
  end.

Definition strip_padding (s : list ascii) : list ascii :=
  if (length s mod 4 =? 0)%nat
  then drop_trailing_equals (drop_trailing_equals s)
  else s.

Fixpoint from_sextets (sextets : list Z) : list Z :=
  match sextets with
  | a :: b :: c :: d :: rest =>
      a * 4 + b / 16 :: (b mod 16) * 16 + c / 4 :: (c mod 4) * 64 + d
        :: from_sextets rest
  | [a; b; c] => [a * 4 + b / 16; (b mod 16) * 16 + c / 4]
  | [a; b] => [a * 4 + b / 16]
  | _ => []
  end.

Definition atob (base64 : string) : Result string :=
  let s := List.filter (fun c => negb (is_ascii_whitespace c))
             (list_ascii_of_string base64) in
  let s := strip_padding s in
  if (length s mod 4 =? 1)%nat then Throw InvalidCharacterError
  else
    match mapM sextet_of_char s with
    | None => Throw InvalidCharacterError
    | Some sextets =>
        Ok (string_of_list_ascii (map fromCharCode (from_sextets sextets)))
    end.

End Base64.

(** ** Audio helper functions *)

Module Codec.

Import Js.

(** Typed arrays.  Every store applies the element conversion of the
    array's type; a store outside the bounds is ignored and a read outside
    the bounds is [undefined]. *)
Abbreviation Float32Array := (list spec_float).
Abbreviation Int16Array := (list Z).
Abbreviation Uint8Array := (list Z).

Definition ToUint8 (n : Z) : Z := n mod 256.

(** [new Uint8Array(int16.buffer)]: the bytes of the elements, low byte
    first (typed arrays have the byte order of the platform, little-endian
    on every platform in use). *)
Definition bytes_of_int16 (k : Z) : list Z :=
  let u := k mod 65536 in [u mod 256; u / 256].

Definition Uint8Array_of_Int16Array (a : Int16Array) : Uint8Array :=
  concat (map bytes_of_int16 a).

Definition int16_of_bytes (lo hi : Z) : Z :=
  let u := lo + 256 * hi in
  if 32768 <=? u then u - 65536 else u.

Fixpoint int16s_of_bytes (bytes : list Z) : Int16Array :=
  match bytes with
  | lo :: hi :: rest => int16_of_bytes lo hi :: int16s_of_bytes rest
  | _ => []
  end.

(** [new Int16Array(buffer)]: a RangeError unless the byte length is a
    multiple of the element size. *)
Definition Int16Array_of_buffer (bytes : Uint8Array) : Result Int16Array :=
  if (length bytes mod 2 =? 0)%nat then Ok (int16s_of_bytes bytes)
  else Throw RangeError.

Record Blob : Type := mkBlob { data : string; mimeType : string }.

(** [data[i]] read as a number: [undefined] converts to NaN. *)
Definition float32_get (a : Float32Array) (i : nat) : spec_float :=
  match a !! i with
  | Some x => Float.of_float32 x
  | None => S754_nan
  end.

Definition createBlob (data : Float32Array) : Blob :=
  let l := length data in
  let int16 :=
    for_loop l 0
      (fun i (int16 : Int16Array) =>
         <[i := Float.ToInt16 (Float.mul (float32_get data i) (Float.of_Z 32768))]>
           int16)
      (replicate l 0) in
  let binary :=
    string_of_list_ascii
      (map Base64.fromCharCode (Uint8Array_of_Int16Array int16)) in
  let base64 := Base64.btoa binary in
  mkBlob base64 "audio/pcm;rate=16000".

(** [binaryString.charCodeAt(i)] for [i] below the length. *)
Definition charCodeAt (s : string) (i : nat) : Z :=
  match String.get i s with
  | Some c => Base64.charCode c
  | None => 0
  end.

Definition decode (base64 : string) : Result Uint8Array :=
  binaryString ← Base64.atob base64;
  let len := String.length binaryString in
  Ok (for_loop len 0
        (fun i (bytes : Uint8Array) =>
           <[i := ToUint8 (charCodeAt binaryString i)]> bytes)
        (replicate len 0)).

(** The fields of an [AudioBuffer] the program reads, and its channel
    data. *)
Record AudioBuffer : Type := mkAudioBuffer {
  numberOfChannels : positive;
  buffer_length : Z;
  sampleRate : Q;
  channels : list Float32Array
}.

(** [buffer.duration]: the length divided by the sample rate, a number
    like every other. *)
Definition duration (b : AudioBuffer) : spec_float :=
  Float.div (Float.of_Z (buffer_length b)) (Float.of_Q (sampleRate b)).

(** An output context, as far as the audio helpers use it: the argument
    validation of [createBuffer], which the Web Audio specification leaves
    in part to the implementation (supported rates and sizes). *)
Record AudioContext : Type := mkAudioContext {
  accepts : positive -> Z -> Q -> bool
}.

(** [ctx.createBuffer(numChannels, length, sampleRate)]: the length is
    converted to an integer; arguments the context does not accept raise
    NotSupportedError; otherwise every channel starts as zeros. *)
Definition createBuffer (ctx : AudioContext) (numChannels : positive)
  (length : Q) (sampleRate : Q) : Result AudioBuffer :=
  let len := Qfloor length in
  if accepts ctx numChannels len sampleRate then
    Ok (mkAudioBuffer numChannels len sampleRate
          (replicate (Pos.to_nat numChannels)
             (replicate (Z.to_nat len) (S754_zero false))))
  else Throw NotSupportedError.

(** [dataInt16[j] / 32768.0]; an element out of range is [undefined],
    which divides to NaN. *)
Definition int16_get_div (a : Int16Array) (j : nat) : spec_float :=
  match a !! j with
  | Some k => Float.div (Float.of_Z k) (Float.of_Z 32768)
  | None => S754_nan
  end.

(** [buffer.getChannelData(channel)[i] = x]. *)
Definition setChannelData (b : AudioBuffer) (channel i : nat) (x : spec_float)
  : AudioBuffer :=
  mkAudioBuffer (numberOfChannels b) (buffer_length b) (sampleRate b)
    (alter (fun channelData => <[i := Float.to_float32 x]> channelData)
       channel (channels b)).

(** [numChannels] is a positive integer here (the program passes 1); a
    [null] context is [None]. *)
Definition decodeAudioData (data : Uint8Array) (ctx : option AudioContext)
  (sampleRate : Q) (numChannels : positive) : Result AudioBuffer :=
  dataInt16 ← Int16Array_of_buffer data;
  let frameCount : Q :=
    (inject_Z (Z.of_nat (length dataInt16)) / inject_Z (Z.pos numChannels))%Q in
  buffer ← match ctx with
            | Some c => createBuffer c numChannels frameCount sampleRate
            | None => Throw TypeError
            end;
  Ok (for_loop (Pos.to_nat numChannels) 0
        (fun channel buffer =>
           for_loop (iterations_below frameCount) 0
             (fun i buffer =>
                setChannelData buffer channel i
                  (int16_get_div dataInt16 (i * Pos.to_nat numChannels + channel)))
             buffer)
        buffer).

End Codec.

(** ** Recommendation logic

    Strings are sequences of code units below 256 (Latin-1), which covers
    the character classes the tokenizer distinguishes. *)

Module Relevance.

Definition code (c : ascii) : Z := Z.of_N (N_of_ascii c).

(** [String.prototype.toLowerCase] on one code unit. *)
Definition toLowerCase_char (c : ascii) : ascii :=
  let n := code c in
  if ((65 <=? n) && (n <=? 90)) || ((192 <=? n) && (n <=? 222) && negb (n =? 215))
  then ascii_of_N (Z.to_N (n + 32))
  else c.

(** The regular-expression class [\w]: ASCII letters, digits and [_]. *)
Definition is_word_char (c : ascii) : bool :=
  let n := code c in
  ((97 <=? n) && (n <=? 122)) || ((65 <=? n) && (n <=? 90))
  || ((48 <=? n) && (n <=? 57)) || (n =? 95).

(** The regular-expression class [\s], below 256: tab, line feed, vertical
    tab, form feed, carriage return, space and no-break space. *)
Definition is_space_char (c : ascii) : bool :=
  let n := code c in
  ((9 <=? n) && (n <=? 13)) || (n =? 32) || (n =? 160).

(** [s.split(/\s+/)]: the pieces between maximal runs of white space; a
    run at either end leaves an empty piece there. *)
Fixpoint split_whitespace_from (s : list ascii) (piece : list ascii)
  (in_run : bool) : list string :=
  match s with
  | [] => [string_of_list_ascii (rev piece)]
  | c :: s' =>
      if is_space_char c then
        if in_run then split_whitespace_from s' [] true
        else string_of_list_ascii (rev piece) :: split_whitespace_from s' [] true
      else split_whitespace_from s' (c :: piece) false
  end.

Definition split_whitespace (s : list ascii) : list string :=
  split_whitespace_from s [] false.

Definition stop_words : list string := ["with"; "this"; "that"; "from"; "into"].

Definition tokenize (text : string) : list string :=
  let lowered := map toLowerCase_char (list_ascii_of_string text) in
  let stripped :=
    List.filter (fun c => is_word_char c || is_space_char c) lowered in
  List.filter
    (fun w => (3 <? String.length w)%nat && negb (bool_decide (w ∈ stop_words)))
    (split_whitespace stripped).

(** [title.split(' ')[0]]: the characters before the first space. *)
Fixpoint first_word_chars (s : list ascii) : list ascii :=
  match s with
  | [] => []
  | c :: s' => if Ascii.eqb c " " then [] else c :: first_word_chars s'
  end.

Definition first_word (title : string) : string :=
  string_of_list_ascii (first_word_chars (list_ascii_of_string title)).

Section Recommend.

(** The type of identifiers: any type on which [===] is a decidable
    equality. *)
Context {VideoId : Type} `{EqDecision VideoId}.

(** Modelled from the spec: the declaration of [Video] (imported from
    [../types]) is not among the sources; the spec's Content Item has an
    opaque identifier, a title, a description and a media URL, and the
    program reads [id], [title], [description] and [videoUrl]. *)
Record Video : Type := mkVideo {
  id : VideoId;
  title : string;
  description : string;
  videoUrl : string
}.

Definition calculateRelevance (current candidate : Video) : Z :=
  if decide (id current = id candidate) then -1
  else
    let currentTokens : gset string :=
      list_to_set (tokenize (title current +:+ " " +:+ description current)) in
    let candidateTokens :=
      tokenize (title candidate +:+ " " +:+ description candidate) in
    let matches :=
      fold_left
        (fun matches token =>
           if bool_decide (token ∈ currentTokens) then matches + 1 else matches)
        candidateTokens 0 in
    if bool_decide (first_word (title current) = first_word (title candidate))
    then matches + 2
    else matches.

(** The objects [{video: v, score: ...}] that are sorted. *)
Record Scored : Type := mkScored { item_video : Video; item_score : Z }.

(** [Array.prototype.sort] is stable; with the comparator
    [(a, b) => b.score - a.score] an element stays in front of the later
    ones whose score is not larger. *)
Fixpoint insert_sorted (x : Scored) (l : list Scored) : list Scored :=
  match l with
  | [] => [x]
  | y :: l' =>
      if item_score y - item_score x <=? 0 then x :: y :: l'
      else y :: insert_sorted x l'
  end.

Definition sort_by_score (l : list Scored) : list Scored :=
  foldr insert_sorted [] l.

Record Recommendations : Type := mkRecommendations {
  upNext : option Video;
  moreVideos : list Video
}.

Definition recommendations (video : Video) (allVideos : list Video)
  : Recommendations :=
  let sorted :=
    map item_video
      (sort_by_score
         (map (fun v => mkScored v (calculateRelevance video v))
            (List.filter (fun v => negb (bool_decide (id v = id video)))
               allVideos))) in
  mkRecommendations (head sorted) (tail sorted).

End Recommend.

Arguments Video VideoId : clear implicits.
Arguments Scored VideoId : clear implicits.
Arguments Recommendations VideoId : clear implicits.

End Relevance.

(** ** The live session: [connect], [disconnect] and the session callbacks

    The component's refs and flags are one record.  The platform objects
    the refs point to (audio contexts, media tracks, timers, buffer
    sources) are identified by numbers, and every call the program makes
    on them is appended to a trace, oldest call first.  Times are
    JavaScript numbers, binary64 values.  The presentation state
    ([audioLevel], the sidebar) is left out. *)

Module Session.

Import Js.

Inductive ContextState : Type := Suspended | Running | Closed.

(** What the output context reports when the program reads it. *)
Record Clock : Type := mkClock {
  currentTime : spec_float;
  state : ContextState
}.

Inductive Effect : Type :=
| NewAudioContext (ctx : positive) (sampleRate : Z)
| ContextResume (ctx : positive)
| ContextClose (ctx : positive)
| GetUserMedia (tracks : list positive)
| TrackStop (track : positive)
| LiveConnect (session : positive)
| SetInterval (timer : positive)
| ClearInterval (timer : positive)
| CreateBufferSource (source : positive)
| SourceStart (source : positive) (when duration : spec_float)
| SourceStop (source : positive)
| ConsoleError.

Record State : Type := mkState {
  isConnecting : bool;
  connected : bool;
  micActive : bool;
  audioContextRef : option positive;
  inputContextRef : option positive;
  sessionRef : option positive;
  streamRef : option (list positive);
  videoIntervalRef : option positive;
  nextStartTimeRef : spec_float;
  sourcesRef : list positive;
  trace : list Effect;
  next_id : positive
}.

(** The component when it is mounted. *)
Definition initial : State :=
  mkState false false false None None None None None (S754_zero false) []
    [] 1%positive.

Definition emit (es : list Effect) (s : State) : State :=
  mkState (isConnecting s) (connected s) (micActive s) (audioContextRef s)
    (inputContextRef s) (sessionRef s) (streamRef s) (videoIntervalRef s)
    (nextStartTimeRef s) (sourcesRef s) (trace s ++ es) (next_id s).

Definition set_next_id (n : positive) (s : State) : State :=
  mkState (isConnecting s) (connected s) (micActive s) (audioContextRef s)
    (inputContextRef s) (sessionRef s) (streamRef s) (videoIntervalRef s)
    (nextStartTimeRef s) (sourcesRef s) (trace s) n.

Definition set_nextStartTimeRef (t : spec_float) (s : State) : State :=
  mkState (isConnecting s) (connected s) (micActive s) (audioContextRef s)
    (inputContextRef s) (sessionRef s) (streamRef s) (videoIntervalRef s)
    t (sourcesRef s) (trace s) (next_id s).

Definition set_sourcesRef (l : list positive) (s : State) : State :=
  mkState (isConnecting s) (connected s) (micActive s) (audioContextRef s)
    (inputContextRef s) (sessionRef s) (streamRef s) (videoIntervalRef s)
    (nextStartTimeRef s) l (trace s) (next_id s).

Definition set_isConnecting (b : bool) (s : State) : State :=
  mkState b (connected s) (micActive s) (audioContextRef s)
    (inputContextRef s) (sessionRef s) (streamRef s) (videoIntervalRef s)
    (nextStartTimeRef s) (sourcesRef s) (trace s) (next_id s).

(** A JavaScript [Set] of objects: no duplicates, insertion order. *)
Definition Set_has (x : positive) (l : list positive) : bool :=
  existsb (Pos.eqb x) l.

Definition Set_add (x : positive) (l : list positive) : list positive :=
  if Set_has x l then l else l ++ [x].

Definition Set_delete (x : positive) (l : list positive) : list positive :=
  List.filter (fun y => negb (Pos.eqb x y)) l.

(** [n] new object identities, starting at [from]. *)
Fixpoint new_ids (n : nat) (from : positive) : list positive :=
  match n with
  | O => []
  | S n' => from :: new_ids n' (Pos.succ from)
  end.

Fixpoint skip_ids (n : nat) (from : positive) : positive :=
  match n with
  | O => from
  | S n' => skip_ids n' (Pos.succ from)
  end.

(** *** disconnect *)

(** None of the platform calls made here can raise: [source.stop()] is
    wrapped in [try]/[catch], [close()] answers with a promise, and
    [clearInterval] and [track.stop()] never fail. *)
Definition disconnect (s : State) : State :=
  let calls :=
    match videoIntervalRef s with
    | Some timer => [ClearInterval timer]
    | None => []
    end
    ++ map SourceStop (sourcesRef s)
    ++ match audioContextRef s with
       | Some ctx => [ContextClose ctx]
       | None => []
       end
    ++ match inputContextRef s with
       | Some ctx => [ContextClose ctx]
       | None => []
       end
    ++ match streamRef s with
       | Some tracks => map TrackStop tracks
       | None => []
       end in
  mkState false false false None None None None None
    (nextStartTimeRef s) [] (trace s ++ calls) (next_id s).

(** *** connect

    [connect] is an async function with one suspension, at
    [await navigator.mediaDevices.getUserMedia(...)]: [connect_begin] runs
    up to it and [connect_resume] from it, once the request is settled.
    The callbacks created by a call capture [outputNode], the gain node of
    the output context of that call. *)

Record Closure : Type := mkClosure { outputNode : positive }.

Inductive MicrophoneRequest : Type :=
| Granted (tracks : nat)
| Denied.

Definition connect_begin (clock : Clock) (s : State) : State * option Closure :=
  if connected s || isConnecting s then (s, None)
  else
    let ctx := next_id s in
    (mkState true (connected s) (micActive s) (Some ctx)
       (inputContextRef s) (sessionRef s) (streamRef s) (videoIntervalRef s)
       (currentTime clock) (sourcesRef s)
       (trace s ++ [NewAudioContext ctx 24000]) (Pos.succ ctx),
     Some (mkClosure ctx)).

Definition connect_resume (settled : MicrophoneRequest) (s : State) : State :=
  match settled with
  | Granted n =>
      let tracks := new_ids n (next_id s) in
      let inputCtx := skip_ids n (next_id s) in
      let session := Pos.succ inputCtx in
      let timer := Pos.succ session in
      mkState (isConnecting s) (connected s) (micActive s) (audioContextRef s)
        (Some inputCtx) (Some session) (Some tracks) (Some timer)
        (nextStartTimeRef s) (sourcesRef s)
        (trace s ++ [GetUserMedia tracks; NewAudioContext inputCtx 16000;
                     LiveConnect session; SetInterval timer])
        (Pos.succ timer)
  | Denied =>
      disconnect (set_isConnecting false (emit [ConsoleError] s))
  end.

(** [connect()] when the microphone request is settled before anything
    else happens. *)
Definition connect (clock : Clock) (settled : MicrophoneRequest) (s : State)
  : State :=
  match connect_begin clock s with
  | (s', Some _) => connect_resume settled s'
  | (s', None) => s'
  end.

Definition onopen (s : State) : State :=
  mkState false true true (audioContextRef s)
    (inputContextRef s) (sessionRef s) (streamRef s) (videoIntervalRef s)
    (nextStartTimeRef s) (sourcesRef s) (trace s) (next_id s).

Definition onclose (s : State) : State := disconnect s.

Definition onerror (s : State) : State := disconnect (emit [ConsoleError] s).

(** [source.onended]: the source leaves the set. *)
Definition onended (source : positive) (s : State) : State :=
  set_sourcesRef (Set_delete source (sourcesRef s)) s.

(** *** onmessage

    The handler threads the state and may raise: a small state and
    exception monad.  A raised exception keeps the state changes made
    before it. *)

Record LiveServerMessage : Type := mkMessage {
  (** [message.serverContent?.modelTurn?.parts?.[0]?.inlineData?.data] *)
  inlineData : option string;
  (** [message.serverContent?.interrupted], as a truth value *)
  interrupted : bool
}.

Definition Eff (A : Type) : Type := State -> State * Result A.

#[global] Instance Eff_ret : MRet Eff := fun _ a s => (s, Ok a).

#[global] Instance Eff_bind : MBind Eff := fun _ _ f m s =>
  match m s with
  | (s', Ok a) => f a s'
  | (s', Throw e) => (s', Throw e)
  end.

Definition throw {A : Type} (e : JsError) : Eff A := fun s => (s, Throw e).

Definition lift {A : Type} (r : Result A) : Eff A := fun s => (s, r).

Definition read {A : Type} (f : State -> A) : Eff A := fun s => (s, Ok (f s)).

Definition write (f : State -> State) : Eff unit := fun s => (f s, Ok tt).

Definition call (es : list Effect) : Eff unit := write (emit es).

(** [ref.current.member]: a TypeError when the ref holds [null]. *)
Definition deref (ref : State -> option positive) : Eff positive := fun s =>
  match ref s with
  | Some x => (s, Ok x)
  | None => (s, Throw TypeError)
  end.

Definition try_catch (body : Eff unit) (handler : Eff unit) : Eff unit :=
  fun s =>
    match body s with
    | (s', Ok _) => (s', Ok tt)
    | (s', Throw _) => handler s'
    end.

Section Callbacks.

(** The argument validation of [createBuffer] on this platform. *)
Variable platform : Codec.AudioContext.

(** The callbacks of one [connect()] call. *)
Variable closure : Closure.

Definition createBufferSource : Eff positive := fun s =>
  let source := next_id s in
  (set_next_id (Pos.succ source) (emit [CreateBufferSource source] s), Ok source).

(** The statements from [createBufferSource()] to [sourcesRef.current.add].
    [source.connect(outputNode)] raises InvalidAccessError when the two
    nodes belong to different contexts. *)
Definition schedule (clock : Clock) (audioBuffer : Codec.AudioBuffer)
  : Eff unit :=
  ctx ← deref audioContextRef;
  source ← createBufferSource;
  _ ← (if Pos.eqb ctx (outputNode closure) then mret tt
       else throw InvalidAccessError);
  _ ← deref audioContextRef;
  cursor ← read nextStartTimeRef;
  let startTime := Float.max cursor (currentTime clock) in
  _ ← call [SourceStart source startTime (Codec.duration audioBuffer)];
  _ ← write (set_nextStartTimeRef
               (Float.add startTime (Codec.duration audioBuffer)));
  sources ← read sourcesRef;
  write (set_sourcesRef (Set_add source sources)).

(** [if (message.serverContent?.interrupted) { ... }], outside the [try]. *)
Definition interruption (clock : Clock) (message : LiveServerMessage)
  : Eff unit :=
  if interrupted message then
    sources ← read sourcesRef;
    _ ← call (map SourceStop sources);
    _ ← write (set_sourcesRef []);
    _ ← deref audioContextRef;
    write (set_nextStartTimeRef (currentTime clock))
  else mret tt.

(** The rest of the handler once the [try] block is left with [body]. *)
Definition finish (clock : Clock) (message : LiveServerMessage)
  (body : Eff unit) : Eff unit :=
  _ ← try_catch body (call [ConsoleError]);
  interruption clock message.

(** [decodeAudioData(decode(base64Audio), audioContextRef.current, 24000, 1)]
    up to the promise it returns: [decode] raises synchronously, the async
    [decodeAudioData] turns what it raises into a rejected promise. *)
Definition start_decode (base64Audio : string)
  : Eff (Result Codec.AudioBuffer) :=
  bytes ← lift (Codec.decode base64Audio);
  ctx ← read audioContextRef;
  mret (Codec.decodeAudioData bytes
          (match ctx with Some _ => Some platform | None => None end)
          (24000 # 1) 1%positive).

Inductive Awaiting : Type :=
| AwaitingResume (base64Audio : string)
| AwaitingDecode (promise : Result Codec.AudioBuffer).

Inductive Step : Type :=
| Finished (outcome : Result unit)
| Suspend (a : Awaiting).

Definition finished (m : Eff unit) (s : State) : State * Step :=
  let (s', r) := m s in (s', Finished r).

Definition decode_stage (clock : Clock) (message : LiveServerMessage)
  (base64Audio : string) (s : State) : State * Step :=
  match start_decode base64Audio s with
  | (s', Ok promise) => (s', Suspend (AwaitingDecode promise))
  | (s', Throw e) => finished (finish clock message (throw e)) s'
  end.

Definition schedule_stage (clock : Clock) (message : LiveServerMessage)
  (promise : Result Codec.AudioBuffer) : Eff unit :=
  finish clock message (audioBuffer ← lift promise; schedule clock audioBuffer).

(** [if (base64Audio)]: defined and not the empty string. *)
Definition truthy (o : option string) : option string :=
  match o with
  | Some EmptyString => None
  | _ => o
  end.

(** The handler from its call to its first suspension or its end. *)
Definition onmessage_begin (clock : Clock) (message : LiveServerMessage)
  (s : State) : State * Step :=
  match truthy (inlineData message) with
  | Some base64Audio =>
      match audioContextRef s, state clock with
      | Some ctx, Suspended =>
          (emit [ContextResume ctx] s, Suspend (AwaitingResume base64Audio))
      | _, _ => decode_stage clock message base64Audio s
      end
  | None => finished (finish clock message (mret tt)) s
  end.

(** The handler from a suspension on; [resumed] is how the promise of
    [resume()] was settled. *)
Definition onmessage_resume (clock : Clock) (message : LiveServerMessage)
  (a : Awaiting) (resumed : Result unit) (s : State) : State * Step :=
  match a with
  | AwaitingResume base64Audio =>
      match resumed with
      | Ok _ => decode_stage clock message base64Audio s
      | Throw e => finished (finish clock message (throw e)) s
      end
  | AwaitingDecode promise =>
      finished (schedule_stage clock message promise) s
  end.

(** The handler run without anything happening in between: every awaited
    promise is settled at once, [resume()] with success. *)
Definition onmessage (clock : Clock) (message : LiveServerMessage)
  : Eff unit := fun s =>
  match truthy (inlineData message) with
  | Some base64Audio =>
      let s :=
        match audioContextRef s, state clock with
        | Some ctx, Suspended => emit [ContextResume ctx] s
        | _, _ => s
        end in
      match start_decode base64Audio s with
      | (s', Ok promise) => schedule_stage clock message promise s'
      | (s', Throw e) => finish clock message (throw e) s'
      end
  | None => finish clock message (mret tt) s
  end.

End Callbacks.

End Session.

(** ** What the session streams to the model

    The two producers that [connect] installs: [processor.onaudioprocess]
    for the microphone and [captureFrame], run by the interval timer, for
    the video.  Each hands a [media] object to
    [sessionPromise.then(session => session.sendRealtimeInput({media}))],
    which sends it once the session promise is fulfilled. *)

Module Capture.

Import Js.

(** The [media] of a [sendRealtimeInput] call; a [data] that is
    [undefined] is [None]. *)
Record Media : Type := mkMedia {
  mimeType : string;
  data : option string
}.

(** [processor.onaudioprocess]: [e.inputBuffer.getChannelData(0)] is
    encoded by [createBlob]. *)
Definition onaudioprocess (inputData : Codec.Float32Array) : Media :=
  let pcmBlob := Codec.createBlob inputData in
  mkMedia (Codec.mimeType pcmBlob) (Some (Codec.data pcmBlob)).

(** [s.split(',')]: the pieces between the commas. *)
Fixpoint split_comma_from (s : list ascii) (piece : list ascii) : list string :=
  match s with
  | [] => [string_of_list_ascii (rev piece)]
  | c :: s' =>
      if Ascii.eqb c "," then
        string_of_list_ascii (rev piece) :: split_comma_from s' []
      else split_comma_from s' (c :: piece)
  end.

Definition split_comma (s : string) : list string :=
  split_comma_from (list_ascii_of_string s) [].

(** The fields of the video element and of the canvas that the program
    uses; all four are [unsigned long] attributes. *)
Record HTMLVideoElement : Type := mkVideoElement {
  videoWidth : N;
  videoHeight : N
}.

Record HTMLCanvasElement : Type := mkCanvas {
  width : N;
  height : N
}.

(** The platform under [captureFrame]: whether [getContext('2d')] gives a
    context for the canvas, and what
    [ctx.drawImage(video, 0, 0, canvas.width, canvas.height)] followed by
    [canvas.toDataURL('image/jpeg', 0.5)] answers or raises. *)
Record Platform : Type := mkPlatform {
  getContext : HTMLCanvasElement -> bool;
  toDataURL : HTMLVideoElement -> HTMLCanvasElement -> Result string
}.

(** [captureFrame]: the canvas ref afterwards and what is handed to the
    session promise.  A store into [canvas.width] converts the quotient to
    an integer. *)
Definition captureFrame (platform : Platform)
  (videoRef : option HTMLVideoElement)
  (videoCanvasRef : option HTMLCanvasElement)
  : option HTMLCanvasElement * Result (option Media) :=
  match videoRef, videoCanvasRef with
  | Some video, Some canvas =>
      if ((videoWidth video =? 0) || (videoHeight video =? 0))%N
      then (Some canvas, Ok None)
      else
        let canvas :=
          mkCanvas (videoWidth video / 4)%N (videoHeight video / 4)%N in
        if getContext platform canvas then
          match toDataURL platform video canvas with
          | Ok url =>
              let base64 := split_comma url !! 1%nat in
              (Some canvas, Ok (Some (mkMedia "image/jpeg" base64)))
          | Throw e => (Some canvas, Throw e)
          end
        else (Some canvas, Ok None)
  | _, _ => (videoCanvasRef, Ok None)
  end.

End Capture.

(** ** The component around the session: the sidebar

    [isSidebarOpen] chooses between the recommendations and the companion
    panel; [toggleSidebarMode] is run by the companion button and by the
    panel's close button. *)

Module Player.

Import Session.

Record State : Type := mkPlayer {
  isSidebarOpen : bool;
  session : Session.State
}.

(** The component when it is mounted. *)
Definition initial : State := mkPlayer false Session.initial.

(** [toggleSidebarMode], up to the suspension of the [connect()] it may
    call. *)
Definition toggleSidebarMode (clock : Clock) (p : State)
  : State * option Closure :=
  if isSidebarOpen p then
    (mkPlayer false (disconnect (session p)), None)
  else
    let (s, suspended) := connect_begin clock (session p) in
    (mkPlayer true s, suspended).

(** The "End Session" button: [onClick={disconnect}], disabled unless
    [connected]. *)
Definition endSession (p : State) : State :=
  if connected (session p)
  then mkPlayer (isSidebarOpen p) (disconnect (session p))
  else p.

(** The cleanup of the mount effect. *)
Definition unmount (p : State) : State :=
  mkPlayer (isSidebarOpen p) (disconnect (session p)).

(** What the companion panel shows. *)
Inductive Panel : Type := Establishing | Listening | Offline.

Definition AICompanionPanel (s : Session.State) : Panel :=
  if isConnecting s then Establishing
  else if connected s then Listening
  else Offline.

(** [RecommendationsList]: the entries of the sidebar in their order,
    [upNext], when there is one, and then [moreVideos]; a click on an
    entry calls [onPlay] with its video. *)
Definition RecommendationsList {VideoId : Type}
  (r : Relevance.Recommendations VideoId) : list (Relevance.Video VideoId) :=
  option_list (Relevance.upNext r) ++ Relevance.moreVideos r.

End Player.

(** ** The application around the player ([src/App.tsx]) *)

Module App.

Section App.

Context {VideoId : Type} `{EqDecision VideoId}.

Record State : Type := mkApp {
  videos : list (Relevance.Video VideoId);
  playingVideo : option (Relevance.Video VideoId)
}.

(** [useState(MOCK_VIDEOS)] and [useState(MOCK_VIDEOS[0])]; the catalog
    [MOCK_VIDEOS] is a parameter. *)
Definition initial (MOCK_VIDEOS : list (Relevance.Video VideoId)) : State :=
  mkApp MOCK_VIDEOS (head MOCK_VIDEOS).

Definition handlePlayVideo (video : Relevance.Video VideoId) (s : State)
  : State :=
  mkApp (videos s) (Some video).

Definition handleClosePlayer (s : State) : State := s.

(** The videos the page offers for a click: the player is rendered for
    [playingVideo] with [allVideos={videos}] and [onPlay={handlePlayVideo}],
    and its recommendation list calls [onPlay]. *)
Definition offered (s : State) : list (Relevance.Video VideoId) :=
  match playingVideo s with
  | Some video =>
      Player.RecommendationsList (Relevance.recommendations video (videos s))
  | None => []
  end.

End App.

Arguments State VideoId : clear implicits.

End App.

(** * Vocabulary of the properties *)

(** ** Bounded checks by evaluation *)

(** [check_range n lo p]: [p] holds on the [2^n] integers from [lo] on. *)
Fixpoint check_range (n : nat) (lo : Z) (p : Z -> bool) : bool :=
  match n with
  | O => p lo
  | S n' => check_range n' lo p && check_range n' (lo + 2 ^ Z.of_nat n') p
  end.

(** ** Bytes, sextets and samples *)

Definition is_byte (b : Z) : Prop := 0 <= b < 256.
Definition is_sextet (x : Z) : Prop := 0 <= x < 64.

Definition sextet_char_ok (x : Z) : bool :=
  match Base64.sextet_of_char (Base64.char_of_sextet x) with
  | Some y => y =? x
  | None => false
  end
  && negb (Base64.is_ascii_whitespace (Base64.char_of_sextet x))
  && negb (Ascii.eqb (Base64.char_of_sextet x) "=").

(** What [createBlob] stores for one sample, and what [decodeAudioData]
    stores for one 16-bit integer. *)
Definition pcm16 (x : spec_float) : Z :=
  Float.ToInt16 (Float.mul (Float.of_float32 x) (Float.of_Z 32768)).

Definition sample_of_pcm16 (k : Z) : spec_float :=
  Float.to_float32 (Float.div (Float.of_Z k) (Float.of_Z 32768)).

Definition is_int16 (k : Z) : Prop := -32768 <= k < 32768.

(** A binary64 value in canonical form whose exponent leaves room for a
    scaling by [2^15] or [2^-15]. *)
Definition scalable (x : spec_float) : bool :=
  match x with
  | S754_finite _ m e =>
      Pos.eqb (digits2_pos m) 53 && (-1058 <=? e) && (e <=? 956)
  | _ => false
  end.

Definition scale (x : spec_float) (d : Z) : spec_float :=
  match x with
  | S754_finite s m e => S754_finite s m (e + d)
  | _ => x
  end.

(** The check of one quantized sample, with the multiplication and the
    division by 32768 replaced by the scalings they amount to. *)
Definition quantized_sample_ok (k : Z) : bool :=
  (k =? 0)
  || (let x := Float.of_float32 (Float.quantized k) in
      let y := Float.of_Z k in
      scalable x && (Float.ToInt16 (scale x 15) =? k)
      && scalable y
      && Float.same (Float.to_float32 (scale y (-15))) (Float.quantized k)).

(** A context that accepts what the Web Audio specification requires
    every implementation to accept. *)
Definition conforming_context : Codec.AudioContext :=
  Codec.mkAudioContext
    (fun numChannels length sampleRate =>
       (Pos.leb numChannels 32) && (1 <=? length)
       && Qle_bool (8000 # 1) sampleRate && Qle_bool sampleRate (96000 # 1)).

Definition float32_one : spec_float := S754_finite false 8388608 (-23).
Definition float32_three_halves : spec_float := S754_finite false 12582912 (-23).
Definition float32_minus_2_pow_minus_17 : spec_float :=
  S754_finite true 8388608 (-40).

(** ** The catalog of the scenario and a crafted pair *)

Definition item1 : Relevance.Video Z :=
  Relevance.mkVideo 1 "Neon Drift" "a racer chases a thief" "".
Definition item2 : Relevance.Video Z :=
  Relevance.mkVideo 2 "Neon Pulse" "a detective chases a racer" "".
Definition item3 : Relevance.Video Z :=
  Relevance.mkVideo 3 "Quiet Garden" "a calm afternoon" "".

Definition crafted_a : Relevance.Video Z := Relevance.mkVideo 1 "alpha" "" "".
Definition crafted_b : Relevance.Video Z := Relevance.mkVideo 2 "beta" "alpha alpha" "".

(** ** Reading a trace *)

(** How many calls in a trace satisfy [p]. *)
Definition count (p : Session.Effect -> bool) (tr : list Session.Effect) : nat :=
  length (List.filter p tr).

Definition is_close (c : positive) (e : Session.Effect) : bool :=
  match e with
  | Session.ContextClose c' => Pos.eqb c c'
  | _ => false
  end.

Definition is_track_stop (t : positive) (e : Session.Effect) : bool :=
  match e with
  | Session.TrackStop t' => Pos.eqb t t'
  | _ => false
  end.

Definition is_clear (t : positive) (e : Session.Effect) : bool :=
  match e with
  | Session.ClearInterval t' => Pos.eqb t t'
  | _ => false
  end.

Definition is_source_stop (src : positive) (e : Session.Effect) : bool :=
  match e with
  | Session.SourceStop src' => Pos.eqb src src'
  | _ => false
  end.

Definition closes (tr : list Session.Effect) (c : positive) : nat :=
  count (is_close c) tr.
Definition track_stops (tr : list Session.Effect) (t : positive) : nat :=
  count (is_track_stop t) tr.
Definition clears (tr : list Session.Effect) (t : positive) : nat :=
  count (is_clear t) tr.
Definition source_stops (tr : list Session.Effect) (src : positive) : nat :=
  count (is_source_stop src) tr.

(** The [source.start(when)] calls of a trace, with the duration of the
    buffer, oldest first. *)
Definition starts (tr : list Session.Effect) : list (spec_float * spec_float) :=
  flat_map
    (fun e =>
       match e with
       | Session.SourceStart _ when duration => [(when, duration)]
       | _ => []
       end)
    tr.

(** ** Times *)

(** The binary64 value of [m * 2^e]. *)
Definition binary64 (m e : Z) : spec_float :=
  binary_normalize Float.prec64 Float.emax64 m e false.

(** A number of seconds: a binary64 value in canonical form that is
    neither NaN nor negative, as every reading of [currentTime] and every
    [duration] of a buffer is; [+Infinity] is one. *)
Definition is_seconds (x : spec_float) : bool :=
  match x with
  | S754_zero s | S754_infinity s => negb s
  | S754_finite s m e => negb s && bounded Float.prec64 Float.emax64 m e
  | S754_nan => false
  end.

(** The rational number that a finite binary64 value stands for. *)
Definition real_value (x : spec_float) : Q :=
  match x with
  | S754_finite s m e => (inject_Z (cond_Zopp s (Z.pos m)) * 2 ^ e)%Q
  | _ => 0%Q
  end.

(** A timeline from [cursor] on: every start is at or after the cursor
    left by what precedes it, the sum of the start before it and that
    chunk's duration as the program computes it. *)
Fixpoint timeline (cursor : spec_float) (l : list (spec_float * spec_float))
  : Prop :=
  match l with
  | [] => True
  | (when, duration) :: l' =>
      Float.leb cursor when = true /\ timeline (Float.add when duration) l'
  end.

(** The cursor at the end of a timeline. *)
Fixpoint timeline_end (cursor : spec_float)
  (l : list (spec_float * spec_float)) : spec_float :=
  match l with
  | [] => cursor
  | (when, duration) :: l' => timeline_end (Float.add when duration) l'
  end.

(** ** Resources that are still held *)

Definition timer_live (tr : list Session.Effect) (t : positive) : Prop :=
  In (Session.SetInterval t) tr /\ clears tr t = 0%nat.

Definition context_open (tr : list Session.Effect) (rate : Z) (c : positive)
  : Prop :=
  In (Session.NewAudioContext c rate) tr /\ closes tr c = 0%nat.

Definition track_live (tr : list Session.Effect) (t : positive) : Prop :=
  (exists tracks, In (Session.GetUserMedia tracks) tr /\ In t tracks)
  /\ track_stops tr t = 0%nat.

(** Every flag and every ref is cleared. *)
Definition idle (s : Session.State) : Prop :=
  Session.isConnecting s = false /\ Session.connected s = false
  /\ Session.micActive s = false
  /\ Session.audioContextRef s = None /\ Session.inputContextRef s = None
  /\ Session.sessionRef s = None /\ Session.streamRef s = None
  /\ Session.videoIntervalRef s = None /\ Session.sourcesRef s = [].

(** A fully established session: the refs hold the session's resources,
    all of them still held and none released before, and nothing else is
    held. *)
Record established (s : Session.State) (out inp timer : positive)
  (tracks : list positive) : Prop := mkEstablished {
  est_connected : Session.connected s = true;
  est_out : Session.audioContextRef s = Some out;
  est_inp : Session.inputContextRef s = Some inp;
  est_stream : Session.streamRef s = Some tracks;
  est_timer : Session.videoIntervalRef s = Some timer;
  est_session : is_Some (Session.sessionRef s);
  est_distinct : out <> inp;
  est_out_open : context_open (Session.trace s) 24000 out;
  est_inp_open : context_open (Session.trace s) 16000 inp;
  est_timer_live : timer_live (Session.trace s) timer;
  est_tracks_live : Forall (track_live (Session.trace s)) tracks;
  est_tracks_nodup : List.NoDup tracks;
  est_sources_nodup : List.NoDup (Session.sourcesRef s);
  est_sources_playing :
    Forall (fun src => source_stops (Session.trace s) src = 0%nat)
      (Session.sourcesRef s);
  est_only_timer : forall t, timer_live (Session.trace s) t -> t = timer;
  est_only_contexts :
    forall rate c, context_open (Session.trace s) rate c -> c = out \/ c = inp;
  est_only_tracks : forall t, track_live (Session.trace s) t -> In t tracks
}.

(** The calls [disconnect] makes, in their order. *)
Definition teardown_calls (s : Session.State) : list Session.Effect :=
  match Session.videoIntervalRef s with
  | Some timer => [Session.ClearInterval timer]
  | None => []
  end
  ++ map Session.SourceStop (Session.sourcesRef s)
  ++ match Session.audioContextRef s with
     | Some ctx => [Session.ContextClose ctx]
     | None => []
     end
  ++ match Session.inputContextRef s with
     | Some ctx => [Session.ContextClose ctx]
     | None => []
     end
  ++ match Session.streamRef s with
     | Some tracks => map Session.TrackStop tracks
     | None => []
     end.

(** ** Runs of the component

    [reach serial s p]: the component can be in state [s] with [p] calls
    of [connect] suspended at the microphone request.  With [serial] set,
    teardown ([disconnect], [onclose], [onerror]) happens only while no
    call of [connect] is suspended. *)
Inductive reach (serial : bool) : Session.State -> nat -> Prop :=
| reach_initial : reach serial Session.initial 0
| reach_connect (s : Session.State) (p : nat) (clock : Session.Clock) :
    reach serial s p ->
    reach serial (fst (Session.connect_begin clock s))
      (match snd (Session.connect_begin clock s) with
       | Some _ => S p
       | None => p
       end)
| reach_settled (s : Session.State) (p : nat)
    (settled : Session.MicrophoneRequest) :
    reach serial s (S p) ->
    reach serial (Session.connect_resume settled s) p
| reach_disconnect (s : Session.State) (p : nat) :
    reach serial s p -> (serial = true -> p = 0%nat) ->
    reach serial (Session.disconnect s) p
| reach_onclose (s : Session.State) (p : nat) :
    reach serial s p -> (serial = true -> p = 0%nat) ->
    reach serial (Session.onclose s) p
| reach_onerror (s : Session.State) (p : nat) :
    reach serial s p -> (serial = true -> p = 0%nat) ->
    reach serial (Session.onerror s) p
| reach_onopen (s : Session.State) (p : nat) :
    reach serial s p -> reach serial (Session.onopen s) p
| reach_onmessage (s : Session.State) (p : nat)
    (platform : Codec.AudioContext) (closure : Session.Closure)
    (clock : Session.Clock) (message : Session.LiveServerMessage) :
    reach serial s p ->
    reach serial
      (fst (Session.onmessage platform closure clock message s)) p
| reach_onended (s : Session.State) (p : nat) (source : positive) :
    reach serial s p -> reach serial (Session.onended source s) p.

(** At most one timer, one output context, one input context and one
    microphone stream are held. *)
Definition single_handle (s : Session.State) : Prop :=
  (forall t1 t2,
     timer_live (Session.trace s) t1 -> timer_live (Session.trace s) t2 ->
     t1 = t2)
  /\ (forall c1 c2,
        context_open (Session.trace s) 24000 c1 ->
        context_open (Session.trace s) 24000 c2 -> c1 = c2)
  /\ (forall c1 c2,
        context_open (Session.trace s) 16000 c1 ->
        context_open (Session.trace s) 16000 c2 -> c1 = c2)
  /\ (forall t1 t2,
        track_live (Session.trace s) t1 -> track_live (Session.trace s) t2 ->
        exists tracks,
          In (Session.GetUserMedia tracks) (Session.trace s)
          /\ In t1 tracks /\ In t2 tracks).

(** Calls that neither acquire nor release a timer, a context or a
    track. *)
Definition playback_only (e : Session.Effect) : bool :=
  match e with
  | Session.CreateBufferSource _ | Session.SourceStart _ _ _
  | Session.SourceStop _ | Session.ConsoleError | Session.ContextResume _ =>
      true
  | _ => false
  end.

(** Whatever is held is in a ref. *)
Record refs_hold (s : Session.State) : Prop := mkRefsHold {
  hold_timer :
    forall t, timer_live (Session.trace s) t ->
              Session.videoIntervalRef s = Some t;
  hold_out :
    forall c, context_open (Session.trace s) 24000 c ->
              Session.audioContextRef s = Some c;
  hold_inp :
    forall c, context_open (Session.trace s) 16000 c ->
              Session.inputContextRef s = Some c;
  hold_tracks :
    forall t, track_live (Session.trace s) t ->
              exists tracks, Session.streamRef s = Some tracks /\ In t tracks;
  hold_stream :
    forall tracks, Session.streamRef s = Some tracks ->
                   In (Session.GetUserMedia tracks) (Session.trace s)
}.

(** What holds along a serial run, with [p] calls of [connect]
    suspended. *)
Record session_inv (s : Session.State) (p : nat) : Prop := mkSessionInv {
  inv_pending : (p <= 1)%nat;
  inv_pending_flag :
    p = 1%nat -> Session.isConnecting s = true \/ Session.connected s = true;
  inv_pending_refs :
    p = 1%nat ->
    Session.inputContextRef s = None /\ Session.streamRef s = None
    /\ Session.videoIntervalRef s = None;
  inv_guard :
    Session.isConnecting s = false -> Session.connected s = false ->
    Session.audioContextRef s = None /\ Session.inputContextRef s = None
    /\ Session.streamRef s = None /\ Session.videoIntervalRef s = None;
  inv_refs : refs_hold s
}.

Definition run_clock : Session.Clock :=
  Session.mkClock (Float.of_Z 0) Session.Running.

(** The run in which [disconnect] comes while [connect] waits for the
    microphone, [connect] is called again before the first request is
    settled, and both requests are granted. *)
Definition leaked_state : Session.State :=
  Session.connect_resume (Session.Granted 1)
    (Session.connect_resume (Session.Granted 1)
       (fst (Session.connect_begin run_clock
               (Session.disconnect
                  (fst (Session.connect_begin run_clock Session.initial)))))).

(** ** Running the message handler to its end

    [settle fuel step]: the handler is resumed, every awaited promise
    being fulfilled, until its own promise is settled; [fuel] bounds the
    number of resumptions. *)
Fixpoint settle (platform : Codec.AudioContext) (closure : Session.Closure)
  (clock : Session.Clock) (message : Session.LiveServerMessage) (fuel : nat)
  (step : Session.State * Session.Step)
  : option (Session.State * Js.Result unit) :=
  match step with
  | (s, Session.Finished outcome) => Some (s, outcome)
  | (s, Session.Suspend a) =>
      match fuel with
      | O => None
      | S fuel' =>
          settle platform closure clock message fuel'
            (Session.onmessage_resume platform closure clock message a
               (Js.Ok tt) s)
      end
  end.

(** ** Example states *)

Definition example_closure : Session.Closure := Session.mkClosure 1.

(** The session after [connect()] with the microphone granted and the
    remote acknowledgment. *)
Definition active_session : Session.State :=
  Session.onopen
    (Session.connect run_clock (Session.Granted 1) Session.initial).

Definition example_payload : string :=
  Codec.data (Codec.createBlob (map Float.quantized [0; 16384; -16384])).

(** The same session with one chunk of three samples scheduled. *)
Definition playing_session : Session.State :=
  fst (Session.onmessage conforming_context example_closure
         (Session.mkClock (binary64 1 (-1)) Session.Running)
         (Session.mkMessage (Some example_payload) false)
         active_session).

(** The chunk of [playing_session] starts at 0.5 and lasts 0.000125
    seconds.  An interruption comes [2^-14] seconds after its start, and
    the next chunk [2^-15] seconds after the interruption, at 0.50009. *)
Definition interrupted_session : Session.State :=
  fst (Session.onmessage conforming_context example_closure
         (Session.mkClock (binary64 8193 (-14)) Session.Running)
         (Session.mkMessage None true)
         playing_session).

Definition resumed_session : Session.State :=
  fst (Session.onmessage conforming_context example_closure
         (Session.mkClock (binary64 16387 (-15)) Session.Running)
         (Session.mkMessage (Some example_payload) false)
         interrupted_session).

(** Two chunks of three samples, both handled at a reading of 0.25. *)
Definition back_to_back_session : Session.State :=
  fst (Session.onmessage conforming_context example_closure
         (Session.mkClock (binary64 1 (-2)) Session.Running)
         (Session.mkMessage (Some example_payload) false)
         (fst (Session.onmessage conforming_context example_closure
                 (Session.mkClock (binary64 1 (-2)) Session.Running)
                 (Session.mkMessage (Some example_payload) false)
                 active_session))).

(** ** The encoder on one sample *)




(** ** Interleaved frames *)

(** The frames of interleaved 16-bit data, channel by channel: frame [i]
    of channel [channel] is element [i * numChannels + channel]. *)
Definition deinterleaved (dataInt16 : list Z) (numChannels frames : nat)
  : list (list spec_float) :=
  map (fun channel =>
         map (fun i =>
                sample_of_pcm16 (nth (i * numChannels + channel) dataInt16 0))
           (seq 0 frames))
    (seq 0 numChannels).

(** The whole frames in [data]: two bytes a sample, [numChannels] samples
    a frame. *)
Definition whole_frames (data : list Z) (numChannels : positive) : nat :=
  (length data / 2 / Pos.to_nat numChannels)%nat.

(** Three samples as bytes, and five samples of a stereo stream. *)
Definition example_bytes : list Z := [0; 128; 255; 127; 52; 18].
Definition stereo_bytes : list Z := [1; 0; 2; 0; 3; 0; 4; 0; 5; 0].

(** ** Video frames *)

(** The data URL of a JPEG image whose bytes are the characters of
    [binary]. *)
Definition jpeg_data_url (binary : string) : string :=
  "data:image/jpeg;base64," +:+ Base64.btoa binary.

(** A platform that gives a context and answers with the same image for
    every frame, and a video of 1280 by 720 pixels. *)
Definition example_platform : Capture.Platform :=
  Capture.mkPlatform (fun _ => true) (fun _ _ => Js.Ok (jpeg_data_url "JFIF")).

Definition example_video : Capture.HTMLVideoElement :=
  Capture.mkVideoElement 1280 720.

(** ** Tokens and scores *)

(** The characters a token is made of: lower-case ASCII letters, digits
    and the underscore. *)
Definition is_token_char (c : ascii) : bool :=
  let n := Relevance.code c in
  ((97 <=? n) && (n <=? 122)) || ((48 <=? n) && (n <=? 57)) || (n =? 95).

(** The catalog without the entries that have the id of the video that
    plays. *)
Definition others {VideoId : Type} `{EqDecision VideoId}
  (video : Relevance.Video VideoId) (allVideos : list (Relevance.Video VideoId))
  : list (Relevance.Video VideoId) :=
  List.filter (fun v => negb (bool_decide (Relevance.id v = Relevance.id video)))
    allVideos.

(** How many tokens of [text], counted with repetitions, are tokens of
    the title or the description of [current]. *)
Definition token_matches {VideoId : Type} (current : Relevance.Video VideoId)
  (text : string) : Z :=
  Z.of_nat
    (length
       (List.filter
          (fun token =>
             bool_decide
               (token ∈ Relevance.tokenize
                          (Relevance.title current +:+ " "
                             +:+ Relevance.description current)))
          (Relevance.tokenize text))).

Definition first_word_bonus {VideoId : Type}
  (current candidate : Relevance.Video VideoId) : Z :=
  if bool_decide (Relevance.first_word (Relevance.title current)
                  = Relevance.first_word (Relevance.title candidate))
  then 2 else 0.

(** ** Runs of the application *)

(** A click on one of the entries offered plays that entry; closing the
    player is possible at any time. *)
Inductive browsing {VideoId : Type} `{EqDecision VideoId}
  (MOCK_VIDEOS : list (Relevance.Video VideoId)) : App.State VideoId -> Prop :=
| browsing_initial : browsing MOCK_VIDEOS (App.initial MOCK_VIDEOS)
| browsing_play (s : App.State VideoId) (v : Relevance.Video VideoId) :
    browsing MOCK_VIDEOS s -> In v (App.offered s) ->
    browsing MOCK_VIDEOS (App.handlePlayVideo v s)
| browsing_close (s : App.State VideoId) :
    browsing MOCK_VIDEOS s -> browsing MOCK_VIDEOS (App.handleClosePlayer s).

Definition example_catalog : list (Relevance.Video Z) := [item1; item2; item3].

(** ** The handler's first call, and more example states *)

(** The [resume()] call the handler makes first when the output context
    reports that it is suspended. *)
Definition resume_calls (clock : Session.Clock) (s : Session.State)
  : list Session.Effect :=
  match Session.audioContextRef s, Session.state clock with
  | Some ctx, Session.Suspended => [Session.ContextResume ctx]
  | _, _ => []
  end.

(** The callbacks of a [connect()] call whose output context was 7. *)
Definition stale_closure : Session.Closure := Session.mkClosure 7.

(** The component with the companion panel open on an active session. *)
Definition open_player : Player.State := Player.mkPlayer true active_session.

(** ** Playback on an established session *)



(** What happens while a session plays without being interrupted:
    messages that do not carry the interrupted flag, handled by the
    callbacks of any [connect()] call at a reading of the clock; a handler
    that was suspended reaching its scheduling statements, with any buffer
    whose duration is a number of seconds; and sources that end. *)
Inductive uninterrupted (s : Session.State) : Session.State -> Prop :=
| uninterrupted_start : uninterrupted s s
| uninterrupted_message (s' : Session.State) (platform : Codec.AudioContext)
    (closure : Session.Closure) (clock : Session.Clock)
    (message : Session.LiveServerMessage) :
    uninterrupted s s' ->
    Session.interrupted message = false ->
    is_seconds (Session.currentTime clock) = true ->
    uninterrupted s (fst (Session.onmessage platform closure clock message s'))
| uninterrupted_schedule (s' : Session.State) (closure : Session.Closure)
    (clock : Session.Clock) (audioBuffer : Codec.AudioBuffer) :
    uninterrupted s s' ->
    is_seconds (Session.currentTime clock) = true ->
    is_seconds (Codec.duration audioBuffer) = true ->
    uninterrupted s (fst (Session.schedule closure clock audioBuffer s'))
| uninterrupted_ended (s' : Session.State) (source : positive) :
    uninterrupted s s' -> uninterrupted s (Session.onended source s').



(** * Properties *)

Lemma check_range_sound (n : nat) (p : Z -> bool) :
  forall lo, check_range n lo p = true ->
  forall k, lo <= k < lo + 2 ^ Z.of_nat n -> p k = true.
Proof.
  induction n as [|n IH]; intros lo Hc k Hk.
  - simpl in Hk. assert (k = lo) as -> by lia. exact Hc.
  - cbn [check_range] in Hc. apply andb_prop in Hc as [Hl Hr].
    rewrite Nat2Z.inj_succ, Z.pow_succ_r in Hk by lia.
    destruct (Z_lt_le_dec k (lo + 2 ^ Z.of_nat n)).
    + apply (IH lo Hl). lia.
    + apply (IH _ Hr). lia.
Qed.

(** ** Counted loops that fill an array *)

Section Loops.

Context {A : Type}.

Lemma for_loop_fill (f : nat -> A) (d : A) (count : nat) :
  forall pre : list A,
  Js.for_loop count (length pre) (fun i a => <[i := f i]> a)
    (pre ++ replicate count d)
  = pre ++ map f (seq (length pre) count).
Proof.
  induction count as [|count IH]; intros pre; cbn [Js.for_loop replicate seq map].
  - reflexivity.
  - rewrite insert_app_r_alt by lia.
    rewrite Nat.sub_diag. cbn [insert list_insert].
    specialize (IH (pre ++ [f (length pre)])).
    rewrite length_app in IH. cbn [length] in IH.
    rewrite Nat.add_1_r in IH.
    rewrite <- app_assoc in IH. cbn [app] in IH. rewrite IH.
    rewrite <- app_assoc. reflexivity.
Qed.

Lemma for_loop_fill_all (f : nat -> A) (d : A) (count : nat) :
  Js.for_loop count 0 (fun i a => <[i := f i]> a) (replicate count d)
  = map f (seq 0 count).
Proof. exact (for_loop_fill f d count []). Qed.

Lemma map_lookup_seq {B : Type} (g : option A -> B) (l : list A) :
  forall start : nat,
  map (fun i => g (l !! (i - start)%nat)) (seq start (length l))
  = map (fun x => g (Some x)) l.
Proof.
  induction l as [|x l IH]; intros start; cbn [length seq map].
  - reflexivity.
  - rewrite Nat.sub_diag. cbn [lookup list_lookup]. f_equal.
    rewrite <- (IH (S start)). apply map_ext_in.
    intros i Hi. apply in_seq in Hi.
    replace (i - start)%nat with (S (i - S start)) by lia. reflexivity.
Qed.

Lemma map_lookup_seq0 {B : Type} (g : option A -> B) (l : list A) :
  map (fun i => g (l !! i)) (seq 0 (length l)) = map (fun x => g (Some x)) l.
Proof.
  rewrite <- (map_lookup_seq g l 0). apply map_ext.
  intros i. rewrite Nat.sub_0_r. reflexivity.
Qed.

End Loops.

(** ** Base64: decoding what was encoded *)

Section Base64Facts.

Import Js Base64.

Lemma list_ind3 {A : Type} (P : list A -> Prop) :
  P [] -> (forall a, P [a]) -> (forall a b, P [a; b]) ->
  (forall a b c l, P l -> P (a :: b :: c :: l)) ->
  forall l, P l.
Proof.
  intros H0 H1 H2 H3.
  fix IH 1.
  intros [|a [|b [|c l]]]; [exact H0 | apply H1 | apply H2 | apply H3, IH].
Qed.

Lemma to_sextets_range (bytes : list Z) :
  Forall is_byte bytes -> Forall is_sextet (to_sextets bytes).
Proof.
  unfold is_byte, is_sextet.
  induction bytes as [|a|a b|a b c l IH] using list_ind3; intros H;
    cbn [to_sextets]; repeat (apply Forall_cons_1 in H as [? H]);
    repeat apply Forall_cons_2; auto using Forall_nil_2;
    Z.div_mod_to_equations; lia.
Qed.

Lemma from_to_sextets (bytes : list Z) :
  Forall is_byte bytes -> from_sextets (to_sextets bytes) = bytes.
Proof.
  unfold is_byte.
  induction bytes as [|a|a b|a b c l IH] using list_ind3; intros H;
    cbn [to_sextets from_sextets]; repeat (apply Forall_cons_1 in H as [? H]);
    rewrite ?IH by assumption; repeat f_equal;
    Z.div_mod_to_equations; lia.
Qed.

Lemma sextet_chars (x : Z) :
  is_sextet x ->
  sextet_of_char (char_of_sextet x) = Some x
  /\ is_ascii_whitespace (char_of_sextet x) = false
  /\ Ascii.eqb (char_of_sextet x) "=" = false.
Proof.
  intros Hx.
  assert (sextet_char_ok x = true) as H.
  { apply (check_range_sound 6 sextet_char_ok 0); [vm_compute; reflexivity|].
    unfold is_sextet in Hx. simpl. lia. }
  unfold sextet_char_ok in H.
  apply andb_prop in H as [H H3]. apply andb_prop in H as [H1 H2].
  destruct (sextet_of_char (char_of_sextet x)) as [y|]; [|discriminate].
  apply Z.eqb_eq in H1. subst y.
  split; [reflexivity|].
  split; [apply negb_true_iff, H2 | apply negb_true_iff, H3].
Qed.

Lemma mapM_sextets (xs : list Z) :
  Forall is_sextet xs ->
  mapM sextet_of_char (map char_of_sextet xs) = Some xs.
Proof.
  intros H. apply mapM_Some. induction H as [|x xs Hx _ IH]; cbn [map].
  - constructor.
  - constructor; [apply (sextet_chars x Hx) | exact IH].
Qed.

Lemma filter_keeps_all {A : Type} (p : A -> bool) (l : list A) :
  Forall (fun x => p x = true) l -> List.filter p l = l.
Proof.
  induction 1 as [|x l Hx _ IH]; cbn [List.filter]; [reflexivity|].
  rewrite Hx, IH. reflexivity.
Qed.

Lemma drop_trailing_equals_snoc (l : list ascii) :
  drop_trailing_equals (l ++ ["="%char]) = l.
Proof.
  unfold drop_trailing_equals. rewrite rev_app_distr. cbn [rev app].
  rewrite Ascii.eqb_refl. apply rev_involutive.
Qed.

Lemma drop_trailing_equals_none (l : list ascii) :
  Forall (fun c => Ascii.eqb c "=" = false) l -> drop_trailing_equals l = l.
Proof.
  intros H. unfold drop_trailing_equals.
  destruct (rev l) as [|c r] eqn:E; [reflexivity|].
  assert (In c l) as Hc by (apply in_rev; rewrite E; left; reflexivity).
  rewrite Forall_forall in H.
  rewrite (H c) by (apply list_elem_of_In; exact Hc). reflexivity.
Qed.

Lemma padding_shape (n : nat) :
  padding n = [] \/ padding n = ["="%char] \/ padding n = ["="; "="]%char.
Proof.
  unfold padding. destruct (n mod 3)%nat as [|[|[|?]]]; auto.
Qed.

Lemma drop_padding (n : nat) (body : list ascii) :
  Forall (fun c => Ascii.eqb c "=" = false) body ->
  drop_trailing_equals (drop_trailing_equals (body ++ padding n)) = body.
Proof.
  intros H. destruct (padding_shape n) as [-> | [-> | ->]].
  - rewrite app_nil_r. rewrite (drop_trailing_equals_none body H).
    apply drop_trailing_equals_none, H.
  - rewrite drop_trailing_equals_snoc. apply drop_trailing_equals_none, H.
  - change (body ++ ["="; "="]%char) with (body ++ ["="%char] ++ ["="%char]).
    rewrite app_assoc. rewrite !drop_trailing_equals_snoc. reflexivity.
Qed.

(** The encoding of [n] bytes has [4 * ceil (n / 3)] characters, of which
    the ones before the padding are never 1 modulo 4. *)
Lemma encoded_length (bytes : list Z) :
  ((length (to_sextets bytes) + length (padding (length bytes))) mod 4 = 0
   /\ length (to_sextets bytes) mod 4 <> 1)%nat.
Proof.
  induction bytes as [|a|a b|a b c l [IH1 IH2]] using list_ind3;
    try (split; [reflexivity | discriminate]).
  cbn [to_sextets length].
  assert (padding (S (S (S (length l)))) = padding (length l)) as ->.
  { unfold padding.
    replace (S (S (S (length l)))) with (length l + 1 * 3)%nat by lia.
    rewrite Nat.Div0.mod_add. reflexivity. }
  replace (S (S (S (S (length (to_sextets l))))) + length (padding (length l)))%nat
    with (length (to_sextets l) + length (padding (length l)) + 1 * 4)%nat by lia.
  replace (S (S (S (S (length (to_sextets l))))))
    with (length (to_sextets l) + 1 * 4)%nat by lia.
  rewrite !Nat.Div0.mod_add. split; assumption.
Qed.

Lemma charCode_byte (c : ascii) : is_byte (charCode c).
Proof.
  unfold is_byte, charCode. pose proof (N_ascii_bounded c). lia.
Qed.

Lemma fromCharCode_charCode (c : ascii) : fromCharCode (charCode c) = c.
Proof.
  unfold fromCharCode. rewrite Z.mod_small by apply charCode_byte.
  unfold charCode. rewrite N2Z.id. apply ascii_N_embedding.
Qed.

Lemma charCode_fromCharCode (b : Z) : is_byte b -> charCode (fromCharCode b) = b.
Proof.
  unfold is_byte, charCode, fromCharCode. intros H.
  rewrite Z.mod_small by exact H.
  rewrite N_ascii_embedding by lia. lia.
Qed.

Lemma atob_btoa (binary : string) : atob (btoa binary) = Ok binary.
Proof.
  unfold atob, btoa.
  set (bytes := map charCode (list_ascii_of_string binary)).
  assert (Forall is_byte bytes) as Hbytes.
  { unfold bytes. apply Forall_forall. intros b Hb.
    apply list_elem_of_In, in_map_iff in Hb as [c [<- _]]. apply charCode_byte. }
  pose proof (to_sextets_range bytes Hbytes) as Hsext.
  set (body := map char_of_sextet (to_sextets bytes)).
  assert (Forall (fun c => Ascii.eqb c "=" = false) body
          /\ Forall (fun c => negb (is_ascii_whitespace c) = true) body)
    as [Hne Hnw].
  { unfold body. split; apply Forall_forall; intros c Hc;
      apply list_elem_of_In, in_map_iff in Hc as [x [<- Hx]];
      apply list_elem_of_In in Hx;
      rewrite Forall_forall in Hsext;
      destruct (sextet_chars x (Hsext x Hx)) as (_ & Hw & He);
      [exact He | rewrite Hw; reflexivity]. }
  rewrite list_ascii_of_string_of_list_ascii.
  rewrite filter_keeps_all.
  2:{ apply Forall_app. split; [exact Hnw|].
      destruct (padding_shape (length bytes)) as [-> | [-> | ->]];
        repeat constructor. }
  destruct (encoded_length bytes) as [Hlen Hbody].
  assert (strip_padding (body ++ padding (length bytes)) = body) as ->.
  { unfold strip_padding. rewrite length_app. unfold body at 1.
    rewrite length_map, Hlen. cbn [Nat.eqb]. apply drop_padding, Hne. }
  assert ((length body mod 4 =? 1)%nat = false) as ->.
  { unfold body. rewrite length_map. apply Nat.eqb_neq, Hbody. }
  unfold body. rewrite mapM_sextets by exact Hsext.
  rewrite from_to_sextets by exact Hbytes.
  unfold bytes. rewrite map_map.
  rewrite (map_ext _ (fun c => c) fromCharCode_charCode), map_id.
  rewrite string_of_list_ascii_of_string. reflexivity.
Qed.

End Base64Facts.

(** ** The audio helpers *)

Section CodecFacts.

Import Js Base64 Codec.

Lemma same_eq (a b : spec_float) : Float.same a b = true -> a = b.
Proof.
  destruct a as [s|s| |s m e], b as [t|t| |t n f]; cbn [Float.same];
    try discriminate; try reflexivity.
  - intros H. apply Bool.eqb_prop in H. congruence.
  - intros H. apply Bool.eqb_prop in H. congruence.
  - intros H. apply andb_prop in H as [H He]. apply andb_prop in H as [Hs Hm].
    apply Bool.eqb_prop in Hs. apply Pos.eqb_eq in Hm. apply Z.eqb_eq in He.
    congruence.
Qed.

Lemma of_Z_32768 : Float.of_Z 32768 = S754_finite false 4503599627370496 (-37).
Proof. vm_compute. reflexivity. Qed.

Lemma digits2_pos_shift (m n : positive) :
  digits2_pos (Pos.iter xO m n) = (digits2_pos m + n)%positive.
Proof.
  induction n as [|n IH] using Pos.peano_ind.
  - cbn. lia.
  - rewrite Pos.iter_succ. cbn [digits2_pos]. rewrite IH. lia.
Qed.

Lemma Pos_iter_xO_pow (m n : positive) :
  Z.pos (Pos.iter xO m n) = Z.pos m * 2 ^ Z.pos n.
Proof.
  induction n as [|n IH] using Pos.peano_ind.
  - cbn. lia.
  - rewrite Pos.iter_succ, Pos2Z.inj_xO, IH, Pos2Z.inj_succ, Z.pow_succ_r by lia.
    lia.
Qed.

Lemma digits2_pos_bounds (m : positive) :
  2 ^ (Z.pos (digits2_pos m) - 1) <= Z.pos m < 2 ^ Z.pos (digits2_pos m).
Proof.
  induction m as [m IH|m IH|]; cbn [digits2_pos].
  - rewrite Pos2Z.inj_succ.
    replace (Z.succ (Z.pos (digits2_pos m)) - 1)
      with (Z.succ (Z.pos (digits2_pos m) - 1)) by lia.
    rewrite !Z.pow_succ_r by lia. lia.
  - rewrite Pos2Z.inj_succ.
    replace (Z.succ (Z.pos (digits2_pos m)) - 1)
      with (Z.succ (Z.pos (digits2_pos m) - 1)) by lia.
    rewrite !Z.pow_succ_r by lia. lia.
  - cbn. lia.
Qed.

(** Multiplying and dividing a binary64 value by 32768 only moves its
    exponent. *)
Lemma mul_32768_finite (s : bool) (m : positive) (e : Z) :
  digits2_pos m = 53%positive -> -1089 <= e <= 956 ->
  Float.mul (S754_finite s m e) (Float.of_Z 32768) = S754_finite s m (e + 15).
Proof.
  intros Hd He. rewrite of_Z_32768. unfold Float.mul, SFmul.
  rewrite Bool.xorb_false_r.
  rewrite Pos.mul_comm.
  change (4503599627370496 * m)%positive with (Pos.iter xO m 52%positive).
  set (mx := Pos.iter xO m 52).
  assert (digits2_pos mx = 105%positive) as Hdx
    by (unfold mx; rewrite digits2_pos_shift, Hd; reflexivity).
  assert (SpecFloat.iter_pos shr_1 52 (Build_shr_record (Z.pos mx) false false)
          = Build_shr_record (Z.pos m) false false) as Hshr by reflexivity.
  unfold binary_round_aux, shr_fexp, Float.prec64, Float.emax64.
  cbn [Zdigits2]. rewrite Hdx. unfold fexp, emin.
  replace (Z.max (105 + (e + -37) - 53) (3 - 1024 - 53)) with (e + 15) by lia.
  replace (e + 15 - (e + -37)) with 52 by lia.
  cbn [shr shr_record_of_loc]. rewrite Hshr.
  cbn [shr_m loc_of_shr_record round_nearest_even Zdigits2]. rewrite Hd.
  replace (e + -37 + 52) with (e + 15) by lia.
  replace (Z.max (53 + (e + 15) - 53) (3 - 1024 - 53)) with (e + 15) by lia.
  rewrite Z.sub_diag. cbn [shr shr_m].
  destruct (Z.leb_spec (e + 15) (1024 - 53)); [reflexivity | lia].
Qed.

Lemma div_32768_finite (s : bool) (m : positive) (e : Z) :
  digits2_pos m = 53%positive -> -1058 <= e <= 986 ->
  Float.div (S754_finite s m e) (Float.of_Z 32768) = S754_finite s m (e - 15).
Proof.
  intros Hd He. rewrite of_Z_32768. unfold Float.div, SFdiv.
  rewrite Bool.xorb_false_r.
  unfold SFdiv_core_binary, Float.prec64, Float.emax64.
  cbn [Zdigits2]. rewrite Hd.
  change (digits2_pos 4503599627370496) with 53%positive.
  unfold fexp, emin.
  replace (Z.min (Z.max (53 + e - (53 + -37) - 53) (3 - 1024 - 53)) (e - -37))
    with (e - 16) by lia.
  replace (e - -37 - (e - 16)) with 53 by lia.
  assert (Z.div_eucl (Z.shiftl (Z.pos m) 53) 4503599627370496
          = (Z.pos m~0, 0)) as ->.
  { assert (Z.shiftl (Z.pos m) 53 = Z.pos m~0 * 4503599627370496) as ->
      by (rewrite Z.shiftl_mul_pow2; lia).
    pose proof (Z.div_mul (Z.pos m~0) 4503599627370496) as Hq.
    pose proof (Z.mod_mul (Z.pos m~0) 4503599627370496) as Hr.
    unfold Z.div, Z.modulo in Hq, Hr.
    destruct (Z.div_eucl (Z.pos m~0 * 4503599627370496) 4503599627370496)
      as [q r].
    rewrite Hq, Hr by lia. reflexivity. }
  change (new_location 4503599627370496 0) with loc_Exact.
  unfold binary_round_aux, shr_fexp. cbn [Zdigits2 digits2_pos]. rewrite Hd.
  unfold fexp, emin.
  replace (Z.max (Z.pos (Pos.succ 53) + (e - 16) - 53) (3 - 1024 - 53))
    with (e - 15) by lia.
  replace (e - 15 - (e - 16)) with 1 by lia.
  cbn [shr shr_record_of_loc SpecFloat.iter_pos shr_1 orb shr_m loc_of_shr_record
       round_nearest_even Zdigits2].
  rewrite Hd.
  replace (e - 16 + 1) with (e - 15) by lia.
  replace (Z.max (53 + (e - 15) - 53) (3 - 1024 - 53)) with (e - 15) by lia.
  rewrite Z.sub_diag. cbn [shr shr_m].
  destruct (Z.leb_spec (e - 15) (1024 - 53)); [reflexivity | lia].
Qed.

Lemma scalable_finite (x : spec_float) :
  scalable x = true ->
  exists s m e, x = S754_finite s m e
                /\ digits2_pos m = 53%positive /\ -1058 <= e <= 956.
Proof.
  destruct x as [s|s| |s m e]; cbn [scalable]; try discriminate.
  intros H. apply andb_prop in H as [H H3]. apply andb_prop in H as [H1 H2].
  apply Pos.eqb_eq in H1. apply Z.leb_le in H2, H3.
  exists s, m, e. repeat split; assumption.
Qed.

(** Both conversions are exact on the 65536 quantized samples. *)
Lemma quantized_samples (k : Z) :
  is_int16 k ->
  pcm16 (Float.quantized k) = k /\ sample_of_pcm16 k = Float.quantized k.
Proof.
  intros Hk.
  assert (quantized_sample_ok k = true) as H.
  { apply (check_range_sound 16 quantized_sample_ok (-32768));
      [vm_compute; reflexivity|].
    unfold is_int16 in Hk. simpl. lia. }
  unfold quantized_sample_ok in H.
  destruct (Z.eqb_spec k 0) as [->|_];
    [split; vm_compute; reflexivity|].
  cbn [orb] in H. cbv zeta in H.
  apply andb_prop in H as [H H4]. apply andb_prop in H as [H H3].
  apply andb_prop in H as [H1 H2].
  apply scalable_finite in H1 as (s & m & e & Ex & Hd & He).
  apply scalable_finite in H3 as (s' & m' & e' & Ey & Hd' & He').
  unfold pcm16, sample_of_pcm16. rewrite Ex, Ey in *.
  rewrite mul_32768_finite, div_32768_finite by (assumption || lia).
  cbn [scale] in H2, H4.
  split; [apply Z.eqb_eq, H2 | apply same_eq, H4].
Qed.

Lemma ToInt16_range (x : spec_float) : is_int16 (Float.ToInt16 x).
Proof.
  unfold is_int16, Float.ToInt16. destruct x; try lia.
  pose proof (Z.mod_pos_bound (Float.truncate (S754_finite s m e)) 65536).
  destruct (Z.leb_spec 32768 (Float.truncate (S754_finite s m e) mod 65536));
    lia.
Qed.

(** The byte view of an [Int16Array] and back. *)
Lemma bytes_of_int16_bytes (k : Z) : Forall is_byte (bytes_of_int16 k).
Proof.
  unfold bytes_of_int16, is_byte.
  repeat constructor; Z.div_mod_to_equations; lia.
Qed.

Lemma int16_of_bytes_of_int16 (k : Z) :
  is_int16 k ->
  int16_of_bytes ((k mod 65536) mod 256) ((k mod 65536) / 256) = k.
Proof.
  unfold is_int16, int16_of_bytes. intros Hk.
  assert ((k mod 65536) mod 256 + 256 * ((k mod 65536) / 256) = k mod 65536)
    as -> by (Z.div_mod_to_equations; lia).
  destruct (Z.leb_spec 32768 (k mod 65536)); Z.div_mod_to_equations; lia.
Qed.

Lemma Uint8Array_view_bytes (a : list Z) :
  Forall is_byte (Uint8Array_of_Int16Array a).
Proof.
  unfold Uint8Array_of_Int16Array.
  induction a as [|k a IH]; cbn [map concat]; [constructor|].
  apply Forall_app. split; [apply bytes_of_int16_bytes | exact IH].
Qed.

Lemma Int16Array_view_round_trip (a : list Z) :
  Forall is_int16 a ->
  Int16Array_of_buffer (Uint8Array_of_Int16Array a) = Ok a.
Proof.
  intros Ha. unfold Int16Array_of_buffer, Uint8Array_of_Int16Array.
  assert (length (concat (map bytes_of_int16 a)) = (length a * 2)%nat) as ->.
  { induction a as [|k a IH]; [reflexivity|].
    cbn [map concat]. rewrite length_app.
    rewrite IH by (inversion Ha; assumption). cbn [bytes_of_int16 length]. lia. }
  rewrite Nat.Div0.mod_mul. cbn [Nat.eqb]. f_equal.
  induction Ha as [|k a Hk _ IH]; [reflexivity|].
  cbn [map concat bytes_of_int16 app int16s_of_bytes].
  rewrite int16_of_bytes_of_int16 by exact Hk. f_equal. exact IH.
Qed.

(** Strings as character lists. *)
Lemma String_length_list (s : string) :
  String.length s = length (list_ascii_of_string s).
Proof. induction s as [|c s IH]; cbn; [reflexivity | f_equal; exact IH]. Qed.

Lemma String_get_list (s : string) :
  forall i : nat, String.get i s = list_ascii_of_string s !! i.
Proof.
  induction s as [|c s IH]; intros [|i]; cbn; try reflexivity. apply IH.
Qed.

(** [decode] returns the bytes whose characters were encoded. *)
Lemma decode_btoa (bytes : list Z) :
  Forall is_byte bytes ->
  decode (btoa (string_of_list_ascii (map fromCharCode bytes))) = Ok bytes.
Proof.
  intros Hb. unfold decode. rewrite atob_btoa. cbn [mbind Result_bind].
  f_equal. rewrite String_length_list, list_ascii_of_string_of_list_ascii.
  rewrite for_loop_fill_all.
  set (G := fun o : option ascii =>
              ToUint8 (match o with Some c => charCode c | None => 0 end)).
  rewrite (map_ext _ (fun i => G (map fromCharCode bytes !! i))).
  2:{ intros i. unfold charCodeAt, G.
      rewrite String_get_list, list_ascii_of_string_of_list_ascii.
      reflexivity. }
  rewrite (map_lookup_seq0 G). unfold G.
  rewrite map_map. rewrite <- (map_id bytes) at 2.
  apply map_ext_in. intros b Hin.
  rewrite Forall_forall in Hb. apply list_elem_of_In in Hin.
  rewrite charCode_fromCharCode by (apply Hb, Hin).
  unfold ToUint8. apply Z.mod_small, Hb, Hin.
Qed.

(** The payload of [createBlob] carries [pcm16] of every sample. *)
Lemma createBlob_payload (samples : list spec_float) :
  data (createBlob samples)
  = btoa (string_of_list_ascii
            (map fromCharCode (Uint8Array_of_Int16Array (map pcm16 samples)))).
Proof.
  unfold createBlob. cbn [data]. do 4 f_equal.
  rewrite for_loop_fill_all.
  set (G := fun o : option spec_float =>
              Float.ToInt16
                (Float.mul (match o with
                            | Some x => Float.of_float32 x
                            | None => S754_nan
                            end) (Float.of_Z 32768))).
  rewrite (map_ext _ (fun i => G (samples !! i))).
  2:{ intros i. reflexivity. }
  rewrite (map_lookup_seq0 G). reflexivity.
Qed.

Lemma decode_createBlob (samples : list spec_float) :
  (bytes ← decode (data (createBlob samples)); Int16Array_of_buffer bytes)
  = Ok (map pcm16 samples).
Proof.
  rewrite createBlob_payload, decode_btoa by apply Uint8Array_view_bytes.
  cbn [mbind Result_bind]. apply Int16Array_view_round_trip.
  apply Forall_forall. intros k Hk.
  apply list_elem_of_In, in_map_iff in Hk as [x [<- _]]. apply ToInt16_range.
Qed.

Lemma decode_createBlob_bytes (samples : list spec_float) :
  decode (data (createBlob samples))
  = Ok (Uint8Array_of_Int16Array (map pcm16 samples)).
Proof.
  rewrite createBlob_payload. apply decode_btoa, Uint8Array_view_bytes.
Qed.

(** The inner loop of [decodeAudioData] writes one channel. *)
Lemma for_loop_setChannelData (f : nat -> spec_float) (nc : positive)
  (len : Z) (rate : Q) (count : nat) :
  forall (start : nat) (channelData : list spec_float),
  for_loop count start (fun i b => setChannelData b 0 i (f i))
    (mkAudioBuffer nc len rate [channelData])
  = mkAudioBuffer nc len rate
      [for_loop count start (fun i a => <[i := Float.to_float32 (f i)]> a)
         channelData].
Proof.
  induction count as [|count IH]; intros start channelData;
    cbn [for_loop]; [reflexivity|].
  unfold setChannelData at 2.
  cbn [numberOfChannels buffer_length sampleRate channels alter list_alter].
  apply IH.
Qed.

Lemma frameCount_mono (n : nat) :
  let frameCount := (inject_Z (Z.of_nat n) / inject_Z (Z.pos 1))%Q in
  Qfloor frameCount = Z.of_nat n /\ iterations_below frameCount = n.
Proof.
  unfold iterations_below, Qceiling, Qfloor, Qdiv, Qmult, Qinv, Qopp, inject_Z.
  cbn [Qnum Qden]. rewrite Z.mul_1_r. cbn [Pos.mul Z.opp].
  split; [apply Z.div_1_r|].
  rewrite Z.div_1_r, Z.opp_involutive. apply Nat2Z.id.
Qed.

(** [decodeAudioData] on one channel. *)
Lemma decodeAudioData_mono (ctx : AudioContext) (rate : Q)
  (bytes : list Z) (a : list Z) :
  Int16Array_of_buffer bytes = Ok a ->
  accepts ctx 1 (Z.of_nat (length a)) rate = true ->
  decodeAudioData bytes (Some ctx) rate 1
  = Ok (mkAudioBuffer 1 (Z.of_nat (length a)) rate [map sample_of_pcm16 a]).
Proof.
  intros Ha Hacc. unfold decodeAudioData. rewrite Ha.
  cbn [mbind Result_bind].
  destruct (frameCount_mono (length a)) as [Hfloor Hiter]. cbv zeta in *.
  unfold createBuffer. rewrite Hfloor, Hacc. cbn [mbind Result_bind].
  rewrite Hiter, Nat2Z.id. f_equal.
  change (Pos.to_nat 1) with 1%nat. cbn [for_loop replicate].
  rewrite for_loop_setChannelData. do 2 f_equal.
  rewrite for_loop_fill_all.
  set (G := fun o : option Z =>
              Float.to_float32
                (match o with
                 | Some k => Float.div (Float.of_Z k) (Float.of_Z 32768)
                 | None => S754_nan
                 end)).
  rewrite (map_ext _ (fun i => G (a !! i))).
  2:{ intros i. unfold G, int16_get_div.
      rewrite Nat.mul_1_r, Nat.add_0_r. reflexivity. }
  rewrite (map_lookup_seq0 G). reflexivity.
Qed.

(** Whenever [decodeAudioData] returns a buffer for one channel, it is
    the buffer of the decoded 16-bit integers. *)
Lemma decodeAudioData_mono_inv (ctx : option AudioContext) (rate : Q)
  (bytes : list Z) (b : AudioBuffer) :
  decodeAudioData bytes ctx rate 1 = Ok b ->
  exists a : list Z,
    Int16Array_of_buffer bytes = Ok a
    /\ b = mkAudioBuffer 1 (Z.of_nat (length a)) rate [map sample_of_pcm16 a].
Proof.
  unfold decodeAudioData.
  destruct (Int16Array_of_buffer bytes) as [a|e] eqn:Ha; [|discriminate].
  cbn [mbind Result_bind]. destruct ctx as [c|]; [|discriminate].
  destruct (createBuffer c 1 _ rate) as [b0|e] eqn:Hb; [|discriminate].
  cbn [mbind Result_bind]. intros Hok.
  unfold createBuffer in Hb.
  destruct (frameCount_mono (length a)) as [Hfloor _]. cbv zeta in Hfloor.
  rewrite Hfloor in Hb.
  destruct (accepts c 1 (Z.of_nat (length a)) rate) eqn:Hacc; [|discriminate].
  exists a. split; [reflexivity|].
  pose proof (decodeAudioData_mono c rate bytes a Ha Hacc) as Hm.
  unfold decodeAudioData in Hm. rewrite Ha in Hm. cbn [mbind Result_bind] in Hm.
  unfold createBuffer in Hm. rewrite Hfloor, Hacc in Hm.
  cbn [mbind Result_bind] in Hm. injection Hb as <-.
  assert (Ok b = Ok (mkAudioBuffer 1 (Z.of_nat (length a)) rate
                      [map sample_of_pcm16 a])) as Heq
    by (rewrite <- Hok; exact Hm).
  injection Heq as ->. reflexivity.
Qed.

(** [decodeAudioData] on one channel when the context refuses the
    buffer. *)
Lemma decodeAudioData_mono_refused (ctx : AudioContext) (rate : Q)
  (bytes : list Z) (a : list Z) :
  Int16Array_of_buffer bytes = Ok a ->
  accepts ctx 1 (Z.of_nat (length a)) rate = false ->
  decodeAudioData bytes (Some ctx) rate 1 = Throw NotSupportedError.
Proof.
  intros Ha Hacc. unfold decodeAudioData. rewrite Ha.
  cbn [mbind Result_bind].
  destruct (frameCount_mono (length a)) as [Hfloor _]. cbv zeta in Hfloor.
  unfold createBuffer. rewrite Hfloor, Hacc. reflexivity.
Qed.

(** C1, amended.  Codec round trip: samples that are quantized to 16
    bits, that is the binary32 values [k / 32768] for signed 16-bit
    integers [k], come back unchanged from [createBlob], [decode] and
    [decodeAudioData] with one channel, as the only channel of the buffer
    that the output context allocates for them, whenever [createBuffer]
    accepts one channel of that many frames at that rate; when it does not,
    it raises NotSupportedError and there is no buffer. *)
Theorem codec_round_trip (ctx : AudioContext) (rate : Q) (ks : list Z) :
  Forall is_int16 ks ->
  (accepts ctx 1 (Z.of_nat (length ks)) rate = true ->
   (bytes ← decode (data (createBlob (map Float.quantized ks)));
    decodeAudioData bytes (Some ctx) rate 1)
   = Ok (mkAudioBuffer 1 (Z.of_nat (length ks)) rate
           [map Float.quantized ks]))
  /\ (accepts ctx 1 (Z.of_nat (length ks)) rate = false ->
      (bytes ← decode (data (createBlob (map Float.quantized ks)));
       decodeAudioData bytes (Some ctx) rate 1)
      = Throw NotSupportedError).
Proof.
  intros Hks.
  assert (map pcm16 (map Float.quantized ks) = ks) as Hpcm.
  { rewrite map_map. rewrite <- (map_id ks) at 2. apply map_ext_in.
    intros k Hk. rewrite Forall_forall in Hks.
    apply (quantized_samples k), Hks, list_elem_of_In, Hk. }
  assert (map sample_of_pcm16 ks = map Float.quantized ks) as Hback.
  { apply map_ext_in. intros k Hk. rewrite Forall_forall in Hks.
    apply (quantized_samples k), Hks, list_elem_of_In, Hk. }
  rewrite decode_createBlob_bytes, Hpcm. cbn [mbind Result_bind].
  split; intros Hacc.
  - rewrite (decodeAudioData_mono ctx rate _ ks).
    + rewrite Hback. reflexivity.
    + apply Int16Array_view_round_trip, Hks.
    + exact Hacc.
  - apply (decodeAudioData_mono_refused ctx rate _ ks);
      [apply Int16Array_view_round_trip, Hks | exact Hacc].
Qed.

Lemma codec_round_trip_witness :
  (bytes ← decode (data (createBlob
                            (map Float.quantized [0; 1; -1; 32767; -32768; 12345])));
   decodeAudioData bytes (Some conforming_context) (24000 # 1) 1)
  = Ok (mkAudioBuffer 1 6 (24000 # 1)
          [map Float.quantized [0; 1; -1; 32767; -32768; 12345]]).
Proof.
  apply (codec_round_trip conforming_context (24000 # 1)
           [0; 1; -1; 32767; -32768; 12345]).
  - unfold is_int16. repeat constructor; lia.
  - reflexivity.
Defined.

(** C1 as stated fails: on a context that follows the Web Audio
    specification the empty sequence gets no buffer, and neither do three
    samples at a rate of 1000 Hz; [createBuffer] raises NotSupportedError
    for a length of zero frames and for a rate outside the supported
    range. *)
Lemma codec_round_trip_refused :
  (bytes ← decode (data (createBlob (map Float.quantized [])));
   decodeAudioData bytes (Some conforming_context) (24000 # 1) 1)
  = Throw NotSupportedError
  /\ (bytes ← decode (data (createBlob (map Float.quantized [])));
      decodeAudioData bytes (Some conforming_context) (24000 # 1) 1)
     <> Ok (mkAudioBuffer 1 0 (24000 # 1) [map Float.quantized []])
  /\ (bytes ← decode (data (createBlob (map Float.quantized [0; 1; -1])));
      decodeAudioData bytes (Some conforming_context) (1000 # 1) 1)
     = Throw NotSupportedError
  /\ (bytes ← decode (data (createBlob (map Float.quantized [0; 1; -1])));
      decodeAudioData bytes (Some conforming_context) (1000 # 1) 1)
     <> Ok (mkAudioBuffer 1 3 (1000 # 1) [map Float.quantized [0; 1; -1]]).
Proof.
  assert ((bytes ← decode (data (createBlob (map Float.quantized [])));
           decodeAudioData bytes (Some conforming_context) (24000 # 1) 1)
          = Throw NotSupportedError) as Hempty by (vm_compute; reflexivity).
  assert ((bytes ← decode (data (createBlob (map Float.quantized [0; 1; -1])));
           decodeAudioData bytes (Some conforming_context) (1000 # 1) 1)
          = Throw NotSupportedError) as Hrate by (vm_compute; reflexivity).
  split; [exact Hempty|]. split; [rewrite Hempty; discriminate|].
  split; [exact Hrate | rewrite Hrate; discriminate].
Qed.

(** C10.  Encoding wraps instead of clamping: the payload of [createBlob]
    carries, for each sample [x], the integer [pcm16 x] obtained from
    [x * 32768] by truncation and reduction modulo 2^16 into the signed
    16-bit range; 1.0 is stored as -32768, 1.5 as -16384, NaN as 0, and
    [-2^-17], whose product is -0.25, as 0 (truncation is towards zero). *)
Theorem createBlob_wraps :
  (forall samples : list spec_float,
     (bytes ← decode (data (createBlob samples)); Int16Array_of_buffer bytes)
     = Ok (map pcm16 samples))
  /\ (forall x : spec_float,
        is_int16 (pcm16 x)
        /\ (pcm16 x
              - Float.truncate
                  (Float.mul (Float.of_float32 x) (Float.of_Z 32768)))
             mod 65536 = 0)
  /\ pcm16 float32_one = -32768
  /\ pcm16 float32_three_halves = -16384
  /\ pcm16 S754_nan = 0
  /\ pcm16 float32_minus_2_pow_minus_17 = 0.
Proof.
  split; [exact decode_createBlob|].
  split; [|repeat split; vm_compute; reflexivity].
  intros x. split; [apply ToInt16_range|].
  unfold pcm16, Float.ToInt16.
  destruct (Float.mul (Float.of_float32 x) (Float.of_Z 32768))
    as [s|s| |s m e]; try reflexivity.
  set (t := Float.truncate (S754_finite s m e)).
  destruct (Z.leb_spec 32768 (t mod 65536)); Z.div_mod_to_equations; lia.
Qed.

End CodecFacts.

(** ** Numbers of seconds: rounding and order

    The sum and the quotient of binary64 values are the exact results
    rounded to nearest.  What the scheduler needs of them: they stay
    numbers of seconds, and a sum is not below its first term. *)

Section TimeFacts.

Import Js Codec.

Lemma shr_1_m (mrs : shr_record) :
  0 <= shr_m mrs -> shr_m (shr_1 mrs) = shr_m mrs / 2.
Proof.
  destruct mrs as [m r s]. cbn [shr_m]. intros Hm.
  destruct m as [|[p|p|]|p]; cbn [shr_1 shr_m]; try lia.
  all: try reflexivity.
  - apply (Z.div_unique (Z.pos p~1) 2 (Z.pos p) 1); lia.
  - apply (Z.div_unique (Z.pos p~0) 2 (Z.pos p) 0); lia.
Qed.

Lemma iter_shr_1_m (n : positive) :
  forall mrs : shr_record,
  0 <= shr_m mrs ->
  shr_m (SpecFloat.iter_pos shr_1 n mrs) = shr_m mrs / 2 ^ Z.pos n.
Proof.
  assert (forall a b, 0 <= a -> 0 < b -> 0 <= a / b) as Hdiv
    by (intros; apply Z.div_pos; lia).
  induction n as [n IH|n IH|]; intros mrs Hm; cbn [SpecFloat.iter_pos].
  - pose proof (Z.pow_pos_nonneg 2 (Z.pos n) ltac:(lia) ltac:(lia)) as Hp.
    assert (0 <= shr_m (shr_1 mrs)) as H1
      by (rewrite shr_1_m by exact Hm; apply Hdiv; lia).
    assert (0 <= shr_m (SpecFloat.iter_pos shr_1 n (shr_1 mrs))) as H2
      by (rewrite IH by exact H1; apply Hdiv; lia).
    rewrite (IH _ H2), (IH _ H1), (shr_1_m _ Hm).
    rewrite !Z.div_div by lia. f_equal.
    replace (Z.pos n~1) with (Z.pos n + Z.pos n + 1) by lia.
    rewrite !Z.pow_add_r by lia. change (2 ^ 1) with 2. lia.
  - pose proof (Z.pow_pos_nonneg 2 (Z.pos n) ltac:(lia) ltac:(lia)) as Hp.
    assert (0 <= shr_m (SpecFloat.iter_pos shr_1 n mrs)) as H2
      by (rewrite IH by exact Hm; apply Hdiv; lia).
    rewrite (IH _ H2), (IH _ Hm).
    rewrite !Z.div_div by lia. f_equal.
    replace (Z.pos n~0) with (Z.pos n + Z.pos n) by lia.
    rewrite !Z.pow_add_r by lia. lia.
  - rewrite shr_1_m by exact Hm. reflexivity.
Qed.

Lemma shr_spec (mrs : shr_record) (e n : Z) :
  0 <= shr_m mrs -> 0 <= n ->
  shr_m (fst (shr mrs e n)) = shr_m mrs / 2 ^ n /\ snd (shr mrs e n) = e + n.
Proof.
  intros Hm Hn. destruct n as [|p|p]; cbn [shr fst snd]; [| |lia].
  - rewrite Z.div_1_r. lia.
  - split; [apply iter_shr_1_m, Hm | reflexivity].
Qed.

Lemma Zdigits2_bounds (m : Z) :
  0 < m -> 2 ^ (Zdigits2 m - 1) <= m < 2 ^ Zdigits2 m.
Proof.
  destruct m as [|p|p]; try lia. intros _. apply digits2_pos_bounds.
Qed.

Lemma Zdigits2_nonneg (m : Z) : 0 <= Zdigits2 m.
Proof. destruct m; cbn; lia. Qed.

Lemma Zdigits2_le (m k : Z) : 0 <= k -> m < 2 ^ k -> 0 <= m -> Zdigits2 m <= k.
Proof.
  intros Hk Hm H0. destruct (Z.eq_dec m 0) as [->|Hne]; [exact Hk|].
  pose proof (Zdigits2_bounds m ltac:(lia)) as [Hlo _].
  destruct (Z_le_gt_dec (Zdigits2 m) k) as [Hle|Hgt]; [exact Hle|].
  assert (2 ^ k <= 2 ^ (Zdigits2 m - 1)) by (apply Z.pow_le_mono_r; lia). lia.
Qed.

Lemma Zdigits2_ge (m k : Z) : 0 < m -> 2 ^ (k - 1) <= m -> k <= Zdigits2 m.
Proof.
  intros H0 Hm. pose proof (Zdigits2_bounds m H0) as [_ Hhi].
  pose proof (Zdigits2_nonneg m).
  destruct (Z_le_gt_dec k (Zdigits2 m)) as [Hle|Hgt]; [exact Hle|].
  assert (2 ^ Zdigits2 m <= 2 ^ (k - 1)) by (apply Z.pow_le_mono_r; lia). lia.
Qed.

Lemma round_nearest_even_bounds (q : Z) (l : location) :
  q <= round_nearest_even q l <= q + 1.
Proof.
  destruct l as [|[]]; cbn [round_nearest_even]; try destruct (Z.even q); lia.
Qed.

Lemma shr_record_of_loc_m (m : Z) (l : location) :
  shr_m (shr_record_of_loc m l) = m.
Proof. destruct l as [|[]]; reflexivity. Qed.

(** What rounding to nearest returns for [m * 2^e] when [m] has digits
    to spare ([e] is not above the exponent of the format): the sign is
    kept, the result is in canonical form, and its mantissa is the
    quotient of the shift or one more. *)
Lemma binary_round_aux_spec (s : bool) (m e : Z) (l : location) :
  0 <= m ->
  e <= fexp Float.prec64 Float.emax64 (Zdigits2 m + e) ->
  let E := fexp Float.prec64 Float.emax64 (Zdigits2 m + e) in
  let q := m / 2 ^ (E - e) in
  match binary_round_aux Float.prec64 Float.emax64 s m e l with
  | S754_zero s' => s' = s /\ q = 0
  | S754_infinity s' => s' = s
  | S754_nan => False
  | S754_finite s' m' e' =>
      s' = s /\ bounded Float.prec64 Float.emax64 m' e' = true
      /\ ((e' = E /\ q <= Z.pos m') \/ e' = E + 1)
  end.
Proof.
  intros Hm He E q.
  assert (-1074 <= E) as Hmin by (unfold E, fexp, emin, Float.prec64, Float.emax64; lia).
  assert (0 < 2 ^ (E - e)) as Hpow by (apply Z.pow_pos_nonneg; lia).
  assert (0 <= q < 9007199254740992 /\ (4503599627370496 <= q \/ E = -1074))
    as [Hq Hnormal].
  { assert (0 <= q) as Hq0 by (apply Z.div_pos; lia).
    destruct (Z.eq_dec m 0) as [->|Hne].
    { unfold q. rewrite Z.div_0_l by lia. split; [lia|]. right.
      unfold E, fexp, emin, Float.prec64, Float.emax64 in *. cbn [Zdigits2] in *.
      lia. }
    pose proof (Zdigits2_bounds m ltac:(lia)) as [Hlo Hhi].
    set (D := Zdigits2 m) in *.
    destruct (Z_le_gt_dec (-1074) (D + e - 53)) as [Hn|Hs].
    - assert (E = D + e - 53) as HE
        by (unfold E, fexp, emin, Float.prec64, Float.emax64; lia).
      assert (2 ^ (D - 1) = 4503599627370496 * 2 ^ (E - e)) as H1.
      { replace (D - 1) with (52 + (E - e)) by lia.
        rewrite Z.pow_add_r by lia. reflexivity. }
      assert (2 ^ D = 9007199254740992 * 2 ^ (E - e)) as H2.
      { replace D with (53 + (E - e)) at 1 by lia.
        rewrite Z.pow_add_r by lia. reflexivity. }
      assert (4503599627370496 <= q)
        by (apply Z.div_le_lower_bound; lia).
      assert (q < 9007199254740992)
        by (apply Z.div_lt_upper_bound; lia).
      split; [lia | left; lia].
    - assert (E = -1074) as HE
        by (unfold E, fexp, emin, Float.prec64, Float.emax64; lia).
      assert (2 ^ D <= 4503599627370496 * 2 ^ (E - e)) as H2.
      { change 4503599627370496 with (2 ^ 52). rewrite <- Z.pow_add_r by lia.
        apply Z.pow_le_mono_r; lia. }
      assert (q < 4503599627370496)
        by (apply Z.div_lt_upper_bound; lia).
      split; [lia | right; exact HE]. }
  unfold binary_round_aux, shr_fexp. fold E.
  destruct (shr_spec (shr_record_of_loc m l) e (E - e)) as [Hq1 HE1];
    [rewrite shr_record_of_loc_m; exact Hm | lia |].
  rewrite shr_record_of_loc_m in Hq1. fold q in Hq1.
  destruct (shr (shr_record_of_loc m l) e (E - e)) as [mrs1 e1].
  cbn [fst snd] in Hq1, HE1.
  assert (e1 = E) as -> by lia. clear HE1 Hpow He.
  clearbody q. clearbody E. rewrite Hq1.
  pose proof (round_nearest_even_bounds q (loc_of_shr_record mrs1)) as Hq'.
  set (q' := round_nearest_even q (loc_of_shr_record mrs1)) in *.
  destruct (Z.eq_dec q' 9007199254740992) as [Htop|Hbelow].
  - rewrite Htop. change (Zdigits2 9007199254740992) with 54.
    assert (fexp Float.prec64 Float.emax64 (54 + E) - E = 1) as ->
      by (unfold fexp, emin, Float.prec64, Float.emax64; lia).
    change (shr (shr_record_of_loc 9007199254740992 loc_Exact) E 1)
      with (Build_shr_record 4503599627370496 false false, E + 1).
    cbv iota beta. cbn [shr_m].
    destruct (Z.leb_spec (E + 1) (Float.emax64 - Float.prec64)) as [Hle|Hgt];
      [|exact eq_refl].
    split; [reflexivity|]. split; [|right; reflexivity].
    unfold bounded, canonical_mantissa. apply andb_true_intro.
    split; [apply Z.eqb_eq | apply Z.leb_le; exact Hle].
    change (Z.pos (digits2_pos 4503599627370496)) with 53.
    unfold fexp, emin, Float.prec64, Float.emax64. lia.
  - assert (Zdigits2 q' <= 53) as Hd
      by (apply Zdigits2_le; change (2 ^ 53) with 9007199254740992; lia).
    pose proof (Zdigits2_nonneg q') as Hd0.
    assert (fexp Float.prec64 Float.emax64 (Zdigits2 q' + E) - E <= 0) as Hn
      by (unfold fexp, emin, Float.prec64, Float.emax64; lia).
    assert (shr (shr_record_of_loc q' loc_Exact) E
              (fexp Float.prec64 Float.emax64 (Zdigits2 q' + E) - E)
            = (shr_record_of_loc q' loc_Exact, E)) as ->.
    { destruct (fexp Float.prec64 Float.emax64 (Zdigits2 q' + E) - E);
        [reflexivity | lia | reflexivity]. }
    cbn [shr_record_of_loc shr_m].
    destruct q' as [|m'|m'] eqn:Eq'; [split; [reflexivity | lia] | | lia].
    destruct (Z.leb_spec E (Float.emax64 - Float.prec64)) as [Hle|Hgt];
      [|exact eq_refl].
    cbv iota beta.
    split; [reflexivity|]. split; [|left; split; [reflexivity | lia]].
    unfold bounded, canonical_mantissa. apply andb_true_intro.
    split; [apply Z.eqb_eq | apply Z.leb_le; exact Hle].
    cbn [Zdigits2] in Hd.
    destruct Hnormal as [Hn52|HEmin].
    + assert (53 <= Zdigits2 (Z.pos m')) as Hd53
        by (apply Zdigits2_ge; [lia|]; change (2 ^ (53 - 1)) with 4503599627370496; lia).
      cbn [Zdigits2] in Hd53.
      unfold fexp, emin, Float.prec64, Float.emax64. lia.
    + unfold fexp, emin, Float.prec64, Float.emax64. lia.
Qed.

(** Aligning a mantissa to a smaller exponent multiplies it by the
    power of two. *)
Lemma shl_align_spec (m : positive) (e e' : Z) :
  exists (m1 : positive) (e1 : Z),
    shl_align m e e' = (m1, e1)
    /\ e1 = Z.min e e'
    /\ Z.pos m1 = Z.pos m * 2 ^ (e - e1)
    /\ Z.pos (digits2_pos m1) + e1 = Z.pos (digits2_pos m) + e.
Proof.
  unfold shl_align. destruct (e' - e) as [|d|d] eqn:Hd.
  - exists m, e. repeat split; try lia. rewrite Z.sub_diag. lia.
  - exists m, e. repeat split; try lia. rewrite Z.sub_diag. lia.
  - exists (Pos.iter xO m d), e'. split; [reflexivity|]. split; [lia|].
    rewrite Pos_iter_xO_pow, digits2_pos_shift.
    replace (e - e') with (Z.pos d) by lia. split; lia.
Qed.

Lemma fexp_mono (a b : Z) :
  a <= b -> fexp Float.prec64 Float.emax64 a <= fexp Float.prec64 Float.emax64 b.
Proof. unfold fexp, emin. lia. Qed.

(** Rounding [m * 2^e] to a binary64: the result is in canonical form
    and has the sign asked for. *)
Lemma binary_round_valid (s : bool) (m : positive) (e : Z) :
  match binary_round Float.prec64 Float.emax64 s m e with
  | S754_zero s' | S754_infinity s' => s' = s
  | S754_nan => False
  | S754_finite s' m' e' =>
      s' = s /\ bounded Float.prec64 Float.emax64 m' e' = true
  end.
Proof.
  unfold binary_round.
  destruct (shl_align_spec m e
              (fexp Float.prec64 Float.emax64 (Z.pos (digits2_pos m) + e)))
    as (m1 & e1 & -> & He1 & Hm1 & Hd1).
  pose proof (binary_round_aux_spec s (Z.pos m1) e1 loc_Exact) as Hspec.
  cbn [Zdigits2] in Hspec. rewrite Hd1 in Hspec.
  specialize (Hspec ltac:(lia) ltac:(lia)). cbv zeta in Hspec.
  destruct (binary_round_aux Float.prec64 Float.emax64 s (Z.pos m1) e1 loc_Exact);
    intuition.
Qed.

(** Rounding is monotone at the numbers of the format: the binary64 of
    a number that is at least [mw * 2^ew], a number in canonical form, is
    at least that number. *)
Lemma binary_round_ge (M : positive) (ez : Z) (mw : positive) (ew : Z) :
  bounded Float.prec64 Float.emax64 mw ew = true ->
  ez <= ew ->
  Z.pos mw * 2 ^ (ew - ez) <= Z.pos M ->
  match binary_round Float.prec64 Float.emax64 false M ez with
  | S754_infinity s => s = false
  | S754_finite s m' e' =>
      s = false /\ bounded Float.prec64 Float.emax64 m' e' = true
      /\ (ew < e' \/ (e' = ew /\ (mw <= m')%positive))
  | _ => False
  end.
Proof.
  intros Hw Hez Hle.
  unfold bounded, canonical_mantissa in Hw.
  apply andb_prop in Hw as [Hcan _]. apply Z.eqb_eq in Hcan.
  unfold binary_round.
  destruct (shl_align_spec M ez
              (fexp Float.prec64 Float.emax64 (Z.pos (digits2_pos M) + ez)))
    as (M1 & e1 & -> & He1 & HM1 & Hd1).
  pose proof (binary_round_aux_spec false (Z.pos M1) e1 loc_Exact) as Hspec.
  cbn [Zdigits2] in Hspec. rewrite Hd1 in Hspec.
  specialize (Hspec ltac:(lia) ltac:(lia)). cbv zeta in Hspec.
  set (E := fexp Float.prec64 Float.emax64 (Z.pos (digits2_pos M) + ez)) in *.
  assert (0 < 2 ^ (ew - ez)) as Hp1 by (apply Z.pow_pos_nonneg; lia).
  assert (0 < 2 ^ (ez - e1)) as Hp2 by (apply Z.pow_pos_nonneg; lia).
  assert (Z.pos mw * 2 ^ (ew - e1) <= Z.pos M1) as Hle1.
  { replace (ew - e1) with ((ew - ez) + (ez - e1)) by lia.
    rewrite Z.pow_add_r by lia. rewrite HM1. nia. }
  assert (Z.pos (digits2_pos mw) + ew <= Z.pos (digits2_pos M) + ez) as Hdig.
  { rewrite <- Hd1.
    pose proof (digits2_pos_bounds mw) as [Hlo _].
    assert (Z.pos (digits2_pos mw) + (ew - e1) <= Zdigits2 (Z.pos M1)) as H.
    { apply Zdigits2_ge; [lia|].
      replace (Z.pos (digits2_pos mw) + (ew - e1) - 1)
        with ((Z.pos (digits2_pos mw) - 1) + (ew - e1)) by lia.
      rewrite Z.pow_add_r by lia.
      assert (0 < 2 ^ (ew - e1)) by (apply Z.pow_pos_nonneg; lia). nia. }
    cbn [Zdigits2] in H. lia. }
  assert (ew <= E) as HE by (rewrite <- Hcan; apply fexp_mono, Hdig).
  assert (E = ew -> Z.pos mw <= Z.pos M1 / 2 ^ (E - e1)) as Hq.
  { intros ->. apply Z.div_le_lower_bound; [apply Z.pow_pos_nonneg; lia | lia]. }
  assert (ew < E -> 0 < Z.pos M1 / 2 ^ (E - e1)) as Hq0.
  { intros Hlt.
    assert (E = Z.pos (digits2_pos M1) + e1 - 53) as HEn.
    { unfold E. rewrite <- Hd1. unfold fexp, emin, Float.prec64, Float.emax64.
      assert (-1074 <= ew)
        by (rewrite <- Hcan; unfold fexp, emin, Float.prec64, Float.emax64; lia).
      unfold E, fexp, emin, Float.prec64, Float.emax64 in Hlt. lia. }
    pose proof (digits2_pos_bounds M1) as [Hlo _].
    assert (0 <= E - e1) as Hn by lia.
    assert (1 <= Z.pos M1 / 2 ^ (E - e1)); [|lia].
    apply Z.div_le_lower_bound; [apply Z.pow_pos_nonneg; lia|].
    rewrite Z.mul_1_r.
    transitivity (2 ^ (Z.pos (digits2_pos M1) - 1)); [|exact Hlo].
    apply Z.pow_le_mono_r; lia. }
  destruct (binary_round_aux Float.prec64 Float.emax64 false (Z.pos M1) e1 loc_Exact)
    as [s'|s'| |s' m' e'].
  - destruct Hspec as [_ Hzero].
    destruct (Z.eq_dec E ew) as [Heq|Hne].
    + specialize (Hq Heq). lia.
    + specialize (Hq0 ltac:(lia)). lia.
  - exact Hspec.
  - exact Hspec.
  - destruct Hspec as (Hs & Hb & [[He' Hqm]|He']); subst s' e'.
    + split; [reflexivity|]. split; [exact Hb|].
      destruct (Z.eq_dec E ew) as [Heq|Hne]; [right | left; lia].
      split; [exact Heq|]. specialize (Hq Heq). lia.
    + split; [reflexivity|]. split; [exact Hb|]. left. lia.
Qed.

(** *** The order of the numbers of seconds *)

Lemma leb_finite (m1 : positive) (e1 : Z) (m2 : positive) (e2 : Z) :
  Float.leb (S754_finite false m1 e1) (S754_finite false m2 e2) = true
  <-> e1 < e2 \/ (e1 = e2 /\ (m1 <= m2)%positive).
Proof.
  unfold Float.leb, SFleb, SFcompare.
  change (Pos.compare_cont Eq m1 m2) with (m1 ?= m2)%positive.
  destruct (Z.compare_spec e1 e2); [destruct (Pos.compare_spec m1 m2)| |];
    split; intros H'; try reflexivity; try discriminate; lia.
Qed.

Lemma leb_refl (x : spec_float) : is_seconds x = true -> Float.leb x x = true.
Proof.
  destruct x as [[]|[]| |[] m e]; cbn; try discriminate; try reflexivity.
  intros _. apply leb_finite. right. split; [reflexivity | lia].
Qed.

Lemma leb_trans (x y z : spec_float) :
  is_seconds x = true -> is_seconds y = true -> is_seconds z = true ->
  Float.leb x y = true -> Float.leb y z = true -> Float.leb x z = true.
Proof.
  destruct x as [[]|[]| |[] m1 e1]; cbn [is_seconds negb andb];
    try discriminate; intros _;
    destruct y as [[]|[]| |[] m2 e2]; cbn [is_seconds negb andb];
    try discriminate; intros _;
    destruct z as [[]|[]| |[] m3 e3]; cbn [is_seconds negb andb];
    try discriminate; intros _;
    try (cbn; congruence).
  rewrite !leb_finite. lia.
Qed.

(** [Math.max] of two numbers of seconds is one of them and not below
    either. *)
Lemma max_seconds (x y : spec_float) :
  is_seconds x = true -> is_seconds y = true ->
  is_seconds (Float.max x y) = true
  /\ Float.leb x (Float.max x y) = true
  /\ Float.leb y (Float.max x y) = true.
Proof.
  intros Hx Hy.
  assert (Float.max x y = if SFltb x y then y else x) as ->.
  { destruct x as [[]|[]| |[] m1 e1]; try discriminate;
      destruct y as [[]|[]| |[] m2 e2]; try discriminate; reflexivity. }
  destruct (SFltb x y) eqn:Hlt.
  - split; [exact Hy|]. split; [|apply leb_refl, Hy].
    unfold Float.leb, SFleb. unfold SFltb in Hlt.
    destruct (SFcompare x y) as [[]|]; try discriminate. reflexivity.
  - split; [exact Hx|]. split; [apply leb_refl, Hx|].
    destruct x as [[]|[]| |[] m1 e1]; try discriminate;
      destruct y as [[]|[]| |[] m2 e2]; try discriminate;
      try reflexivity; try (cbn in Hlt; discriminate).
    apply leb_finite. unfold SFltb, SFcompare in Hlt.
    change (Pos.compare_cont Eq m1 m2) with (m1 ?= m2)%positive in Hlt.
    destruct (Z.compare_spec e1 e2); [destruct (Pos.compare_spec m1 m2)| |];
      try discriminate; lia.
Qed.

Lemma SFcompare_refl (x : spec_float) :
  SFcompare x x = None \/ SFcompare x x = Some Eq.
Proof.
  destruct x as [[]|[]| |[] m e]; cbn; auto; right;
    rewrite Z.compare_refl;
    change (Pos.compare_cont Eq m m) with (m ?= m)%positive;
    rewrite Pos.compare_refl; reflexivity.
Qed.

Lemma ltb_irrefl (x : spec_float) : Float.ltb x x = false.
Proof.
  unfold Float.ltb, SFltb. destruct (SFcompare_refl x) as [-> | ->]; reflexivity.
Qed.

Lemma ltb_asym (x y : spec_float) :
  Float.ltb x y = true -> Float.ltb y x = false.
Proof.
  unfold Float.ltb, SFltb.
  destruct x as [[]|[]| |[] m1 e1], y as [[]|[]| |[] m2 e2]; cbn;
    try reflexivity; try discriminate.
  all: change (Pos.compare_cont Eq m1 m2) with (m1 ?= m2)%positive;
    change (Pos.compare_cont Eq m2 m1) with (m2 ?= m1)%positive;
    rewrite (Z.compare_antisym e1 e2), (Pos.compare_antisym m1 m2);
    destruct (e1 ?= e2); cbn; try reflexivity; try discriminate;
    destruct (m1 ?= m2)%positive; cbn; try reflexivity; discriminate.
Qed.

(** For any two numbers, NaN included, [Math.max] is below neither. *)
Lemma max_not_below (x y : spec_float) :
  Float.ltb (Float.max x y) x = false /\ Float.ltb (Float.max x y) y = false.
Proof.
  destruct x as [[]|sx| |sx m1 e1] eqn:Ex, y as [sy|sy| |sy m2 e2] eqn:Ey;
    try (split; reflexivity);
    try (cbn [Float.max]; split; apply ltb_irrefl).
  all: rewrite <- Ex, <- Ey;
    replace (Float.max x y) with (if SFltb x y then y else x)
      by (subst; reflexivity);
    destruct (SFltb x y) eqn:Hlt;
    [split; [apply ltb_asym, Hlt | apply ltb_irrefl]
    |split; [apply ltb_irrefl | exact Hlt]].
Qed.

(** *** Sums and quotients of numbers of seconds *)

Lemma of_Z_seconds (k : Z) : 0 <= k -> is_seconds (Float.of_Z k) = true.
Proof.
  intros Hk. destruct k as [|p|p]; [reflexivity | | lia].
  unfold Float.of_Z, binary_normalize.
  pose proof (binary_round_valid false p 0) as H.
  destruct (binary_round Float.prec64 Float.emax64 false p 0) as [s|s| |s m e];
    cbn [is_seconds]; [subst; reflexivity | subst; reflexivity | contradiction |].
  destruct H as [-> ->]. reflexivity.
Qed.

(** The sum of two numbers of seconds is one, and is not below the first:
    the cursor of the scheduler never moves back by an addition. *)
Lemma add_seconds (w d : spec_float) :
  is_seconds w = true -> is_seconds d = true ->
  is_seconds (Float.add w d) = true /\ Float.leb w (Float.add w d) = true.
Proof.
  intros Hw Hd.
  destruct w as [[]|[]| |[] mw ew]; try discriminate;
    destruct d as [[]|[]| |[] md ed]; try discriminate;
    try (split; [exact Hw || exact Hd | reflexivity]).
  - split; [exact Hw | apply leb_refl, Hw].
  - cbn [is_seconds negb andb] in Hw, Hd.
    unfold Float.add, SFadd. cbn [cond_Zopp].
    destruct (shl_align_spec mw ew (Z.min ew ed)) as (m1 & e1 & E1 & He1 & Hm1 & _).
    destruct (shl_align_spec md ed (Z.min ew ed)) as (m2 & e2 & E2 & _).
    rewrite E1, E2. cbn [fst].
    change (Z.pos m1 + Z.pos m2) with (Z.pos (m1 + m2)). cbn [binary_normalize].
    pose proof (binary_round_ge (m1 + m2) (Z.min ew ed) mw ew Hw ltac:(lia)) as H.
    replace e1 with (Z.min ew ed) in Hm1 by lia.
    specialize (H ltac:(lia)).
    destruct (binary_round Float.prec64 Float.emax64 false (m1 + m2) (Z.min ew ed))
      as [s|s| |s m' e']; try contradiction.
    + subst s. split; reflexivity.
    + destruct H as (-> & Hb & Hge). cbn [is_seconds negb andb].
      split; [exact Hb | apply leb_finite; lia].
Qed.

(** The quotient of a number of seconds by a positive number is a number
    of seconds. *)
Lemma div_seconds (x : spec_float) (my : positive) (ey : Z) :
  is_seconds x = true ->
  is_seconds (Float.div x (S754_finite false my ey)) = true.
Proof.
  intros Hx. destruct x as [[]|[]| |[] mx ex]; try discriminate;
    try reflexivity.
  unfold Float.div, SFdiv, SFdiv_core_binary. cbn [xorb Zdigits2].
  set (d1 := Z.pos (digits2_pos mx)). set (d2 := Z.pos (digits2_pos my)).
  set (x0 := d1 + ex - (d2 + ey)).
  set (e' := Z.min (fexp Float.prec64 Float.emax64 x0) (ex - ey)).
  set (s := ex - ey - e').
  assert (0 <= s) as Hs by (unfold s, e'; lia).
  assert (match s with
          | 0 => Z.pos mx
          | Z.pos _ => Z.shiftl (Z.pos mx) s
          | Z.neg _ => 0
          end = Z.pos mx * 2 ^ s) as ->.
  { destruct s as [|p|p] eqn:Es; [cbn; lia | | lia].
    rewrite Z.shiftl_mul_pow2 by lia. reflexivity. }
  assert (0 < 2 ^ s) as Hps by (apply Z.pow_pos_nonneg; lia).
  pose proof (Z_div_mod (Z.pos mx * 2 ^ s) (Z.pos my) ltac:(lia)) as Hdm.
  destruct (Z.div_eucl (Z.pos mx * 2 ^ s) (Z.pos my)) as [q r].
  destruct Hdm as [Hdiv Hr].
  assert (0 <= q) as Hq by nia.
  pose proof (digits2_pos_bounds mx) as [Hlo1 _]. fold d1 in Hlo1.
  pose proof (digits2_pos_bounds my) as [_ Hhi2]. fold d2 in Hhi2.
  assert (0 < d1 /\ 0 < d2) as [Hd1 Hd2] by (unfold d1, d2; lia).
  assert (x0 <= Zdigits2 q + e') as Hdig.
  { pose proof (Zdigits2_nonneg q) as Hdq.
    destruct (Z_le_gt_dec (d1 + s - d2) 0) as [Hsmall|Hbig];
      [unfold x0, s in *; lia|].
    assert (d1 + s - d2 <= Zdigits2 q); [|unfold x0, s in *; lia].
    assert (2 ^ d2 * 2 ^ (d1 + s - d2 - 1) = 2 ^ (d1 - 1) * 2 ^ s) as Hpow.
    { rewrite <- !Z.pow_add_r by lia. f_equal. lia. }
    assert (0 < 2 ^ (d1 + s - d2 - 1)) as Hpk by (apply Z.pow_pos_nonneg; lia).
    assert (2 ^ (d1 + s - d2 - 1) <= q) as Hqk by nia.
    apply Zdigits2_ge; [lia | exact Hqk]. }
  assert (e' <= fexp Float.prec64 Float.emax64 (Zdigits2 q + e')) as Hpre.
  { transitivity (fexp Float.prec64 Float.emax64 x0);
      [unfold e'; lia | apply fexp_mono, Hdig]. }
  pose proof (binary_round_aux_spec false q e' (new_location (Z.pos my) r) Hq Hpre)
    as Hspec.
  cbv zeta in Hspec.
  destruct (binary_round_aux Float.prec64 Float.emax64 false q e'
              (new_location (Z.pos my) r)) as [s'|s'| |s' m' e''];
    cbn [is_seconds].
  - destruct Hspec as [-> _]. reflexivity.
  - subst s'. reflexivity.
  - contradiction.
  - destruct Hspec as (-> & -> & _). reflexivity.
Qed.

Lemma of_Q_24000 : Float.of_Q (24000 # 1) = Float.of_Z 24000.
Proof. vm_compute. reflexivity. Qed.

(** The duration of a decoded chunk is its number of frames divided by
    24000, a number of seconds. *)
Lemma decoded_duration_seconds (ctx : option AudioContext) (bytes : list Z)
  (b : AudioBuffer) :
  decodeAudioData bytes ctx (24000 # 1) 1 = Ok b ->
  0 <= buffer_length b
  /\ duration b = Float.div (Float.of_Z (buffer_length b)) (Float.of_Z 24000)
  /\ is_seconds (duration b) = true.
Proof.
  intros H. apply decodeAudioData_mono_inv in H as [a [_ ->]].
  unfold duration. cbn [buffer_length sampleRate]. rewrite of_Q_24000.
  split; [lia|]. split; [reflexivity|].
  change (Float.of_Z 24000) with (S754_finite false 6597069766656000 (-38)).
  apply div_seconds, of_Z_seconds. lia.
Qed.

End TimeFacts.

(** ** The recommendation logic *)

Section RelevanceFacts.

Import Relevance.

Context {VideoId : Type} `{EqDecision VideoId}.

Lemma count_matches_lower_bound (tokens : gset string) (l : list string) :
  forall start : Z,
  start <= fold_left
             (fun matches token =>
                if bool_decide (token ∈ tokens) then matches + 1 else matches)
             l start.
Proof.
  induction l as [|t l IH]; intros start; cbn [fold_left]; [lia|].
  destruct (bool_decide (t ∈ tokens)).
  - specialize (IH (start + 1)). lia.
  - apply IH.
Qed.

Lemma calculateRelevance_self (x : Video VideoId) :
  calculateRelevance x x = -1.
Proof.
  unfold calculateRelevance. destruct (decide (id x = id x)); congruence.
Qed.

Lemma calculateRelevance_nonneg (current candidate : Video VideoId) :
  id current <> id candidate -> 0 <= calculateRelevance current candidate.
Proof.
  intros Hne. unfold calculateRelevance.
  destruct (decide (id current = id candidate)); [contradiction|].
  match goal with
  | |- context [fold_left ?f ?l 0] =>
      pose proof (count_matches_lower_bound
                    (list_to_set
                       (tokenize (title current +:+ " " +:+ description current)))
                    l 0) as Hm
  end.
  destruct (bool_decide
              (first_word (title current) = first_word (title candidate))); lia.
Qed.

Lemma recommendations_only_reference (x : Video VideoId)
  (allVideos : list (Video VideoId)) :
  Forall (fun v => id v = id x) allVideos ->
  recommendations x allVideos = mkRecommendations None [].
Proof.
  intros Hall. unfold recommendations.
  assert (List.filter (fun v => negb (bool_decide (id v = id x))) allVideos = [])
    as ->.
  { induction Hall as [|v l Hv _ IH]; cbn [List.filter]; [reflexivity|].
    rewrite (bool_decide_eq_true_2 _ Hv). exact IH. }
  reflexivity.
Qed.

(** C7.  Relevance identity and range: an item scores -1 against itself,
    items with distinct ids score a non-negative integer, and a catalog
    that holds nothing but the reference item (once or several times)
    gives no [upNext] and no [moreVideos]. *)
Theorem relevance_identity_and_range (x : Video VideoId) :
  calculateRelevance x x = -1
  /\ (forall current candidate : Video VideoId,
        id current <> id candidate ->
        0 <= calculateRelevance current candidate)
  /\ recommendations x [x] = mkRecommendations None []
  /\ (forall n : nat,
        recommendations x (replicate n x) = mkRecommendations None []).
Proof.
  split; [apply calculateRelevance_self|].
  split; [intros current candidate; apply calculateRelevance_nonneg|].
  split; [apply recommendations_only_reference; repeat constructor|].
  intros n. apply recommendations_only_reference.
  apply Forall_forall. intros v Hv. apply elem_of_replicate in Hv as [-> _].
  reflexivity.
Qed.

End RelevanceFacts.

Section RelevanceScenario.

Import Relevance.

Lemma relevance_identity_and_range_witness :
  id item1 <> id item2 /\ 0 <= calculateRelevance item1 item2.
Proof.
  assert (id item1 <> id item2) as Hne by discriminate.
  split; [exact Hne|].
  destruct (relevance_identity_and_range item1) as (_ & Hrange & _).
  exact (Hrange item1 item2 Hne).
Defined.

(** C8.  The scenario of the specification: against "Neon Drift", "Neon
    Pulse" scores 5 (the tokens neon, chases and racer, and the first-word
    bonus), which is at least 4 and more than the 0 of "Quiet Garden";
    [upNext] is item 2 and [moreVideos] is item 3 alone. *)
Theorem relevance_scenario :
  calculateRelevance item1 item2 = 5
  /\ 4 <= calculateRelevance item1 item2
  /\ calculateRelevance item1 item3 < calculateRelevance item1 item2
  /\ calculateRelevance item1 item3 = 0
  /\ recommendations item1 [item1; item2; item3]
     = mkRecommendations (Some item2) [item3].
Proof. vm_compute. repeat split; congruence. Qed.

(** C9.  Relevance is not symmetric: the candidate's tokens count with
    their multiplicity, the reference's tokens once.  Against "alpha" the
    item "beta / alpha alpha" scores 2; the other way round the score
    is 1. *)
Theorem relevance_asymmetry_exists :
  exists a b : Video Z,
    id a <> id b
    /\ calculateRelevance a b = 2
    /\ calculateRelevance b a = 1
    /\ calculateRelevance a b <> calculateRelevance b a.
Proof.
  exists crafted_a, crafted_b. vm_compute. repeat split; congruence.
Qed.

End RelevanceScenario.

(** ** The playback scheduler and the message handler *)

Ltac unfold_handler :=
  unfold Session.onmessage, Session.onmessage_begin, Session.onmessage_resume,
    Session.decode_stage, Session.schedule_stage, Session.finished,
    Session.finish, Session.start_decode, Session.interruption,
    Session.schedule, Session.try_catch, Session.deref,
    Session.createBufferSource, Session.call, Session.write, Session.read,
    Session.throw, Session.lift;
  cbv [mbind Session.Eff_bind mret Session.Eff_ret].


Section SchedulerFacts.

Import Js Codec Session.

Lemma starts_app (a b : list Effect) : starts (a ++ b) = starts a ++ starts b.
Proof. unfold starts. apply flat_map_app. Qed.

(** With the output context of its session in place, the scheduling
    statements run to their end. *)
Lemma schedule_live (closure : Closure) (clock : Clock) (b : AudioBuffer)
  (s : State) :
  audioContextRef s = Some (outputNode closure) ->
  let when := Float.max (nextStartTimeRef s) (currentTime clock) in
  exists s' : State,
    schedule closure clock b s = (s', Ok tt)
    /\ audioContextRef s' = audioContextRef s
    /\ nextStartTimeRef s' = Float.add when (duration b)
    /\ sourcesRef s' = Set_add (next_id s) (sourcesRef s)
    /\ trace s'
       = trace s ++ [CreateBufferSource (next_id s);
                     SourceStart (next_id s) when (duration b)].
Proof.
  intros Hctx when. destruct s as [ic co mi ac inp se st vi cur src tr nid].
  cbn [audioContextRef] in Hctx. subst ac.
  unfold_handler. cbn. rewrite Pos.eqb_refl. cbn.
  eexists. split; [reflexivity|]. cbn.
  rewrite <- app_assoc. repeat split; reflexivity.
Qed.

Lemma timeline_snoc (l : list (spec_float * spec_float))
  (when duration : spec_float) :
  forall cursor : spec_float,
  timeline cursor l ->
  Float.leb (timeline_end cursor l) when = true ->
  timeline cursor (l ++ [(when, duration)]).
Proof.
  induction l as [|[w d] l IH]; intros cursor Htl Hle; cbn in *.
  - split; [exact Hle | exact I].
  - destruct Htl as [Hw Htl]. split; [exact Hw | apply IH; assumption].
Qed.

Lemma timeline_end_snoc (l : list (spec_float * spec_float))
  (when duration : spec_float) :
  forall cursor : spec_float,
  timeline_end cursor (l ++ [(when, duration)]) = Float.add when duration.
Proof.
  induction l as [|[w d] l IH]; intros cursor; cbn; [reflexivity | apply IH].
Qed.

Lemma starts_stops (l : list positive) : starts (map SourceStop l) = [].
Proof. induction l as [|x l IH]; [reflexivity | exact IH]. Qed.

(** What one message does to the schedule: nothing, or one start at
    [Math.max(cursor, currentTime)] of the buffer it decodes to, on the
    session of its callbacks. *)
Lemma onmessage_schedule (platform : AudioContext) (closure : Closure)
  (clock : Clock) (message : LiveServerMessage) (s : State) :
  let s' := fst (onmessage platform closure clock message s) in
  let when := Float.max (nextStartTimeRef s) (currentTime clock) in
  (starts (trace s') = starts (trace s)
   /\ (interrupted message = false ->
       nextStartTimeRef s' = nextStartTimeRef s))
  \/ (exists (base64Audio : string) (bytes : list Z) (b : AudioBuffer),
        truthy (inlineData message) = Some base64Audio
        /\ audioContextRef s = Some (outputNode closure)
        /\ decode base64Audio = Ok bytes
        /\ decodeAudioData bytes (Some platform) (24000 # 1) 1 = Ok b
        /\ starts (trace s') = starts (trace s) ++ [(when, duration b)]
        /\ (interrupted message = false ->
            nextStartTimeRef s' = Float.add when (duration b))).
Proof.
  destruct s as [ic co mi ac inp se st vi cur src tr nid].
  destruct message as [audio intr].
  unfold_handler. cbn [inlineData Session.interrupted].
  destruct (truthy audio) as [base64Audio|]; cbn [audioContextRef].
  2:{ left. destruct intr; cbn; [destruct ac; cbn|];
        rewrite ?starts_app, ?starts_stops, ?app_nil_r;
        (split; [reflexivity | discriminate || reflexivity]). }
  destruct ac as [ctx|], (state clock); cbn;
    destruct (decode base64Audio) as [bytes|e] eqn:Hdec; cbn.
  all: try destruct (decodeAudioData bytes _ _ _) as [b|e'] eqn:Hb; cbn.
  all: try destruct (Pos.eqb_spec ctx (outputNode closure)) as [->|Hne]; cbn.
  all: try (left; destruct intr; cbn;
            rewrite ?starts_app, ?starts_stops; cbn; rewrite ?app_nil_r;
            (split; [reflexivity | discriminate || reflexivity])).
  all: right; exists base64Audio, bytes, b;
    (split; [reflexivity|]); (split; [reflexivity|]);
    (split; [exact Hdec|]); (split; [exact Hb|]);
    destruct intr; cbn; rewrite ?starts_app, ?starts_stops; cbn;
    rewrite ?app_nil_r, <- ?app_assoc;
    (split; [reflexivity | discriminate || reflexivity]).
Qed.

(** What the scheduling statements do on any state: nothing to the
    schedule when they raise, one start when they run to their end. *)
Lemma schedule_step (closure : Closure) (clock : Clock) (b : AudioBuffer)
  (s : State) :
  let s' := fst (schedule closure clock b s) in
  let when := Float.max (nextStartTimeRef s) (currentTime clock) in
  (starts (trace s') = starts (trace s)
   /\ nextStartTimeRef s' = nextStartTimeRef s)
  \/ (starts (trace s') = starts (trace s) ++ [(when, duration b)]
      /\ nextStartTimeRef s' = Float.add when (duration b)).
Proof.
  destruct s as [ic co mi ac inp se st vi cur src tr nid].
  unfold_handler. cbn -[duration Float.add Float.max].
  destruct ac as [ctx|]; cbn -[duration Float.add Float.max];
    [|left; split; reflexivity].
  destruct (Pos.eqb ctx (outputNode closure));
    cbn -[duration Float.add Float.max]; [right | left];
    rewrite ?starts_app; cbn -[duration Float.add Float.max];
    rewrite ?app_nil_r, <- ?app_assoc; split; reflexivity.
Qed.

(** On the session of its callbacks, a chunk that decodes is started. *)
Lemma onmessage_starts_chunk (platform : AudioContext) (closure : Closure)
  (clock : Clock) (message : LiveServerMessage) (s : State)
  (base64Audio : string) (bytes : list Z) (b : AudioBuffer) :
  truthy (inlineData message) = Some base64Audio ->
  audioContextRef s = Some (outputNode closure) ->
  decode base64Audio = Ok bytes ->
  decodeAudioData bytes (Some platform) (24000 # 1) 1 = Ok b ->
  starts (trace (fst (onmessage platform closure clock message s)))
  = starts (trace s)
    ++ [(Float.max (nextStartTimeRef s) (currentTime clock), duration b)].
Proof.
  intros Haudio Hctx Hdec Hb.
  destruct s as [ic co mi ac inp se st vi cur src tr nid].
  destruct message as [audio intr].
  cbn [inlineData audioContextRef nextStartTimeRef trace] in *. subst ac.
  unfold_handler. cbn [inlineData Session.interrupted]. rewrite Haudio.
  cbn [audioContextRef].
  destruct (state clock); rewrite Hdec; cbn -[decodeAudioData];
    rewrite Hb; cbn; rewrite Pos.eqb_refl; cbn; destruct intr; cbn;
    rewrite ?starts_app, ?starts_stops; cbn; rewrite ?app_nil_r;
    reflexivity.
Qed.

(** C2, amended.  Scheduler monotonicity between interruptions.  Along
    every run of a session in which no message carries the interrupted
    flag, with buffers of arbitrary durations and arbitrary readings of
    the clock, from a state whose cursor is a number of seconds: the
    [start] calls made form a timeline, each start at or after the cursor
    left by the start before it, which is the sum of that start and that
    chunk's duration as the program computes it (a binary64 sum), and the
    cursor is the end of that timeline; the cursor stays a number of
    seconds and is never below what it was.  For the message handled next,
    at any reading of the clock: [Math.max(cursor, currentTime)] is neither
    before the reading nor before the cursor; the message starts nothing
    and leaves the cursor, or starts one chunk at that time and moves the
    cursor to the sum of that time and the chunk's duration; and on the
    session of its callbacks a chunk that decodes is started. *)
Theorem scheduler_monotone (s0 s : State) :
  is_seconds (nextStartTimeRef s0) = true ->
  uninterrupted s0 s ->
  (exists scheduled : list (spec_float * spec_float),
     starts (trace s) = starts (trace s0) ++ scheduled
     /\ timeline (nextStartTimeRef s0) scheduled
     /\ nextStartTimeRef s = timeline_end (nextStartTimeRef s0) scheduled)
  /\ is_seconds (nextStartTimeRef s) = true
  /\ Float.leb (nextStartTimeRef s0) (nextStartTimeRef s) = true
  /\ (forall (platform : AudioContext) (closure : Closure) (clock : Clock)
             (message : LiveServerMessage),
        is_seconds (currentTime clock) = true ->
        let s' := fst (onmessage platform closure clock message s) in
        let when := Float.max (nextStartTimeRef s) (currentTime clock) in
        Float.leb (currentTime clock) when = true
        /\ Float.leb (nextStartTimeRef s) when = true
        /\ ((starts (trace s') = starts (trace s)
             /\ (interrupted message = false ->
                 nextStartTimeRef s' = nextStartTimeRef s))
            \/ (exists b : AudioBuffer,
                  starts (trace s') = starts (trace s) ++ [(when, duration b)]
                  /\ is_seconds (duration b) = true
                  /\ (interrupted message = false ->
                      nextStartTimeRef s' = Float.add when (duration b))))
        /\ (forall (base64Audio : string) (bytes : list Z) (b : AudioBuffer),
              truthy (inlineData message) = Some base64Audio ->
              audioContextRef s = Some (outputNode closure) ->
              decode base64Audio = Ok bytes ->
              decodeAudioData bytes (Some platform) (24000 # 1) 1 = Ok b ->
              starts (trace s') = starts (trace s) ++ [(when, duration b)])).
Proof.
  intros Hs0 Hrun.
  assert (forall (s1 : State) (platform : AudioContext) (closure : Closure)
                 (clock : Clock) (message : LiveServerMessage),
            is_seconds (nextStartTimeRef s1) = true ->
            is_seconds (currentTime clock) = true ->
            let s' := fst (onmessage platform closure clock message s1) in
            let when := Float.max (nextStartTimeRef s1) (currentTime clock) in
            (starts (trace s') = starts (trace s1)
             /\ (interrupted message = false ->
                 nextStartTimeRef s' = nextStartTimeRef s1))
            \/ (exists b : AudioBuffer,
                  starts (trace s') = starts (trace s1) ++ [(when, duration b)]
                  /\ is_seconds (duration b) = true
                  /\ (interrupted message = false ->
                      nextStartTimeRef s' = Float.add when (duration b))))
    as Hstep.
  { intros s1 platform closure clock message _ _.
    destruct (onmessage_schedule platform closure clock message s1)
      as [Hnone|(base64Audio & bytes & b & _ & _ & _ & Hb & Hst & Hcur)];
      [left; exact Hnone | right].
    exists b. split; [exact Hst|].
    split; [apply (decoded_duration_seconds _ _ _ Hb) | exact Hcur]. }
  assert ((exists scheduled : list (spec_float * spec_float),
             starts (trace s) = starts (trace s0) ++ scheduled
             /\ timeline (nextStartTimeRef s0) scheduled
             /\ nextStartTimeRef s = timeline_end (nextStartTimeRef s0) scheduled)
          /\ is_seconds (nextStartTimeRef s) = true
          /\ Float.leb (nextStartTimeRef s0) (nextStartTimeRef s) = true)
    as Hinv.
  { induction Hrun as [|s1 platform closure clock message _ IH Hflag Hclock
                       |s1 closure clock b _ IH Hclock Hdur
                       |s1 source _ IH].
    - split; [|split; [exact Hs0 | apply leb_refl, Hs0]].
      exists []. rewrite app_nil_r. repeat split.
    - destruct IH as ((scheduled & Hst & Htl & Hend) & Hsec & Hle).
      destruct (max_seconds (nextStartTimeRef s1) (currentTime clock) Hsec Hclock)
        as (Hmax & Hcur_le & _).
      destruct (Hstep s1 platform closure clock message Hsec Hclock)
        as [[Hst' Hcur']|(b & Hst' & Hdur & Hcur')];
        specialize (Hcur' Hflag); rewrite Hcur'.
      + split; [|split; assumption].
        exists scheduled. rewrite Hst'. repeat split; assumption.
      + destruct (add_seconds _ _ Hmax Hdur) as [Hsum Hsum_le].
        split; [|split; [exact Hsum|]].
        * exists (scheduled
                  ++ [(Float.max (nextStartTimeRef s1) (currentTime clock),
                       duration b)]).
          rewrite Hst', Hst, <- app_assoc. split; [reflexivity|].
          split; [|symmetry; apply timeline_end_snoc].
          apply timeline_snoc; [exact Htl | rewrite <- Hend; exact Hcur_le].
        * apply (leb_trans _ (nextStartTimeRef s1)); try assumption.
          apply (leb_trans _ (Float.max (nextStartTimeRef s1) (currentTime clock)));
            assumption.
    - destruct IH as ((scheduled & Hst & Htl & Hend) & Hsec & Hle).
      destruct (max_seconds (nextStartTimeRef s1) (currentTime clock) Hsec Hclock)
        as (Hmax & Hcur_le & _).
      destruct (schedule_step closure clock b s1) as [[Hst' Hcur']|[Hst' Hcur']];
        rewrite Hcur'.
      + split; [|split; assumption].
        exists scheduled. rewrite Hst'. repeat split; assumption.
      + destruct (add_seconds _ _ Hmax Hdur) as [Hsum Hsum_le].
        split; [|split; [exact Hsum|]].
        * exists (scheduled
                  ++ [(Float.max (nextStartTimeRef s1) (currentTime clock),
                       duration b)]).
          rewrite Hst', Hst, <- app_assoc. split; [reflexivity|].
          split; [|symmetry; apply timeline_end_snoc].
          apply timeline_snoc; [exact Htl | rewrite <- Hend; exact Hcur_le].
        * apply (leb_trans _ (nextStartTimeRef s1)); try assumption.
          apply (leb_trans _ (Float.max (nextStartTimeRef s1) (currentTime clock)));
            assumption.
    - exact IH. }
  destruct Hinv as (Htimeline & Hsec & Hle).
  split; [exact Htimeline|]. split; [exact Hsec|]. split; [exact Hle|].
  intros platform closure clock message Hclock s' when.
  destruct (max_seconds (nextStartTimeRef s) (currentTime clock) Hsec Hclock)
    as (_ & Hcur_le & Hclock_le).
  split; [exact Hclock_le|]. split; [exact Hcur_le|].
  split; [exact (Hstep s platform closure clock message Hsec Hclock)|].
  intros base64Audio bytes b. apply onmessage_starts_chunk.
Qed.

Lemma active_session_reached : reach true active_session 0.
Proof.
  assert (reach true (fst (connect_begin run_clock initial)) 1) as H1
    by exact (reach_connect true initial 0 run_clock (reach_initial true)).
  exact (reach_onopen true _ 0 (reach_settled true _ 0 (Granted 1) H1)).
Defined.

Lemma scheduler_monotone_witness :
  let later :=
    fst (onmessage conforming_context example_closure
           (mkClock (Float.of_Z 2) Running)
           (mkMessage (Some example_payload) false)
           (onended 6 playing_session)) in
  is_seconds (nextStartTimeRef active_session) = true
  /\ uninterrupted active_session later
  /\ (exists scheduled : list (spec_float * spec_float),
        starts (trace later) = starts (trace active_session) ++ scheduled
        /\ timeline (nextStartTimeRef active_session) scheduled
        /\ nextStartTimeRef later
           = timeline_end (nextStartTimeRef active_session) scheduled)
  /\ Float.leb (nextStartTimeRef active_session) (nextStartTimeRef later) = true.
Proof.
  intros later.
  assert (is_seconds (nextStartTimeRef active_session) = true) as Hs0
    by reflexivity.
  assert (uninterrupted active_session later) as Hrun.
  { unfold later, playing_session.
    apply uninterrupted_message; [|reflexivity|reflexivity].
    apply uninterrupted_ended.
    apply uninterrupted_message; [|reflexivity|reflexivity].
    apply uninterrupted_start. }
  destruct (scheduler_monotone active_session later Hs0 Hrun)
    as (Htimeline & _ & Hle & _).
  split; [exact Hs0|]. split; [exact Hrun|].
  split; [exact Htimeline | exact Hle].
Defined.

(** C2 as stated fails, in two ways.  The cursor does move back within
    one session, at an interruption: a chunk of 0.000125 seconds is started
    at 0.5; an interruption at 0.50006 sets the cursor to that reading,
    below the 0.500125 it had; the next chunk, at 0.50009, is started at
    0.50009, before the end of the chunk before it.  And without any
    interruption the sum is a rounded one: of two chunks handled at 0.25,
    the second is started at the binary64 sum of 0.25 and the duration,
    which is below the sum of the two as real numbers. *)
Lemma scheduler_monotone_fails :
  (reach true resumed_session 0
   /\ Float.ltb (binary64 1 (-1)) (binary64 8193 (-14)) = true
   /\ Float.ltb (binary64 8193 (-14)) (binary64 16387 (-15)) = true
   /\ (exists first second duration : spec_float,
         starts (trace resumed_session)
         = [(first, duration); (second, duration)]
         /\ Float.ltb second (Float.add first duration) = true
         /\ (real_value second < real_value first + real_value duration)%Q)
   /\ Float.ltb (nextStartTimeRef interrupted_session)
        (nextStartTimeRef playing_session) = true)
  /\ (reach true back_to_back_session 0
      /\ uninterrupted active_session back_to_back_session
      /\ exists first second duration : spec_float,
           starts (trace back_to_back_session)
           = [(first, duration); (second, duration)]
           /\ second = Float.add first duration
           /\ (real_value second < real_value first + real_value duration)%Q).
Proof.
  split.
  - split.
    { unfold resumed_session, interrupted_session, playing_session.
      apply reach_onmessage, reach_onmessage, reach_onmessage.
      exact active_session_reached. }
    split; [reflexivity|]. split; [reflexivity|].
    split; [|vm_compute; reflexivity].
    eexists _, _, _. split; [vm_compute; reflexivity|].
    split; vm_compute; reflexivity.
  - split.
    { unfold back_to_back_session.
      apply reach_onmessage, reach_onmessage. exact active_session_reached. }
    split.
    { unfold back_to_back_session.
      apply uninterrupted_message; [|reflexivity|reflexivity].
      apply uninterrupted_message; [|reflexivity|reflexivity].
      apply uninterrupted_start. }
    eexists _, _, _. split; [vm_compute; reflexivity|].
    split; vm_compute; reflexivity.
Qed.

End SchedulerFacts.

Section HandlerFacts.

Import Js Codec Session.

Lemma Set_add_incl (x : positive) (l : list positive) : incl l (Set_add x l).
Proof.
  unfold Set_add. destruct (Set_has x l); [apply incl_refl|].
  apply incl_appl, incl_refl.
Qed.

Lemma Set_add_In (x : positive) (l : list positive) : In x (Set_add x l).
Proof.
  unfold Set_add, Set_has. destruct (existsb (Pos.eqb x) l) eqn:E.
  - apply existsb_exists in E as [y [Hy Hxy]]. apply Pos.eqb_eq in Hxy.
    subst y. exact Hy.
  - apply in_or_app. right. left. reflexivity.
Qed.

(** The handler has two suspensions at most, and [onmessage] is the
    handler resumed at once at each of them. *)
Lemma onmessage_settles (platform : AudioContext) (closure : Closure)
  (clock : Clock) (message : LiveServerMessage) (s : State) :
  settle platform closure clock message 2
    (onmessage_begin platform clock message s)
  = Some (onmessage platform closure clock message s).
Proof.
  unfold onmessage, onmessage_begin, onmessage_resume, decode_stage, finished.
  destruct (truthy (inlineData message)) as [base64Audio|]; cbn [settle].
  2:{ destruct (finish clock message (mret ()) s). reflexivity. }
  destruct (audioContextRef s) as [ctx|], (state clock); cbn [settle];
    unfold onmessage_resume, decode_stage, finished;
    match goal with
    | |- context [start_decode ?p ?b ?st] =>
        destruct (start_decode p b st) as [s' [promise|e]]
    end; cbn [settle]; unfold onmessage_resume, finished;
    match goal with
    | |- context [let (_, _) := ?m ?st in _] => destruct (m st)
    end; reflexivity.
Qed.

(** The state in which the handler reaches its interruption block: the
    [try] statement has changed neither a ref nor a flag, has stopped no
    source and has removed none from the set. *)
Lemma onmessage_reaches_interruption (platform : AudioContext)
  (closure : Closure) (clock : Clock) (message : LiveServerMessage)
  (s : State) :
  exists (s1 : State) (audio_calls : list Effect),
    onmessage platform closure clock message s
    = interruption clock message s1
    /\ audioContextRef s1 = audioContextRef s
    /\ trace s1 = trace s ++ audio_calls
    /\ incl (sourcesRef s) (sourcesRef s1)
    /\ (forall src, count (is_source_stop src) audio_calls = 0%nat)
    /\ (forall src w d, In (SourceStart src w d) audio_calls ->
                        In src (sourcesRef s1)).
Proof.
  destruct s as [ic co mi ac inp se st vi cur src tr nid].
  destruct message as [audio intr].
  unfold_handler. cbn [inlineData Session.interrupted].
  destruct (truthy audio) as [base64Audio|].
  2:{ cbn. eexists _, []. rewrite app_nil_r.
      repeat split; try reflexivity; try apply incl_refl.
      intros ? ? ? []. }
  cbn [audioContextRef].
  destruct ac as [ctx|], (state clock); cbn;
    destruct (decode base64Audio) as [bytes|e]; cbn.
  all: try destruct (decodeAudioData bytes _ _ _) as [b|e']; cbn.
  all: try destruct (Pos.eqb ctx (outputNode closure)); cbn.
  all: eexists _, _; (split; [reflexivity|]); cbn;
    (split; [reflexivity|]);
    (split; [rewrite <- ?app_assoc; cbn; try reflexivity;
             try (rewrite <- (app_nil_r tr) at 1; reflexivity)|]).
  all: try (split; [first [apply Set_add_incl | apply incl_refl]|]).
  all: try (split; [intros; reflexivity|]).
  all: try (intros src0 w d Hin; cbn in Hin;
            repeat (destruct Hin as [Hin|Hin]; try discriminate);
            try contradiction; inversion Hin; subst; apply Set_add_In).
Qed.

Lemma count_app (p : Effect -> bool) (a b : list Effect) :
  count p (a ++ b) = (count p a + count p b)%nat.
Proof. unfold count. rewrite List.filter_app, length_app. reflexivity. Qed.

Lemma count_map_none {A : Type} (p : Effect -> bool) (f : A -> Effect)
  (l : list A) :
  (forall x, p (f x) = false) -> count p (map f l) = 0%nat.
Proof.
  intros Hp. unfold count. induction l as [|x l IH]; cbn; [reflexivity|].
  rewrite Hp. exact IH.
Qed.

Lemma source_stops_map_In (src : positive) (l : list positive) :
  In src l -> (0 < count (is_source_stop src) (map SourceStop l))%nat.
Proof.
  unfold count. induction l as [|x l IH]; intros Hin; [contradiction|].
  cbn [map List.filter is_source_stop].
  destruct (Pos.eqb_spec src x) as [->|Hne]; cbn [length]; [lia|].
  destruct Hin as [->|Hin]; [contradiction|]. apply IH, Hin.
Qed.

(** The interruption block with the output context in place. *)
Lemma interruption_live (clock : Clock) (message : LiveServerMessage)
  (s : State) (ctx : positive) :
  interrupted message = true ->
  audioContextRef s = Some ctx ->
  exists s' : State,
    interruption clock message s = (s', Ok tt)
    /\ trace s' = trace s ++ map SourceStop (sourcesRef s)
    /\ sourcesRef s' = []
    /\ nextStartTimeRef s' = currentTime clock
    /\ audioContextRef s' = Some ctx.
Proof.
  intros Hi Hctx. destruct s as [ic co mi ac inp se st vi cur src tr nid].
  cbn [audioContextRef] in Hctx. subst ac.
  unfold_handler. rewrite Hi. cbn.
  eexists. repeat split; reflexivity.
Qed.

(** The interruption block after [disconnect]: the sources are stopped
    and the set is cleared, then reading [currentTime] of [null] raises. *)
Lemma interruption_without_context (clock : Clock)
  (message : LiveServerMessage) (s : State) :
  interrupted message = true ->
  audioContextRef s = None ->
  snd (interruption clock message s) = Throw TypeError.
Proof.
  intros Hi Hctx. destruct s as [ic co mi ac inp se st vi cur src tr nid].
  cbn [audioContextRef] in Hctx. subst ac.
  unfold_handler. rewrite Hi. reflexivity.
Qed.

(** C3.  Interruption clears future audio: a message with the
    interrupted flag, handled while the output context is in place, is
    handled without an error; every source of the active-sources set (the
    ones of before and the one the same message may have started) gets
    a [stop()] call, the set is left empty and the cursor is the clock
    reading of the moment; the next chunk scheduled in the session starts
    at the maximum of that reading and its own, hence not before it: the
    start is never less than the reading, and is at least the reading when
    both readings are numbers of seconds. *)
Theorem interruption_clears (platform : AudioContext) (closure : Closure)
  (clock : Clock) (message : LiveServerMessage) (s : State) (ctx : positive) :
  interrupted message = true ->
  audioContextRef s = Some ctx ->
  exists (s' : State) (audio_calls : list Effect) (active : list positive),
    onmessage platform closure clock message s = (s', Ok tt)
    /\ trace s' = trace s ++ audio_calls ++ map SourceStop active
    /\ incl (sourcesRef s) active
    /\ (forall src w d, In (SourceStart src w d) audio_calls -> In src active)
    /\ (forall src, In src active ->
                    (source_stops (trace s) src
                     < source_stops (trace s') src)%nat)
    /\ sourcesRef s' = []
    /\ nextStartTimeRef s' = currentTime clock
    /\ (forall (clock' : Clock) (b : AudioBuffer),
          ctx = outputNode closure ->
          exists s'' : State,
            schedule closure clock' b s' = (s'', Ok tt)
            /\ starts (trace s'')
               = starts (trace s')
                 ++ [(Float.max (currentTime clock) (currentTime clock'),
                      duration b)]
            /\ Float.ltb (Float.max (currentTime clock) (currentTime clock'))
                 (currentTime clock) = false
            /\ (is_seconds (currentTime clock) = true ->
                is_seconds (currentTime clock') = true ->
                Float.leb (currentTime clock)
                  (Float.max (currentTime clock) (currentTime clock'))
                = true)).
Proof.
  intros Hi Hctx.
  destruct (onmessage_reaches_interruption platform closure clock message s)
    as (s1 & audio_calls & Hrun & Hctx1 & Htr1 & Hincl & Hnostop & Hstarted).
  rewrite Hctx in Hctx1.
  destruct (interruption_live clock message s1 ctx Hi Hctx1)
    as (s' & Hint & Htr' & Hsrc' & Hcur' & Hctx').
  exists s', audio_calls, (sourcesRef s1).
  split; [rewrite Hrun; exact Hint|].
  split; [rewrite Htr', Htr1, <- app_assoc; reflexivity|].
  split; [exact Hincl|].
  split; [exact Hstarted|].
  split.
  { intros src Hsrc. unfold source_stops.
    rewrite Htr', Htr1, !count_app, Hnostop.
    pose proof (source_stops_map_In src (sourcesRef s1) Hsrc). lia. }
  split; [exact Hsrc'|].
  split; [exact Hcur'|].
  intros clock' b ->.
  destruct (schedule_live closure clock' b s' Hctx')
    as (s'' & Hsch & _ & _ & _ & Htr'').
  cbv zeta in Htr''. rewrite Hcur' in Htr''.
  exists s''. split; [exact Hsch|].
  split; [rewrite Htr'', starts_app; reflexivity|].
  split; [apply max_not_below|].
  intros Hclock Hclock'. apply (max_seconds _ _ Hclock Hclock').
Qed.

Lemma interruption_clears_witness :
  exists s' : State,
    onmessage conforming_context example_closure
      (mkClock (Float.of_Z 1) Running)
      (mkMessage None true) playing_session = (s', Ok tt)
    /\ sourcesRef s' = []
    /\ nextStartTimeRef s' = Float.of_Z 1
    /\ (source_stops (trace playing_session) 6
        < source_stops (trace s') 6)%nat.
Proof.
  destruct (interruption_clears conforming_context example_closure
              (mkClock (Float.of_Z 1) Running) (mkMessage None true)
              playing_session 1)
    as (s' & calls & active & Hrun & _ & Hincl & _ & Hstop & Hsrc & Hcur & _).
  - reflexivity.
  - vm_compute. reflexivity.
  - exists s'. split; [exact Hrun|]. split; [exact Hsrc|].
    split; [exact Hcur|]. apply Hstop, Hincl. vm_compute. left. reflexivity.
Defined.

(** C4.  What the code does where cancellation safety is claimed: after
    [disconnect()] a message with the interrupted flag, whether it
    arrives late or its handler resumes late from either suspension, is
    not dropped without an error; the handler reads [currentTime] of the
    cleared context ref and its promise is rejected with a TypeError. *)
Theorem late_interruption_raises (platform : AudioContext) (closure : Closure)
  (clock : Clock) (audio : option string) (s : State) :
  snd (onmessage platform closure clock (mkMessage audio true) (disconnect s))
  = Throw TypeError
  /\ (forall (a : Awaiting) (resumed : Result unit),
        exists s' : State,
          settle platform closure clock (mkMessage audio true) 1
            (onmessage_resume platform closure clock (mkMessage audio true)
               a resumed (disconnect s))
          = Some (s', Throw TypeError)).
Proof.
  split.
  - destruct (onmessage_reaches_interruption platform closure clock
                (mkMessage audio true) (disconnect s))
      as (s1 & calls & Hrun & Hctx1 & _).
    rewrite Hrun. apply interruption_without_context; [reflexivity|].
    rewrite Hctx1. reflexivity.
  - intros a resumed. unfold_handler.
    destruct a as [base64Audio|promise].
    + destruct resumed as [[]|e]; cbn.
      2:{ eexists. reflexivity. }
      destruct (decode base64Audio) as [bytes|e]; cbn.
      2:{ eexists. reflexivity. }
      unfold_handler. cbn.
      destruct (decodeAudioData bytes None (24000 # 1) 1) as [b|e]; cbn;
        eexists; reflexivity.
    + destruct promise as [b|e]; cbn; eexists; reflexivity.
Qed.

(** Without the interruption flag a late message is dropped: decoding
    or scheduling raises inside the [try], nothing is started and the
    handler's promise is fulfilled. *)
Lemma late_audio_is_dropped (platform : AudioContext) (closure : Closure)
  (clock : Clock) (audio : option string) (s : State) :
  exists s' : State,
    onmessage platform closure clock (mkMessage audio false) (disconnect s)
    = (s', Ok tt)
    /\ starts (trace s') = starts (trace (disconnect s))
    /\ sourcesRef s' = []
    /\ audioContextRef s' = None
    /\ nextStartTimeRef s' = nextStartTimeRef s.
Proof.
  unfold_handler. cbn.
  destruct (truthy audio) as [base64Audio|]; cbn.
  2:{ eexists. repeat split; reflexivity. }
  destruct (decode base64Audio) as [bytes|e]; cbn.
  2:{ eexists. split; [reflexivity|]. cbn. rewrite starts_app. cbn.
      rewrite app_nil_r. repeat split; reflexivity. }
  destruct (decodeAudioData bytes None (24000 # 1) 1) as [b|e]; cbn.
  all: eexists; (split; [reflexivity|]); cbn; rewrite starts_app; cbn;
    rewrite app_nil_r; repeat split; reflexivity.
Qed.

End HandlerFacts.

(** ** Teardown *)

(** Case analysis on [In e tr] for a trace [tr] that is a literal list:
    by evaluation, or by simplification when the trace has variables. *)
Ltac in_cases H :=
  vm_compute in H;
  repeat (destruct H as [H|H]; [try discriminate|]); try contradiction.


Section TeardownFacts.

Import Js Codec Session.

Lemma disconnect_trace (s : State) :
  trace (disconnect s) = trace s ++ teardown_calls s.
Proof. reflexivity. Qed.

Lemma disconnect_idle (s : State) : idle (disconnect s).
Proof. unfold idle. repeat split; reflexivity. Qed.

Lemma disconnect_of_idle (s : State) : idle s -> disconnect s = s.
Proof.
  destruct s as [ic co mi ac inp se st vi cur src tr nid].
  unfold idle. cbn. intros (-> & -> & -> & -> & -> & -> & -> & -> & ->).
  unfold disconnect. cbn. rewrite app_nil_r. reflexivity.
Qed.

Lemma disconnect_idempotent (s : State) :
  disconnect (disconnect s) = disconnect s.
Proof. apply disconnect_of_idle, disconnect_idle. Qed.

Lemma count_map_notin (p : positive -> Effect -> bool) (f : positive -> Effect)
  (x : positive) (l : list positive) :
  (forall y, p x (f y) = Pos.eqb x y) ->
  ~ In x l -> count (p x) (map f l) = 0%nat.
Proof.
  intros Hp. unfold count. induction l as [|y l IH]; intros Hx; [reflexivity|].
  cbn [map List.filter]. rewrite Hp.
  destruct (Pos.eqb_spec x y) as [->|Hne]; [exfalso; apply Hx; left; reflexivity|].
  apply IH. intros Hin. apply Hx. right. exact Hin.
Qed.

Lemma count_map_nodup (p : positive -> Effect -> bool) (f : positive -> Effect)
  (x : positive) (l : list positive) :
  (forall y, p x (f y) = Pos.eqb x y) ->
  List.NoDup l -> In x l -> count (p x) (map f l) = 1%nat.
Proof.
  intros Hp Hnd. induction Hnd as [|y l Hy _ IH]; intros Hin; [contradiction|].
  change (map f (y :: l)) with ([f y] ++ map f l). rewrite count_app.
  unfold count at 1. cbn [List.filter]. rewrite Hp.
  destruct (Pos.eqb_spec x y) as [->|Hne].
  - rewrite (count_map_notin p f y l Hp Hy). reflexivity.
  - destruct Hin as [->|Hin]; [contradiction|]. rewrite (IH Hin). reflexivity.
Qed.

(** The teardown calls for an established session, counted. *)
Lemma teardown_counts (s : State) (out inp timer : positive)
  (tracks : list positive) :
  established s out inp timer tracks ->
  count (is_close out) (teardown_calls s) = 1%nat
  /\ count (is_close inp) (teardown_calls s) = 1%nat
  /\ count (is_clear timer) (teardown_calls s) = 1%nat
  /\ (forall t, In t tracks ->
                count (is_track_stop t) (teardown_calls s) = 1%nat)
  /\ (forall src, In src (sourcesRef s) ->
                  count (is_source_stop src) (teardown_calls s) = 1%nat).
Proof.
  intros E. unfold teardown_calls.
  rewrite (est_out _ _ _ _ _ E), (est_inp _ _ _ _ _ E),
    (est_stream _ _ _ _ _ E), (est_timer _ _ _ _ _ E).
  pose proof (est_distinct _ _ _ _ _ E) as Hne.
  assert (Pos.eqb out inp = false) as Hoi by (apply Pos.eqb_neq; exact Hne).
  assert (Pos.eqb inp out = false) as Hio
    by (apply Pos.eqb_neq; intros Heq; apply Hne; symmetry; exact Heq).
  repeat split; intros; rewrite !count_app.
  - rewrite (count_map_none _ SourceStop), (count_map_none _ TrackStop)
      by reflexivity.
    unfold count. cbn. rewrite Pos.eqb_refl, Hoi. reflexivity.
  - rewrite (count_map_none _ SourceStop), (count_map_none _ TrackStop)
      by reflexivity.
    unfold count. cbn. rewrite Pos.eqb_refl, Hio. reflexivity.
  - rewrite (count_map_none _ SourceStop), (count_map_none _ TrackStop)
      by reflexivity.
    unfold count. cbn. rewrite Pos.eqb_refl. reflexivity.
  - rewrite (count_map_none _ SourceStop) by reflexivity.
    rewrite (count_map_nodup is_track_stop TrackStop t tracks);
      [reflexivity | reflexivity | exact (est_tracks_nodup _ _ _ _ _ E)
      | assumption].
  - rewrite (count_map_none _ TrackStop) by reflexivity.
    rewrite (count_map_nodup is_source_stop SourceStop src (sourcesRef s));
      [reflexivity | reflexivity | exact (est_sources_nodup _ _ _ _ _ E)
      | assumption].
Qed.

(** Teardown acquires nothing. *)
Lemma teardown_calls_acquire_nothing (s : State) (e : Effect) :
  In e (teardown_calls s) ->
  match e with
  | SetInterval _ | NewAudioContext _ _ | GetUserMedia _ => False
  | _ => True
  end.
Proof.
  unfold teardown_calls. rewrite !in_app_iff, !in_map_iff.
  intros [H|[H|[H|[H|H]]]].
  - destruct (videoIntervalRef s); [destruct H as [<-|[]]; exact I | destruct H].
  - destruct H as [x [<- _]]. exact I.
  - destruct (audioContextRef s); [destruct H as [<-|[]]; exact I | destruct H].
  - destruct (inputContextRef s); [destruct H as [<-|[]]; exact I | destruct H].
  - destruct (streamRef s); [|destruct H]. apply in_map_iff in H.
    destruct H as [x [<- _]]. exact I.
Qed.

(** C5.  Disconnect idempotence and teardown completeness: [disconnect]
    is defined on every state and leaves every flag and ref cleared; a
    second call, like a call on an idle state, changes nothing and makes
    no platform call; and on a fully established session it closes both
    contexts, clears the timer and stops every track and every active
    source exactly once each, after which no timer, no context and no
    track is held. *)
Theorem disconnect_idempotent_and_complete :
  (forall s : State, disconnect (disconnect s) = disconnect s)
  /\ (forall s : State, idle (disconnect s))
  /\ (forall s : State, idle s -> disconnect s = s)
  /\ (forall (s : State) (out inp timer : positive) (tracks : list positive),
        established s out inp timer tracks ->
        let tr := trace (disconnect s) in
        let tr2 := trace (disconnect (disconnect s)) in
        closes tr out = 1%nat /\ closes tr inp = 1%nat
        /\ clears tr timer = 1%nat
        /\ Forall (fun t => track_stops tr t = 1%nat) tracks
        /\ Forall (fun src => source_stops tr src = 1%nat) (sourcesRef s)
        /\ (forall t, ~ timer_live tr t)
        /\ (forall rate c, ~ context_open tr rate c)
        /\ (forall t, ~ track_live tr t)
        /\ tr2 = tr).
Proof.
  split; [exact disconnect_idempotent|].
  split; [exact disconnect_idle|].
  split; [exact disconnect_of_idle|].
  intros s out inp timer tracks E tr tr2.
  destruct (teardown_counts s out inp timer tracks E)
    as (Hout & Hinp & Htimer & Htracks & Hsources).
  subst tr tr2. rewrite disconnect_idempotent, disconnect_trace.
  destruct (est_out_open _ _ _ _ _ E) as [_ Hout0].
  destruct (est_inp_open _ _ _ _ _ E) as [_ Hinp0].
  destruct (est_timer_live _ _ _ _ _ E) as [_ Htimer0].
  assert (closes (trace s ++ teardown_calls s) out = 1%nat) as Cout
    by (unfold closes in *; rewrite count_app, Hout0, Hout; reflexivity).
  assert (closes (trace s ++ teardown_calls s) inp = 1%nat) as Cinp
    by (unfold closes in *; rewrite count_app, Hinp0, Hinp; reflexivity).
  assert (clears (trace s ++ teardown_calls s) timer = 1%nat) as Ctimer
    by (unfold clears in *; rewrite count_app, Htimer0, Htimer; reflexivity).
  assert (forall t, In t tracks ->
            track_stops (trace s ++ teardown_calls s) t = 1%nat) as Ctracks.
  { intros t Ht. pose proof (est_tracks_live _ _ _ _ _ E) as Hl.
    rewrite Forall_forall in Hl.
    destruct (Hl t (proj2 (list_elem_of_In _ _) Ht)) as [_ H0].
    unfold track_stops in *. rewrite count_app, H0, (Htracks t Ht).
    reflexivity. }
  repeat split; try assumption.
  - apply Forall_forall. intros t Ht. apply Ctracks, list_elem_of_In, Ht.
  - apply Forall_forall. intros src Hsrc.
    apply list_elem_of_In in Hsrc.
    pose proof (est_sources_playing _ _ _ _ _ E) as Hp.
    rewrite Forall_forall in Hp.
    unfold source_stops in *.
    rewrite count_app, (Hp src (proj2 (list_elem_of_In _ _) Hsrc)),
      (Hsources src Hsrc). reflexivity.
  - intros t [Hin H0]. apply in_app_iff in Hin as [Hin|Hin].
    2:{ exact (teardown_calls_acquire_nothing s _ Hin). }
    unfold clears in H0. rewrite count_app in H0.
    assert (timer_live (trace s) t) as Hl
      by (split; [exact Hin | unfold clears; lia]).
    apply (est_only_timer _ _ _ _ _ E) in Hl. subst t.
    unfold clears in Ctimer. rewrite count_app in Ctimer. lia.
  - intros rate c [Hin H0]. apply in_app_iff in Hin as [Hin|Hin].
    2:{ exact (teardown_calls_acquire_nothing s _ Hin). }
    unfold closes in H0. rewrite count_app in H0.
    assert (context_open (trace s) rate c) as Hl
      by (split; [exact Hin | unfold closes; lia]).
    apply (est_only_contexts _ _ _ _ _ E) in Hl.
    unfold closes in Cout, Cinp. rewrite count_app in Cout, Cinp.
    destruct Hl as [->| ->]; lia.
  - intros t [[trs [Hin Ht]] H0]. apply in_app_iff in Hin as [Hin|Hin].
    2:{ exact (teardown_calls_acquire_nothing s _ Hin). }
    unfold track_stops in H0. rewrite count_app in H0.
    assert (track_live (trace s) t) as Hl
      by (split; [exists trs; split; assumption | unfold track_stops; lia]).
    apply (est_only_tracks _ _ _ _ _ E) in Hl.
    pose proof (Ctracks t Hl) as C. unfold track_stops in C.
    rewrite count_app in C. lia.
Qed.




Lemma playing_session_established : established playing_session 1 3 5 [2%positive].
Proof.
  constructor.
  - reflexivity.
  - vm_compute. reflexivity.
  - vm_compute. reflexivity.
  - vm_compute. reflexivity.
  - vm_compute. reflexivity.
  - vm_compute. eexists. reflexivity.
  - discriminate.
  - split; [vm_compute; tauto | vm_compute; reflexivity].
  - split; [vm_compute; tauto | vm_compute; reflexivity].
  - split; [vm_compute; tauto | vm_compute; reflexivity].
  - apply Forall_cons_2; [|constructor].
    split; [|vm_compute; reflexivity].
    exists [2%positive]. split; [vm_compute; tauto | left; reflexivity].
  - repeat constructor. intros [].
  - vm_compute. repeat constructor. intros [].
  - vm_compute. repeat constructor.
  - intros t [H _]. in_cases H. congruence.
  - intros rate c [H _]. in_cases H.
    + left. congruence.
    + right. congruence.
  - intros t [[trs [H Ht]] _]. in_cases H. injection H as <-. exact Ht.
Defined.

Lemma disconnect_idempotent_and_complete_witness :
  established playing_session 1 3 5 [2%positive]
  /\ closes (trace (disconnect playing_session)) 1 = 1%nat
  /\ closes (trace (disconnect playing_session)) 3 = 1%nat
  /\ clears (trace (disconnect playing_session)) 5 = 1%nat
  /\ track_stops (trace (disconnect playing_session)) 2 = 1%nat
  /\ source_stops (trace (disconnect playing_session)) 6 = 1%nat
  /\ trace (disconnect (disconnect playing_session))
     = trace (disconnect playing_session).
Proof.
  pose proof playing_session_established as E.
  destruct disconnect_idempotent_and_complete as (_ & _ & _ & H).
  destruct (H playing_session 1%positive 3%positive 5%positive [2%positive] E)
    as (H1 & H2 & H3 & H4 & H5 & _ & _ & _ & H6).
  assert (sourcesRef playing_session = [6%positive]) as Hsources
    by (vm_compute; reflexivity).
  rewrite Hsources in H5.
  split; [exact E|].
  split; [exact H1|]. split; [exact H2|]. split; [exact H3|].
  split; [exact (Forall_inv H4)|].
  split; [exact (Forall_inv H5) | exact H6].
Defined.

End TeardownFacts.

(** ** Runs of the component *)

Section RunFacts.

Import Js Codec Session.

Lemma count_app_zero (p : Effect -> bool) (a b : list Effect) :
  count p (a ++ b) = 0%nat -> count p a = 0%nat /\ count p b = 0%nat.
Proof. rewrite count_app. lia. Qed.

Lemma timer_live_app (tr es : list Effect) (t : positive) :
  timer_live (tr ++ es) t ->
  clears es t = 0%nat /\ (timer_live tr t \/ In (SetInterval t) es).
Proof.
  intros [Hin H0]. apply count_app_zero in H0 as [H1 H2].
  split; [exact H2|]. apply in_app_iff in Hin as [Hin|Hin]; [left|right; exact Hin].
  split; assumption.
Qed.

Lemma context_open_app (tr es : list Effect) (rate : Z) (c : positive) :
  context_open (tr ++ es) rate c ->
  closes es c = 0%nat
  /\ (context_open tr rate c \/ In (NewAudioContext c rate) es).
Proof.
  intros [Hin H0]. apply count_app_zero in H0 as [H1 H2].
  split; [exact H2|]. apply in_app_iff in Hin as [Hin|Hin]; [left|right; exact Hin].
  split; assumption.
Qed.

Lemma track_live_app (tr es : list Effect) (t : positive) :
  track_live (tr ++ es) t ->
  track_stops es t = 0%nat
  /\ (track_live tr t
      \/ exists tracks, In (GetUserMedia tracks) es /\ In t tracks).
Proof.
  intros [[tracks [Hin Ht]] H0]. apply count_app_zero in H0 as [H1 H2].
  split; [exact H2|]. apply in_app_iff in Hin as [Hin|Hin].
  - left. split; [exists tracks; split; assumption | exact H1].
  - right. exists tracks. split; assumption.
Qed.

(** The handler touches no ref and no flag, and makes playback calls
    only. *)
Lemma onmessage_frame (platform : AudioContext) (closure : Closure)
  (clock : Clock) (message : LiveServerMessage) (s : State) :
  let s' := fst (onmessage platform closure clock message s) in
  isConnecting s' = isConnecting s /\ connected s' = connected s
  /\ audioContextRef s' = audioContextRef s
  /\ inputContextRef s' = inputContextRef s
  /\ streamRef s' = streamRef s
  /\ videoIntervalRef s' = videoIntervalRef s
  /\ exists es, trace s' = trace s ++ es
                /\ Forall (fun e => playback_only e = true) es.
Proof.
  destruct s as [ic co mi ac inp se st vi cur src tr nid].
  destruct message as [audio intr].
  unfold_handler. cbn [inlineData Session.interrupted].
  assert (forall l : list positive,
            Forall (fun e => playback_only e = true) (map SourceStop l))
    as Hstops.
  { intros l. apply Forall_forall. intros e He.
    apply list_elem_of_In, in_map_iff in He as [x [<- _]]. reflexivity. }
  destruct (truthy audio) as [base64Audio|]; cbn [audioContextRef].
  2:{ destruct intr; cbn.
      - destruct ac; cbn; repeat split; eexists; split;
          [reflexivity | apply Hstops | reflexivity | apply Hstops].
      - repeat split. exists []. rewrite app_nil_r. split; constructor. }
  destruct ac as [ctx|], (state clock); cbn;
    destruct (decode base64Audio) as [bytes|e]; cbn.
  all: try destruct (decodeAudioData bytes _ _ _) as [b|e']; cbn.
  all: try destruct (Pos.eqb ctx (outputNode closure)); cbn.
  all: destruct intr; cbn.
  all: repeat split.
  all: rewrite <- ?app_assoc; eexists; (split; [reflexivity|]).
  all: cbn; repeat (apply Forall_cons_2; [reflexivity|]);
    first [apply Hstops | apply Forall_app; split;
           [repeat (apply Forall_cons_2; [reflexivity|]); constructor
           | apply Hstops] | constructor | idtac].
Qed.

Lemma playback_only_frame (tr es : list Effect) :
  Forall (fun e => playback_only e = true) es ->
  (forall t, timer_live (tr ++ es) t -> timer_live tr t)
  /\ (forall rate c, context_open (tr ++ es) rate c -> context_open tr rate c)
  /\ (forall t, track_live (tr ++ es) t -> track_live tr t).
Proof.
  intros Hes. rewrite Forall_forall in Hes.
  assert (forall e, In e es -> playback_only e = true) as Hp
    by (intros e He; apply Hes, list_elem_of_In, He).
  repeat split.
  - apply timer_live_app in H as [_ [H|H]]; [apply H|].
    apply Hp in H. discriminate.
  - apply timer_live_app in H as [_ [H|H]]; [apply H|].
    apply Hp in H. discriminate.
  - apply context_open_app in H as [_ [H|H]]; [apply H|].
    apply Hp in H. discriminate.
  - apply context_open_app in H as [_ [H|H]]; [apply H|].
    apply Hp in H. discriminate.
  - apply track_live_app in H as [_ [H|[trs [H _]]]]; [apply H|].
    apply Hp in H. discriminate.
  - apply track_live_app in H as [_ [H|[trs [H _]]]]; [apply H|].
    apply Hp in H. discriminate.
Qed.

Lemma refs_hold_frame (s s' : State) (es : list Effect) :
  refs_hold s ->
  audioContextRef s' = audioContextRef s ->
  inputContextRef s' = inputContextRef s ->
  streamRef s' = streamRef s ->
  videoIntervalRef s' = videoIntervalRef s ->
  trace s' = trace s ++ es ->
  Forall (fun e => playback_only e = true) es ->
  refs_hold s'.
Proof.
  intros [Ht Ho Hi Htr Hs] Ea Ei Es Ev Etr Hes.
  destruct (playback_only_frame (trace s) es Hes) as (Ft & Fc & Fk).
  constructor; rewrite ?Ea, ?Ei, ?Es, ?Ev, ?Etr.
  - intros t H. apply Ht, Ft, H.
  - intros c H. apply Ho, Fc, H.
  - intros c H. apply Hi, Fc, H.
  - intros t H. apply Htr, Fk, H.
  - intros tracks H. apply in_or_app. left. apply Hs, H.
Qed.

Lemma session_inv_frame (s s' : State) (p : nat) (es : list Effect) :
  session_inv s p ->
  isConnecting s' = isConnecting s -> connected s' = connected s ->
  audioContextRef s' = audioContextRef s ->
  inputContextRef s' = inputContextRef s ->
  streamRef s' = streamRef s ->
  videoIntervalRef s' = videoIntervalRef s ->
  trace s' = trace s ++ es ->
  Forall (fun e => playback_only e = true) es ->
  session_inv s' p.
Proof.
  intros [Hp Hf Hr Hg Hh] Ec Eo Ea Ei Es Ev Etr Hes.
  constructor; rewrite ?Ec, ?Eo, ?Ea, ?Ei, ?Es, ?Ev; try assumption.
  eapply refs_hold_frame; eassumption.
Qed.

(** After teardown nothing is held. *)
Lemma teardown_releases (s : State) :
  refs_hold s ->
  (forall t, ~ timer_live (trace s ++ teardown_calls s) t)
  /\ (forall c, ~ context_open (trace s ++ teardown_calls s) 24000 c)
  /\ (forall c, ~ context_open (trace s ++ teardown_calls s) 16000 c)
  /\ (forall t, ~ track_live (trace s ++ teardown_calls s) t).
Proof.
  intros [Ht Ho Hi Htr Hs].
  repeat split; intros x H.
  - apply timer_live_app in H as [H0 [H|H]].
    2:{ exact (teardown_calls_acquire_nothing s _ H). }
    apply Ht in H. unfold clears, teardown_calls in H0. rewrite H in H0.
    rewrite !count_app in H0. unfold count at 1 in H0. cbn in H0.
    rewrite Pos.eqb_refl in H0. discriminate.
  - apply context_open_app in H as [H0 [H|H]].
    2:{ exact (teardown_calls_acquire_nothing s _ H). }
    apply Ho in H. unfold closes, teardown_calls in H0. rewrite H in H0.
    rewrite !count_app in H0. unfold count at 3 in H0. cbn in H0.
    rewrite Pos.eqb_refl in H0. cbn in H0. lia.
  - apply context_open_app in H as [H0 [H|H]].
    2:{ exact (teardown_calls_acquire_nothing s _ H). }
    apply Hi in H. unfold closes, teardown_calls in H0. rewrite H in H0.
    rewrite !count_app in H0. unfold count at 4 in H0. cbn in H0.
    rewrite Pos.eqb_refl in H0. cbn in H0. lia.
  - apply track_live_app in H as [H0 [H|[trs [H _]]]].
    2:{ exact (teardown_calls_acquire_nothing s _ H). }
    apply Htr in H as [tracks [H Hin]].
    unfold track_stops, teardown_calls in H0. rewrite H in H0.
    rewrite !count_app in H0.
    assert (0 < count (is_track_stop x) (map TrackStop tracks))%nat; [|lia].
    clear -Hin. unfold count. induction tracks as [|y l IH]; [contradiction|].
    cbn [map List.filter is_track_stop].
    destruct (Pos.eqb_spec x y) as [->|Hne]; cbn [length]; [lia|].
    destruct Hin as [->|Hin]; [contradiction|]. apply IH, Hin.
Qed.

Lemma disconnect_inv (s : State) : refs_hold s -> session_inv (disconnect s) 0.
Proof.
  intros Hh. destruct (teardown_releases s Hh) as (Rt & Ro & Ri & Rk).
  constructor; try (cbn; intros; try discriminate; auto; lia).
  constructor; rewrite ?disconnect_trace; cbn [videoIntervalRef
    audioContextRef inputContextRef streamRef disconnect].
  - intros t H. destruct (Rt t H).
  - intros c H. destruct (Ro c H).
  - intros c H. destruct (Ri c H).
  - intros t H. destruct (Rk t H).
  - intros tracks H. discriminate.
Qed.

Lemma denied_refs_hold (s : State) :
  refs_hold s -> refs_hold (set_isConnecting false (emit [ConsoleError] s)).
Proof.
  intros Hh. apply (refs_hold_frame s _ [ConsoleError] Hh); try reflexivity.
  repeat constructor.
Qed.

Lemma onerror_refs_hold (s : State) :
  refs_hold s -> refs_hold (emit [ConsoleError] s).
Proof.
  intros Hh. apply (refs_hold_frame s _ [ConsoleError] Hh); try reflexivity.
  repeat constructor.
Qed.

Lemma connect_begin_inv (clock : Clock) (s : State) (p : nat) :
  session_inv s p ->
  session_inv (fst (connect_begin clock s))
    (match snd (connect_begin clock s) with Some _ => S p | None => p end).
Proof.
  intros Hinv. unfold connect_begin.
  destruct (connected s || isConnecting s) eqn:Hflag; [exact Hinv|].
  apply orb_false_elim in Hflag as [Hco Hic].
  destruct Hinv as [Hp Hf Hr Hg [Ht Ho Hi Htr Hs]].
  assert (p = 0%nat) as ->.
  { destruct p as [|[|p]]; [reflexivity| |lia].
    destruct (Hf eq_refl); congruence. }
  destruct (Hg Hic Hco) as (Ea & Ei & Es & Ev).
  cbn [fst snd]. constructor; cbn.
  - lia.
  - intros _. left. reflexivity.
  - intros _. repeat split; assumption.
  - discriminate.
  - constructor; cbn.
    + intros t H. apply timer_live_app in H as [_ [H|H]].
      * apply Ht in H. congruence.
      * destruct H as [H|[]]. discriminate.
    + intros c H. apply context_open_app in H as [_ [H|H]].
      * apply Ho in H. congruence.
      * destruct H as [H|[]]. congruence.
    + intros c H. apply context_open_app in H as [_ [H|H]].
      * apply Hi in H. congruence.
      * destruct H as [H|[]]. discriminate.
    + intros t H. apply track_live_app in H as [_ [H|[trs [H _]]]].
      * apply Htr in H as [tracks [H _]]. congruence.
      * destruct H as [H|[]]. discriminate.
    + intros tracks H. congruence.
Qed.

Lemma connect_resume_inv (settled : MicrophoneRequest) (s : State) (p : nat) :
  session_inv s (S p) -> session_inv (connect_resume settled s) p.
Proof.
  intros [Hp Hf Hr Hg Hh].
  assert (p = 0%nat) as -> by lia.
  destruct settled as [n|].
  2:{ cbn [connect_resume]. apply disconnect_inv, denied_refs_hold, Hh. }
  destruct (Hr eq_refl) as (Ei & Es & Ev).
  destruct Hh as [Ht Ho Hi Htr Hs].
  cbn [connect_resume]. constructor; cbn.
  - lia.
  - discriminate.
  - discriminate.
  - intros Hic Hco. destruct (Hf eq_refl); congruence.
  - constructor; cbn.
    + intros t H. apply timer_live_app in H as [_ [H|H]].
      * apply Ht in H. congruence.
      * cbn in H. repeat (destruct H as [H|H]; try discriminate).
        -- congruence.
        -- destruct H.
    + intros c H. apply context_open_app in H as [_ [H|H]].
      * apply Ho, H.
      * cbn in H. repeat (destruct H as [H|H]; try discriminate).
        destruct H.
    + intros c H. apply context_open_app in H as [_ [H|H]].
      * apply Hi in H. congruence.
      * cbn in H. repeat (destruct H as [H|H]; try discriminate).
        -- congruence.
        -- destruct H.
    + intros t H. apply track_live_app in H as [_ [H|[trs [H Hin]]]].
      * apply Htr in H as [tracks [H _]]. congruence.
      * cbn in H. repeat (destruct H as [H|H]; try discriminate).
        -- injection H as <-. eexists. split; [reflexivity | exact Hin].
        -- destruct H.
    + intros tracks H. injection H as <-. apply in_or_app. right. left.
      reflexivity.
Qed.

Lemma serial_run_inv (s : State) (p : nat) : reach true s p -> session_inv s p.
Proof.
  induction 1 as [ | s p clock _ IH | s p settled _ IH | s p _ IH Hq
                 | s p _ IH Hq | s p _ IH Hq | s p _ IH
                 | s p platform closure clock message _ IH
                 | s p source _ IH ].
  - constructor; cbn; try (intros; try discriminate; auto; lia).
    constructor; cbn.
    + intros t [[] _].
    + intros c [[] _].
    + intros c [[] _].
    + intros t [[trs [[] _]] _].
    + discriminate.
  - apply connect_begin_inv, IH.
  - apply connect_resume_inv, IH.
  - rewrite (Hq eq_refl). apply disconnect_inv, IH.
  - rewrite (Hq eq_refl). apply disconnect_inv, IH.
  - rewrite (Hq eq_refl). apply disconnect_inv, onerror_refs_hold, IH.
  - destruct IH as [Hp Hf Hr Hg Hh]. constructor; cbn; try assumption.
    + intros _. right. reflexivity.
    + discriminate.
    + apply (refs_hold_frame s _ [] Hh); try reflexivity.
      * cbn. rewrite app_nil_r. reflexivity.
      * constructor.
  - destruct (onmessage_frame platform closure clock message s)
      as (Ec & Eo & Ea & Ei & Es & Ev & es & Etr & Hes).
    eapply session_inv_frame; eassumption.
  - apply (session_inv_frame s _ p [] IH); try reflexivity.
    + cbn. rewrite app_nil_r. reflexivity.
    + constructor.
Qed.

Lemma session_inv_single_handle (s : State) (p : nat) :
  session_inv s p -> single_handle s.
Proof.
  intros [_ _ _ _ [Ht Ho Hi Htr Hs]]. repeat split.
  - intros t1 t2 H1 H2. apply Ht in H1, H2. congruence.
  - intros c1 c2 H1 H2. apply Ho in H1, H2. congruence.
  - intros c1 c2 H1 H2. apply Hi in H1, H2. congruence.
  - intros t1 t2 H1 H2. apply Htr in H1 as [tr1 [E1 I1]].
    apply Htr in H2 as [tr2 [E2 I2]].
    assert (tr2 = tr1) as -> by congruence.
    exists tr1. split; [apply Hs, E1 | split; assumption].
Qed.

(** What the guard of [connect()] achieves.  In every state whose
    [connected] or [isConnecting] flag is set, [connect()] is a no-op, it
    acquires nothing and changes nothing.  In every run in which teardown
    ([disconnect], [onclose], [onerror]) does not come while a [connect()]
    is suspended at the microphone request, at most one timer, one output
    context, one input context and one microphone stream are held at any
    time, and at most one [connect()] is suspended. *)
Lemma connect_guard_single_session :
  (forall (s : State) (clock : Clock) (settled : MicrophoneRequest),
     connected s = true \/ isConnecting s = true ->
     connect_begin clock s = (s, None) /\ connect clock settled s = s)
  /\ (forall (s : State) (p : nat),
        reach true s p -> single_handle s /\ (p <= 1)%nat).
Proof.
  split.
  - intros s clock settled Hflag.
    assert (connect_begin clock s = (s, None)) as Hb.
    { unfold connect_begin.
      destruct Hflag as [-> | ->]; rewrite ?orb_true_r; reflexivity. }
    split; [exact Hb|]. unfold connect. rewrite Hb. reflexivity.
  - intros s p Hr. pose proof (serial_run_inv s p Hr) as Hinv.
    split; [exact (session_inv_single_handle s p Hinv) | apply Hinv].
Qed.

Lemma connect_guard_single_session_witness :
  (connected active_session = true \/ isConnecting active_session = true)
  /\ connect_begin run_clock active_session = (active_session, None)
  /\ connect run_clock (Granted 1) active_session = active_session
  /\ reach true active_session 0
  /\ single_handle active_session.
Proof.
  assert (connected active_session = true \/ isConnecting active_session = true)
    as Hflag by (left; reflexivity).
  destruct connect_guard_single_session as [Hguard Hsingle].
  destruct (Hguard active_session run_clock (Granted 1) Hflag) as [Hb Hc].
  destruct (Hsingle active_session 0%nat active_session_reached) as [Hs _].
  split; [exact Hflag|]. split; [exact Hb|]. split; [exact Hc|].
  split; [exact active_session_reached | exact Hs].
Defined.

Lemma leaked_state_reached : reach false leaked_state 0.
Proof.
  assert (reach false (fst (connect_begin run_clock initial)) 1) as H1
    by exact (reach_connect false initial 0 run_clock (reach_initial false)).
  assert (reach false (disconnect (fst (connect_begin run_clock initial))) 1)
    as H2 by (apply reach_disconnect; [exact H1 | discriminate]).
  assert (reach false
            (fst (connect_begin run_clock
                    (disconnect (fst (connect_begin run_clock initial))))) 2)
    as H3 by exact (reach_connect false _ 1 run_clock H2).
  unfold leaked_state. apply reach_settled, reach_settled, H3.
Qed.

(** C6.  What the code does where a single session handle is claimed.
    [connect()] is called and waits for the microphone; [disconnect()]
    comes meanwhile and clears [isConnecting]; so a second [connect()]
    passes the guard; then both requests are granted.  Both calls run to
    their end: two timers (6 and 10), two input contexts (4 and 8) and the
    tracks of two microphone streams (3 and 7) are held, and two remote
    sessions (5 and 9) were opened.  The refs know the second handle only,
    so the [disconnect()] that follows releases that one and the first
    stays held: its timer runs, its input context is open and its
    microphone track is live. *)
Theorem connect_guard_leaks_handle :
  reach false leaked_state 0
  /\ isConnecting (fst (connect_begin run_clock initial)) = true
  /\ isConnecting (disconnect (fst (connect_begin run_clock initial))) = false
  /\ is_Some (snd (connect_begin run_clock
                     (disconnect (fst (connect_begin run_clock initial)))))
  /\ (timer_live (trace leaked_state) 6 /\ timer_live (trace leaked_state) 10)
  /\ (context_open (trace leaked_state) 16000 4
      /\ context_open (trace leaked_state) 16000 8)
  /\ (track_live (trace leaked_state) 3 /\ track_live (trace leaked_state) 7)
  /\ (In (LiveConnect 5) (trace leaked_state)
      /\ In (LiveConnect 9) (trace leaked_state))
  /\ ~ single_handle leaked_state
  /\ (videoIntervalRef leaked_state = Some 10%positive
      /\ inputContextRef leaked_state = Some 8%positive
      /\ streamRef leaked_state = Some [7%positive]
      /\ sessionRef leaked_state = Some 9%positive)
  /\ (idle (disconnect leaked_state)
      /\ timer_live (trace (disconnect leaked_state)) 6
      /\ context_open (trace (disconnect leaked_state)) 16000 4
      /\ track_live (trace (disconnect leaked_state)) 3).
Proof.
  assert (timer_live (trace leaked_state) 6) as H6.
  { split; [vm_compute; tauto | reflexivity]. }
  assert (timer_live (trace leaked_state) 10) as H10.
  { split; [vm_compute; tauto | reflexivity]. }
  split; [exact leaked_state_reached|].
  split; [reflexivity|]. split; [reflexivity|].
  split; [eexists; reflexivity|].
  split; [split; [exact H6 | exact H10]|].
  split; [split; (split; [vm_compute; tauto | reflexivity])|].
  split.
  { split.
    - split; [exists [3%positive]; split; vm_compute; tauto | reflexivity].
    - split; [exists [7%positive]; split; vm_compute; tauto | reflexivity]. }
  split; [split; vm_compute; tauto|].
  split.
  { intros [Hsingle _]. specialize (Hsingle 6%positive 10%positive H6 H10).
    discriminate. }
  split; [repeat split|].
  split; [unfold idle; repeat split|].
  split; [split; [vm_compute; tauto | reflexivity]|].
  split; [split; [vm_compute; tauto | reflexivity]|].
  split; [exists [3%positive]; split; vm_compute; tauto | reflexivity].
Qed.

End RunFacts.

(** * Further properties of the code

    ** Counted loops that run past the end of an array *)

Section LoopFacts.

Context {A : Type}.

Lemma for_loop_app {St : Type} (body : nat -> St -> St) (n m : nat) :
  forall (start : nat) (st : St),
  Js.for_loop (n + m) start body st
  = Js.for_loop m (start + n) body (Js.for_loop n start body st).
Proof.
  induction n as [|n IH]; intros start st; cbn [Nat.add Js.for_loop].
  - rewrite Nat.add_0_r. reflexivity.
  - rewrite IH. replace (S start + n)%nat with (start + S n)%nat by lia.
    reflexivity.
Qed.

(** Stores past the end of a typed array leave it as it is. *)
Lemma for_loop_past_end (f : nat -> A) (m : nat) :
  forall (start : nat) (l : list A),
  (length l <= start)%nat ->
  Js.for_loop m start (fun i a => <[i := f i]> a) l = l.
Proof.
  induction m as [|m IH]; intros start l Hl; cbn [Js.for_loop]; [reflexivity|].
  rewrite list_insert_ge by exact Hl. apply IH. lia.
Qed.

Lemma for_loop_fill_beyond (f : nat -> A) (d : A) (len count : nat) :
  (len <= count)%nat ->
  Js.for_loop count 0 (fun i a => <[i := f i]> a) (replicate len d)
  = map f (seq 0 len).
Proof.
  intros Hle. replace count with (len + (count - len))%nat by lia.
  rewrite for_loop_app, for_loop_fill_all. apply for_loop_past_end.
  rewrite length_map, length_seq. lia.
Qed.

End LoopFacts.

(** ** [decodeAudioData]: frames, channels and failures *)

Section DecodeAudioFacts.

Import Js Base64 Codec.

Lemma list_ind_pairs {A : Type} (P : list A -> Prop) :
  P [] -> (forall a, P [a]) -> (forall a b l, P l -> P (a :: b :: l)) ->
  forall l, P l.
Proof.
  intros H0 H1 H2.
  fix IH 1.
  intros [|a [|b l]]; [exact H0 | apply H1 | apply H2, IH].
Qed.

Lemma int16s_of_bytes_length (bytes : list Z) :
  length (int16s_of_bytes bytes) = (length bytes / 2)%nat.
Proof.
  induction bytes as [|a|a b l IH] using list_ind_pairs; try reflexivity.
  cbn [int16s_of_bytes length]. rewrite IH.
  replace (S (S (length l))) with (length l + 1 * 2)%nat by lia.
  rewrite Nat.div_add by lia. lia.
Qed.

(** The frame count as the program computes it, as the buffer takes it
    and as the inner loop runs. *)
Lemma frameCount_split (n : nat) (numChannels : positive) :
  let frameCount :=
    (inject_Z (Z.of_nat n) / inject_Z (Z.pos numChannels))%Q in
  Qfloor frameCount = Z.of_nat (n / Pos.to_nat numChannels)
  /\ (n / Pos.to_nat numChannels <= iterations_below frameCount)%nat.
Proof.
  unfold iterations_below, Qceiling, Qfloor, Qdiv, Qmult, Qinv, Qopp, inject_Z.
  cbn [Qnum Qden]. rewrite Z.mul_1_r. cbn [Pos.mul Z.opp].
  assert (Z.of_nat n / Z.pos numChannels
          = Z.of_nat (n / Pos.to_nat numChannels)) as E.
  { rewrite Nat2Z.inj_div, positive_nat_Z. reflexivity. }
  split; [exact E|].
  apply Nat2Z.inj_le. rewrite <- E.
  pose proof (Z.div_pos (Z.of_nat n) (Z.pos numChannels) ltac:(lia) ltac:(lia)).
  rewrite Z2Nat.id; Z.div_mod_to_equations; nia.
Qed.

(** The inner loop of [decodeAudioData] writes into one channel. *)
Lemma for_loop_setChannel (g : nat -> spec_float) (channel : nat)
  (nc : positive) (len : Z) (rate : Q) (count : nat) :
  forall (start : nat) (chs : list (list spec_float)),
  for_loop count start (fun i b => setChannelData b channel i (g i))
    (mkAudioBuffer nc len rate chs)
  = mkAudioBuffer nc len rate
      (alter
         (fun channelData =>
            for_loop count start
              (fun i a => <[i := Float.to_float32 (g i)]> a) channelData)
         channel chs).
Proof.
  induction count as [|count IH]; intros start chs; cbn [for_loop].
  - f_equal. symmetry. apply list_alter_id. reflexivity.
  - unfold setChannelData at 2.
    cbn [numberOfChannels buffer_length sampleRate channels].
    rewrite IH. f_equal. apply list_alter_alter_eq.
Qed.

Lemma for_loop_channels (F : nat -> list spec_float -> list spec_float)
  (nc : positive) (len : Z) (rate : Q) (zeros : list spec_float) (count : nat) :
  forall pre : list (list spec_float),
  for_loop count (length pre)
    (fun channel b =>
       mkAudioBuffer (numberOfChannels b) (buffer_length b) (sampleRate b)
         (alter (F channel) channel (channels b)))
    (mkAudioBuffer nc len rate (pre ++ replicate count zeros))
  = mkAudioBuffer nc len rate
      (pre ++ map (fun channel => F channel zeros) (seq (length pre) count)).
Proof.
  induction count as [|count IH]; intros pre; cbn [for_loop replicate seq map].
  - reflexivity.
  - cbn [numberOfChannels buffer_length sampleRate channels].
    rewrite alter_app_r_alt by lia. rewrite Nat.sub_diag. cbn [alter list_alter].
    specialize (IH (pre ++ [F (length pre) zeros])).
    rewrite length_app in IH. cbn [length] in IH. rewrite Nat.add_1_r in IH.
    rewrite <- app_assoc in IH. cbn [app] in IH. rewrite IH.
    rewrite <- app_assoc. reflexivity.
Qed.

Lemma for_loop_ext {St : Type} (body body' : nat -> St -> St) (count : nat) :
  (forall i st, body i st = body' i st) ->
  forall (start : nat) (st : St),
  for_loop count start body st = for_loop count start body' st.
Proof.
  intros Hb. induction count as [|count IH]; intros start st; cbn [for_loop];
    [reflexivity|].
  rewrite Hb. apply IH.
Qed.

Lemma Int16Array_of_buffer_even (data : list Z) :
  (length data mod 2 = 0)%nat ->
  Int16Array_of_buffer data = Ok (int16s_of_bytes data).
Proof.
  intros H. unfold Int16Array_of_buffer. rewrite H. reflexivity.
Qed.

Lemma Int16Array_of_buffer_odd (data : list Z) :
  (length data mod 2 = 1)%nat ->
  Int16Array_of_buffer data = Throw RangeError.
Proof.
  intros H. unfold Int16Array_of_buffer. rewrite H. reflexivity.
Qed.

(** What [decodeAudioData] returns when the context allocates the
    buffer. *)
Lemma decodeAudioData_frames (ctx : AudioContext) (rate : Q)
  (numChannels : positive) (data : list Z) :
  (length data mod 2 = 0)%nat ->
  accepts ctx numChannels (Z.of_nat (whole_frames data numChannels)) rate
  = true ->
  decodeAudioData data (Some ctx) rate numChannels
  = Ok (mkAudioBuffer numChannels (Z.of_nat (whole_frames data numChannels)) rate
          (deinterleaved (int16s_of_bytes data) (Pos.to_nat numChannels)
             (whole_frames data numChannels))).
Proof.
  intros Heven Hacc. unfold decodeAudioData.
  rewrite (Int16Array_of_buffer_even data Heven). cbn [mbind Result_bind].
  set (a := int16s_of_bytes data).
  set (c := Pos.to_nat numChannels).
  destruct (frameCount_split (length a) numChannels) as [Hfloor Hiter].
  cbv zeta in Hfloor, Hiter.
  assert ((length a / Pos.to_nat numChannels)%nat = whole_frames data numChannels)
    as Hframes by (unfold a, whole_frames; rewrite int16s_of_bytes_length;
                   reflexivity).
  rewrite Hframes in Hfloor, Hiter.
  set (frames := whole_frames data numChannels) in *.
  unfold createBuffer. rewrite Hfloor, Hacc. cbn [mbind Result_bind].
  rewrite Nat2Z.id. f_equal.
  set (iters := iterations_below _) in *.
  set (F := fun (channel : nat) (channelData : list spec_float) =>
              for_loop iters 0
                (fun i x =>
                   <[i := Float.to_float32
                            (int16_get_div a (i * c + channel))]> x)
                channelData).
  rewrite (for_loop_ext _
             (fun channel b =>
                mkAudioBuffer (numberOfChannels b) (buffer_length b)
                  (sampleRate b) (alter (F channel) channel (channels b)))).
  2:{ intros channel [nc len r chs].
      cbn [numberOfChannels buffer_length sampleRate channels].
      apply for_loop_setChannel. }
  fold c.
  pose proof (for_loop_channels F numChannels (Z.of_nat frames) rate
                (replicate frames (S754_zero false)) c []) as Hloop.
  cbn [app length] in Hloop. rewrite Hloop. f_equal. unfold deinterleaved.
  apply map_ext_in. intros channel Hch. apply in_seq in Hch.
  unfold F. rewrite (for_loop_fill_beyond _ _ frames iters Hiter).
  apply map_ext_in. intros i Hi. apply in_seq in Hi.
  unfold int16_get_div, sample_of_pcm16.
  assert (i * c + channel < length a)%nat as Hlt.
  { assert (frames * c <= length a)%nat as Hle.
    { rewrite <- Hframes. unfold c.
      rewrite Nat.mul_comm. apply Nat.Div0.mul_div_le. }
    nia. }
  destruct (a !! (i * c + channel)%nat) as [k|] eqn:Ek.
  - rewrite (nth_lookup_Some _ _ 0 _ Ek). reflexivity.
  - apply lookup_ge_None in Ek. lia.
Qed.

(** X5.  [decodeAudioData] de-interleaves: with [numChannels] channels
    the buffer has that many channels of [whole_frames] samples each, sample
    [i] of channel [channel] is the 16-bit integer [i * numChannels + channel]
    of the data divided by 32768, and the integers of an incomplete last
    frame are dropped. *)
Theorem decodeAudioData_deinterleaves (ctx : AudioContext) (rate : Q)
  (numChannels : positive) (data : list Z) :
  (length data mod 2 = 0)%nat ->
  accepts ctx numChannels (Z.of_nat (whole_frames data numChannels)) rate
  = true ->
  exists buffer : AudioBuffer,
    decodeAudioData data (Some ctx) rate numChannels = Ok buffer
    /\ numberOfChannels buffer = numChannels
    /\ buffer_length buffer = Z.of_nat (whole_frames data numChannels)
    /\ sampleRate buffer = rate
    /\ length (channels buffer) = Pos.to_nat numChannels
    /\ Forall (fun channelData =>
                 length channelData = whole_frames data numChannels)
         (channels buffer)
    /\ (forall channel i : nat,
          (channel < Pos.to_nat numChannels)%nat ->
          (i < whole_frames data numChannels)%nat ->
          exists (k : Z) (channelData : list spec_float),
            int16s_of_bytes data !! (i * Pos.to_nat numChannels + channel)%nat
            = Some k
            /\ channels buffer !! channel = Some channelData
            /\ channelData !! i = Some (sample_of_pcm16 k)).
Proof.
  intros Heven Hacc. eexists. split.
  { apply decodeAudioData_frames; assumption. }
  cbn [numberOfChannels buffer_length sampleRate channels].
  split; [reflexivity|]. split; [reflexivity|]. split; [reflexivity|].
  unfold deinterleaved. split; [rewrite length_map, length_seq; reflexivity|].
  split.
  { apply Forall_forall. intros cd Hcd.
    apply list_elem_of_In, in_map_iff in Hcd as [ch [<- _]].
    rewrite length_map, length_seq. reflexivity. }
  intros channel i Hch Hi.
  set (a := int16s_of_bytes data). set (c := Pos.to_nat numChannels) in *.
  assert (i * c + channel < length a)%nat as Hlt.
  { assert (whole_frames data numChannels * c <= length a)%nat as Hle.
    { unfold whole_frames, a, c. rewrite int16s_of_bytes_length.
      rewrite Nat.mul_comm. apply Nat.Div0.mul_div_le. }
    nia. }
  destruct (a !! (i * c + channel)%nat) as [k|] eqn:Ek.
  2:{ apply lookup_ge_None in Ek. lia. }
  exists k. eexists. split; [reflexivity|].
  rewrite list_lookup_fmap, lookup_seq_lt by exact Hch. cbn [fmap option_map].
  split; [reflexivity|].
  rewrite list_lookup_fmap, lookup_seq_lt by exact Hi. cbn [fmap option_map].
  cbn [option_fmap option_map Nat.add].
  rewrite (nth_lookup_Some _ _ 0 _ Ek). reflexivity.
Qed.

Lemma decodeAudioData_deinterleaves_witness :
  exists buffer : AudioBuffer,
    decodeAudioData stereo_bytes (Some conforming_context) (24000 # 1) 2
    = Ok buffer
    /\ buffer_length buffer = 2
    /\ exists channelData : Float32Array,
         channels buffer !! 1%nat = Some channelData
         /\ channelData !! 1%nat = Some (sample_of_pcm16 4).
Proof.
  destruct (decodeAudioData_deinterleaves conforming_context (24000 # 1) 2
              stereo_bytes)
    as (buffer & Hrun & _ & Hlen & _ & _ & _ & Hframes);
    [reflexivity | reflexivity |].
  destruct (Hframes 1%nat 1%nat) as (k & channelData & Hk & Hch & Hi);
    [vm_compute; lia | vm_compute; lia |].
  assert (k = 4) as -> by (vm_compute in Hk; congruence).
  exists buffer. split; [exact Hrun|]. split; [exact Hlen|].
  exists channelData. split; [exact Hch | exact Hi].
Defined.

(** X4.  How [decodeAudioData] fails: an odd number of bytes raises
    RangeError whatever the context; with an even number a [null] context
    raises TypeError and a context that refuses the buffer
    NotSupportedError.  In every other case, an even number of bytes on a
    context that accepts the buffer, a buffer is returned, with that many
    channels, the whole frames of the data and that rate; and a buffer is
    returned in no case but this one. *)
Theorem decodeAudioData_errors (data : list Z) (rate : Q)
  (numChannels : positive) :
  (forall ctx : option AudioContext,
     (length data mod 2 = 1)%nat ->
     decodeAudioData data ctx rate numChannels = Throw RangeError)
  /\ ((length data mod 2 = 0)%nat ->
      decodeAudioData data None rate numChannels = Throw TypeError)
  /\ (forall ctx : AudioContext,
        (length data mod 2 = 0)%nat ->
        accepts ctx numChannels (Z.of_nat (whole_frames data numChannels)) rate
        = false ->
        decodeAudioData data (Some ctx) rate numChannels
        = Throw NotSupportedError)
  /\ (forall ctx : AudioContext,
        (length data mod 2 = 0)%nat ->
        accepts ctx numChannels (Z.of_nat (whole_frames data numChannels)) rate
        = true ->
        exists buffer : AudioBuffer,
          decodeAudioData data (Some ctx) rate numChannels = Ok buffer
          /\ numberOfChannels buffer = numChannels
          /\ buffer_length buffer = Z.of_nat (whole_frames data numChannels)
          /\ sampleRate buffer = rate)
  /\ (forall (ctx : option AudioContext) (buffer : AudioBuffer),
        decodeAudioData data ctx rate numChannels = Ok buffer ->
        (length data mod 2 = 0)%nat
        /\ exists c : AudioContext,
             ctx = Some c
             /\ accepts c numChannels
                  (Z.of_nat (whole_frames data numChannels)) rate = true).
Proof.
  assert (forall c : AudioContext,
            (length data mod 2 = 0)%nat ->
            accepts c numChannels (Z.of_nat (whole_frames data numChannels)) rate
            = false ->
            decodeAudioData data (Some c) rate numChannels
            = Throw NotSupportedError) as Hrefused.
  { intros c Heven Hacc. unfold decodeAudioData.
    rewrite (Int16Array_of_buffer_even data Heven). cbn [mbind Result_bind].
    destruct (frameCount_split (length (int16s_of_bytes data)) numChannels)
      as [Hfloor _].
    cbv zeta in Hfloor. unfold createBuffer. rewrite Hfloor.
    rewrite int16s_of_bytes_length. fold (whole_frames data numChannels).
    rewrite Hacc. reflexivity. }
  split.
  { intros ctx Hodd. unfold decodeAudioData.
    rewrite (Int16Array_of_buffer_odd data Hodd). reflexivity. }
  split.
  { intros Heven. unfold decodeAudioData.
    rewrite (Int16Array_of_buffer_even data Heven). reflexivity. }
  split; [exact Hrefused|].
  split.
  { intros ctx Heven Hacc. eexists. split.
    - apply decodeAudioData_frames; assumption.
    - repeat split. }
  intros ctx buffer Hok.
  assert ((length data mod 2 = 0)%nat) as Heven.
  { pose proof (Nat.mod_upper_bound (length data) 2 ltac:(lia)) as Hb.
    destruct (length data mod 2)%nat as [|[|n]] eqn:E; [reflexivity| |lia].
    unfold decodeAudioData in Hok.
    rewrite (Int16Array_of_buffer_odd data E) in Hok. discriminate. }
  split; [exact Heven|].
  destruct ctx as [c|].
  2:{ unfold decodeAudioData in Hok.
      rewrite (Int16Array_of_buffer_even data Heven) in Hok. discriminate. }
  exists c. split; [reflexivity|].
  destruct (accepts c numChannels (Z.of_nat (whole_frames data numChannels)) rate)
    eqn:Hacc; [reflexivity|].
  rewrite (Hrefused c Heven Hacc) in Hok. discriminate.
Qed.

Lemma decodeAudioData_errors_witness :
  decodeAudioData [1; 2; 3] (Some conforming_context) (24000 # 1) 1
  = Throw RangeError
  /\ decodeAudioData [1; 2] None (24000 # 1) 1 = Throw TypeError
  /\ decodeAudioData [] (Some conforming_context) (24000 # 1) 1
     = Throw NotSupportedError
  /\ (exists buffer : AudioBuffer,
        decodeAudioData [1; 2] (Some conforming_context) (24000 # 1) 1
        = Ok buffer
        /\ buffer_length buffer = 1).
Proof.
  destruct (decodeAudioData_errors [1; 2; 3] (24000 # 1) 1) as (Hodd & _).
  destruct (decodeAudioData_errors [1; 2] (24000 # 1) 1)
    as (_ & Hnull & _ & Hok & _).
  destruct (decodeAudioData_errors [] (24000 # 1) 1) as (_ & _ & Hrefused & _).
  split; [exact (Hodd (Some conforming_context) eq_refl)|].
  split; [exact (Hnull eq_refl)|].
  split; [exact (Hrefused conforming_context eq_refl eq_refl)|].
  destruct (Hok conforming_context eq_refl eq_refl)
    as (buffer & Hrun & _ & Hlen & _).
  exists buffer. split; [exact Hrun | exact Hlen].
Defined.

(** The bytes of 16-bit integers read from bytes are those bytes. *)
Lemma int16_of_bytes_range (lo hi : Z) :
  is_byte lo -> is_byte hi -> is_int16 (int16_of_bytes lo hi).
Proof.
  unfold is_byte, is_int16, int16_of_bytes. intros Hlo Hhi.
  destruct (Z.leb_spec 32768 (lo + 256 * hi)); lia.
Qed.

Lemma bytes_of_int16_of_bytes (lo hi : Z) :
  is_byte lo -> is_byte hi -> bytes_of_int16 (int16_of_bytes lo hi) = [lo; hi].
Proof.
  unfold is_byte, bytes_of_int16, int16_of_bytes. intros Hlo Hhi.
  assert ((if 32768 <=? lo + 256 * hi then lo + 256 * hi - 65536
           else lo + 256 * hi) mod 65536 = lo + 256 * hi) as ->.
  { destruct (Z.leb_spec 32768 (lo + 256 * hi)); Z.div_mod_to_equations; lia. }
  f_equal; [|f_equal]; Z.div_mod_to_equations; lia.
Qed.

Lemma int16s_of_bytes_range (bytes : list Z) :
  Forall is_byte bytes -> Forall is_int16 (int16s_of_bytes bytes).
Proof.
  induction bytes as [|a|a b l IH] using list_ind_pairs; intros H;
    cbn [int16s_of_bytes]; try constructor.
  - apply Forall_cons_1 in H as [Ha H]. apply Forall_cons_1 in H as [Hb H].
    apply int16_of_bytes_range; assumption.
  - apply IH. apply Forall_cons_1 in H as [_ H].
    apply Forall_cons_1 in H as [_ H]. exact H.
Qed.

Lemma Uint8Array_view_of_bytes (bytes : list Z) :
  Forall is_byte bytes -> (length bytes mod 2 = 0)%nat ->
  Uint8Array_of_Int16Array (int16s_of_bytes bytes) = bytes.
Proof.
  unfold Uint8Array_of_Int16Array.
  induction bytes as [|a|a b l IH] using list_ind_pairs; intros H Heven.
  - reflexivity.
  - discriminate Heven.
  - apply Forall_cons_1 in H as [Ha H]. apply Forall_cons_1 in H as [Hb H].
    cbn [int16s_of_bytes map concat].
    rewrite bytes_of_int16_of_bytes by assumption. cbn [app]. do 2 f_equal.
    apply IH; [exact H|].
    cbn [length] in Heven.
    replace (S (S (length l))) with (length l + 1 * 2)%nat in Heven by lia.
    rewrite Nat.Div0.mod_add in Heven. exact Heven.
Qed.

(** X3.  Decoding and encoding again gives the bytes back: for every
    even number of bytes that the context takes as one channel, the channel
    that [decodeAudioData] returns has one sample for every two bytes, and
    [createBlob] of it, decoded by [decode], is the original bytes. *)
Theorem pcm_bytes_round_trip (ctx : AudioContext) (rate : Q) (bytes : list Z) :
  Forall is_byte bytes ->
  (length bytes mod 2 = 0)%nat ->
  accepts ctx 1 (Z.of_nat (length bytes / 2)) rate = true ->
  exists channelData : Float32Array,
    decodeAudioData bytes (Some ctx) rate 1
    = Ok (mkAudioBuffer 1 (Z.of_nat (length bytes / 2)) rate [channelData])
    /\ length channelData = (length bytes / 2)%nat
    /\ decode (data (createBlob channelData)) = Ok bytes.
Proof.
  intros Hbytes Heven Hacc.
  set (a := int16s_of_bytes bytes).
  assert (length a = (length bytes / 2)%nat) as Hlen
    by apply int16s_of_bytes_length.
  assert (Forall is_int16 a) as Ha by (apply int16s_of_bytes_range, Hbytes).
  exists (map sample_of_pcm16 a).
  split.
  { rewrite <- Hlen. apply decodeAudioData_mono.
    - apply Int16Array_of_buffer_even, Heven.
    - rewrite Hlen. exact Hacc. }
  split; [rewrite length_map; exact Hlen|].
  rewrite decode_createBlob_bytes. f_equal.
  assert (map pcm16 (map sample_of_pcm16 a) = a) as ->.
  { rewrite map_map. rewrite <- (map_id a) at 2. apply map_ext_in.
    intros k Hk. rewrite Forall_forall in Ha.
    destruct (quantized_samples k (Ha k (proj2 (list_elem_of_In _ _) Hk)))
      as [Hp Hs].
    rewrite Hs. exact Hp. }
  apply Uint8Array_view_of_bytes; assumption.
Qed.

Lemma pcm_bytes_round_trip_witness :
  exists channelData : Float32Array,
    decodeAudioData example_bytes (Some conforming_context) (24000 # 1) 1
    = Ok (mkAudioBuffer 1 3 (24000 # 1) [channelData])
    /\ decode (data (createBlob channelData)) = Ok example_bytes.
Proof.
  destruct (pcm_bytes_round_trip conforming_context (24000 # 1) example_bytes)
    as (channelData & Hbuffer & _ & Hback).
  - unfold example_bytes, is_byte. repeat constructor; lia.
  - reflexivity.
  - reflexivity.
  - exists channelData. split; [exact Hbuffer | exact Hback].
Defined.

(** The length of what [btoa] returns. *)
Lemma to_sextets_padding_length (bytes : list Z) :
  (length (to_sextets bytes) + length (padding (length bytes))
   = 4 * ((length bytes + 2) / 3))%nat.
Proof.
  induction bytes as [|a|a b|a b c l IH] using list_ind3; try reflexivity.
  cbn [to_sextets length].
  assert (padding (S (S (S (length l)))) = padding (length l)) as ->.
  { unfold padding.
    replace (S (S (S (length l)))) with (length l + 1 * 3)%nat by lia.
    rewrite Nat.Div0.mod_add. reflexivity. }
  replace (S (S (S (length l))) + 2)%nat with (length l + 2 + 1 * 3)%nat by lia.
  rewrite Nat.div_add by lia. lia.
Qed.

Lemma string_of_list_ascii_length (l : list ascii) :
  String.length (string_of_list_ascii l) = length l.
Proof. induction l as [|c l IH]; cbn; [reflexivity | f_equal; exact IH]. Qed.

Lemma btoa_length (binary : string) :
  String.length (btoa binary) = (4 * ((String.length binary + 2) / 3))%nat.
Proof.
  unfold btoa. rewrite string_of_list_ascii_length, length_app, !length_map.
  rewrite <- (length_map charCode (list_ascii_of_string binary)).
  rewrite to_sextets_padding_length, length_map, String_length_list.
  reflexivity.
Qed.

Lemma Uint8Array_view_length (a : list Z) :
  length (Uint8Array_of_Int16Array a) = (2 * length a)%nat.
Proof.
  unfold Uint8Array_of_Int16Array. induction a as [|k a IH]; [reflexivity|].
  cbn [map concat]. rewrite length_app, IH. cbn [bytes_of_int16 length]. lia.
Qed.

End DecodeAudioFacts.

(** ** [decode] on what is not base64 *)

Section DecodeFacts.

Import Js Base64 Codec.

Lemma drop_trailing_equals_keeps (c : ascii) (l : list ascii) :
  Ascii.eqb c "=" = false -> In c l -> In c (drop_trailing_equals l).
Proof.
  intros Hc Hin. unfold drop_trailing_equals.
  destruct (rev l) as [|x r] eqn:E; [exact Hin|].
  destruct (Ascii.eqb_spec x "="%char) as [->|Hx]; [|exact Hin].
  apply in_rev in Hin. rewrite E in Hin. destruct Hin as [<-|Hin].
  - rewrite Ascii.eqb_refl in Hc. discriminate.
  - apply in_rev in Hin. exact Hin.
Qed.

Lemma atob_rejects (base64 : string) (c : ascii) :
  In c (list_ascii_of_string base64) ->
  sextet_of_char c = None ->
  is_ascii_whitespace c = false ->
  Ascii.eqb c "=" = false ->
  atob base64 = Throw InvalidCharacterError.
Proof.
  intros Hin Hsext Hws Heq. unfold atob.
  set (s := List.filter (fun c => negb (is_ascii_whitespace c))
              (list_ascii_of_string base64)).
  assert (In c (strip_padding s)) as Hc.
  { assert (In c s) as Hs
      by (apply filter_In; split; [exact Hin | rewrite Hws; reflexivity]).
    unfold strip_padding. destruct (length s mod 4 =? 0)%nat; [|exact Hs].
    apply drop_trailing_equals_keeps, drop_trailing_equals_keeps; assumption. }
  destruct (length (strip_padding s) mod 4 =? 1)%nat; [reflexivity|].
  destruct (mapM sextet_of_char (strip_padding s)) as [sextets|] eqn:E;
    [|reflexivity].
  apply mapM_Some_1 in E.
  apply list_elem_of_In, list_elem_of_lookup in Hc as [i Hi].
  destruct (Forall2_lookup_l _ _ _ i c E Hi) as [y [_ Hy]]. congruence.
Qed.

(** X1.  [decode] rejects what is not base64: a payload that holds a
    character outside the base64 alphabet, other than ASCII white space and
    [=], is not decoded in part; [atob] raises InvalidCharacterError and
    [decode] lets it through. *)
Theorem decode_rejects_foreign_characters (base64 : string) (c : ascii) :
  In c (list_ascii_of_string base64) ->
  ~ In c alphabet ->
  is_ascii_whitespace c = false ->
  c <> "="%char ->
  decode base64 = Throw InvalidCharacterError.
Proof.
  intros Hin Halpha Hws Hne. unfold decode.
  rewrite (atob_rejects base64 c Hin); [reflexivity | | exact Hws |].
  - unfold sextet_of_char. revert Halpha. generalize 0. 
    induction alphabet as [|x l IH]; intros i Hnot; cbn [index_of];
      [reflexivity|].
    destruct (Ascii.eqb_spec c x) as [->|Hx].
    + exfalso. apply Hnot. left. reflexivity.
    + apply IH. intros H. apply Hnot. right. exact H.
  - apply Ascii.eqb_neq, Hne.
Qed.

Lemma decode_rejects_foreign_characters_witness :
  decode "AB!D" = Throw InvalidCharacterError.
Proof.
  apply (decode_rejects_foreign_characters "AB!D" "!"%char).
  - vm_compute. tauto.
  - vm_compute. intros H.
    repeat (destruct H as [H|H]; [discriminate H|]). exact H.
  - reflexivity.
  - discriminate.
Defined.

End DecodeFacts.

(** ** [createBlob] on samples of the unit range *)

Section EncoderFacts.

Import Js Base64 Codec.






End EncoderFacts.

(** ** The sidebar: a stable sort of the other videos *)

Section RecommendationFacts.

Import Relevance.

Context {VideoId : Type} `{EqDecision VideoId}.

Lemma head_tail {A : Type} (l : list A) : option_list (head l) ++ tail l = l.
Proof. destruct l; reflexivity. Qed.

Lemma insert_sorted_perm (x : Scored VideoId) (l : list (Scored VideoId)) :
  Permutation (insert_sorted x l) (x :: l).
Proof.
  induction l as [|y l IH]; cbn [insert_sorted]; [reflexivity|].
  destruct (item_score y - item_score x <=? 0); [reflexivity|].
  rewrite IH. apply perm_swap.
Qed.

Lemma sort_by_score_perm (l : list (Scored VideoId)) :
  Permutation (sort_by_score l) l.
Proof.
  unfold sort_by_score. induction l as [|x l IH]; cbn [foldr]; [reflexivity|].
  rewrite insert_sorted_perm, IH. reflexivity.
Qed.

Lemma RecommendationsList_sorted (video : Video VideoId)
  (allVideos : list (Video VideoId)) :
  Player.RecommendationsList (recommendations video allVideos)
  = map item_video
      (sort_by_score
         (map (fun v => mkScored v (calculateRelevance video v))
            (others video allVideos))).
Proof.
  unfold Player.RecommendationsList, recommendations.
  cbn [upNext moreVideos]. apply head_tail.
Qed.

Lemma others_spec (video v : Video VideoId) (allVideos : list (Video VideoId)) :
  In v (others video allVideos) <-> In v allVideos /\ id v <> id video.
Proof.
  unfold others. rewrite filter_In, negb_true_iff, bool_decide_eq_false.
  reflexivity.
Qed.

Lemma RecommendationsList_perm (video : Video VideoId)
  (allVideos : list (Video VideoId)) :
  Permutation (Player.RecommendationsList (recommendations video allVideos))
    (others video allVideos).
Proof.
  rewrite RecommendationsList_sorted, sort_by_score_perm, map_map.
  cbn [item_video].
  rewrite map_id. reflexivity.
Qed.

Lemma RecommendationsList_In (video v : Video VideoId)
  (allVideos : list (Video VideoId)) :
  In v (Player.RecommendationsList (recommendations video allVideos))
  <-> In v allVideos /\ id v <> id video.
Proof.
  rewrite <- others_spec.
  pose proof (RecommendationsList_perm video allVideos) as Hp.
  split; intros Hv.
  - eapply Permutation_in; [exact Hp | exact Hv].
  - eapply Permutation_in; [symmetry; exact Hp | exact Hv].
Qed.

(** X11.  The sidebar lists the catalog: [upNext] followed by
    [moreVideos] is a rearrangement of the catalog entries whose id is not
    that of the video that plays, each as often as the catalog has it; there
    is no [upNext] exactly when the catalog has no such entry. *)
Theorem recommendations_permutation (video : Video VideoId)
  (allVideos : list (Video VideoId)) :
  let r := recommendations video allVideos in
  Permutation (Player.RecommendationsList r) (others video allVideos)
  /\ (forall v : Video VideoId,
        In v (Player.RecommendationsList r)
        <-> In v allVideos /\ id v <> id video)
  /\ (upNext r = None <-> Forall (fun v => id v = id video) allVideos)
  /\ (forall u, upNext r = Some u ->
        S (length (moreVideos r)) = length (others video allVideos)).
Proof.
  intros r. pose proof (RecommendationsList_perm video allVideos) as Hp.
  fold r in Hp.
  split; [exact Hp|]. split; [intros v; apply RecommendationsList_In|].
  split.
  { split.
    - intros Hnone. apply Forall_forall. intros v Hv.
      apply list_elem_of_In in Hv.
      destruct (decide (id v = id video)) as [Heq|Hne]; [exact Heq|].
      assert (In v (Player.RecommendationsList r)) as Hin
        by (apply RecommendationsList_In; split; assumption).
      unfold Player.RecommendationsList in Hin. rewrite Hnone in Hin.
      cbn [option_list app] in Hin.
      unfold r, recommendations in Hnone, Hin. cbn [upNext moreVideos] in *.
      destruct (map item_video _); [contradiction | discriminate].
    - intros Hall. unfold r.
      rewrite (recommendations_only_reference video allVideos Hall).
      reflexivity. }
  intros u Hu. apply Permutation_length in Hp. rewrite <- Hp.
  unfold Player.RecommendationsList. rewrite Hu. reflexivity.
Qed.

Lemma insert_sorted_Forall (P : Scored VideoId -> Prop) (x : Scored VideoId)
  (l : list (Scored VideoId)) :
  P x -> Forall P l -> Forall P (insert_sorted x l).
Proof.
  intros Hx Hl. induction Hl as [|y l Hy Hl IH]; cbn [insert_sorted].
  - repeat constructor; exact Hx.
  - destruct (item_score y - item_score x <=? 0); repeat constructor; assumption.
Qed.

Lemma sort_by_score_Forall (P : Scored VideoId -> Prop)
  (l : list (Scored VideoId)) :
  Forall P l -> Forall P (sort_by_score l).
Proof.
  unfold sort_by_score. induction 1 as [|x l Hx _ IH]; cbn [foldr].
  - constructor.
  - apply insert_sorted_Forall; assumption.
Qed.

Lemma insert_sorted_sorted (x : Scored VideoId) (l : list (Scored VideoId)) :
  StronglySorted (fun a b => item_score b <= item_score a) l ->
  StronglySorted (fun a b => item_score b <= item_score a) (insert_sorted x l).
Proof.
  induction 1 as [|y l Hl IH Hy]; cbn [insert_sorted].
  - repeat constructor.
  - destruct (Z.leb_spec (item_score y - item_score x) 0) as [Hle|Hgt].
    + constructor; [constructor; assumption|].
      constructor; [lia|].
      eapply Forall_impl; [exact Hy|]. intros z Hz. cbn beta in Hz. lia.
    + constructor; [exact IH|].
      apply insert_sorted_Forall; [lia | exact Hy].
Qed.

Lemma sort_by_score_sorted (l : list (Scored VideoId)) :
  StronglySorted (fun a b => item_score b <= item_score a) (sort_by_score l).
Proof.
  unfold sort_by_score. induction l as [|x l IH]; cbn [foldr].
  - constructor.
  - apply insert_sorted_sorted, IH.
Qed.

(** Entries of one score are never reordered. *)
Lemma insert_sorted_stable (k : Z) (x : Scored VideoId)
  (l : list (Scored VideoId)) :
  List.filter (fun y => item_score y =? k) (insert_sorted x l)
  = List.filter (fun y => item_score y =? k) (x :: l).
Proof.
  induction l as [|y l IH]; cbn [insert_sorted]; [reflexivity|].
  destruct (Z.leb_spec (item_score y - item_score x) 0) as [Hle|Hgt];
    [reflexivity|].
  cbn [List.filter] in *. rewrite IH.
  destruct (Z.eqb_spec (item_score y) k) as [Hy|Hy],
           (Z.eqb_spec (item_score x) k) as [Hx|Hx]; try reflexivity.
  lia.
Qed.

Lemma sort_by_score_stable (k : Z) (l : list (Scored VideoId)) :
  List.filter (fun y => item_score y =? k) (sort_by_score l)
  = List.filter (fun y => item_score y =? k) l.
Proof.
  unfold sort_by_score. induction l as [|x l IH]; cbn [foldr]; [reflexivity|].
  rewrite insert_sorted_stable. cbn [List.filter]. rewrite IH. reflexivity.
Qed.

(** Every sorted object carries the score of its video. *)
Lemma sorted_scores (video : Video VideoId) (l : list (Video VideoId)) :
  Forall (fun it => item_score it = calculateRelevance video (item_video it))
    (sort_by_score (map (fun v => mkScored v (calculateRelevance video v)) l)).
Proof.
  apply sort_by_score_Forall, Forall_forall. intros it Hit.
  apply list_elem_of_In, in_map_iff in Hit as [v [<- _]]. reflexivity.
Qed.

Lemma StronglySorted_map {A B : Type} (R : B -> B -> Prop) (f : A -> B)
  (l : list A) :
  StronglySorted (fun a b => R (f a) (f b)) l -> StronglySorted R (map f l).
Proof.
  induction 1 as [|x l Hl IH Hx]; cbn [map]; constructor; [exact IH|].
  apply Forall_forall. intros y Hy.
  apply list_elem_of_In, in_map_iff in Hy as [z [<- Hz]].
  rewrite Forall_forall in Hx. apply Hx, list_elem_of_In, Hz.
Qed.

Lemma StronglySorted_weaken {A : Type} (R R' : A -> A -> Prop) (l : list A) :
  (forall a b, In a l -> In b l -> R a b -> R' a b) ->
  StronglySorted R l -> StronglySorted R' l.
Proof.
  intros HR Hs. induction Hs as [|x l Hl IH Hx]; constructor.
  - apply IH. intros a b Ha Hb. apply HR; right; assumption.
  - rewrite Forall_forall in *. intros y Hy. apply HR.
    + left. reflexivity.
    + right. apply list_elem_of_In, Hy.
    + apply Hx, Hy.
Qed.

(** X12.  The sidebar is ordered by score: no entry scores more than
    an entry before it, and [upNext] scores at least as much as every video
    of the catalog. *)
Theorem recommendations_sorted (video : Video VideoId)
  (allVideos : list (Video VideoId)) :
  let r := recommendations video allVideos in
  StronglySorted
    (fun a b => calculateRelevance video b <= calculateRelevance video a)
    (Player.RecommendationsList r)
  /\ (forall u v, upNext r = Some u -> In v allVideos ->
        calculateRelevance video v <= calculateRelevance video u).
Proof.
  intros r.
  assert (StronglySorted
            (fun a b => calculateRelevance video b <= calculateRelevance video a)
            (Player.RecommendationsList r)) as Hs.
  { unfold r. rewrite RecommendationsList_sorted.
    apply StronglySorted_map.
    pose proof (sorted_scores video (others video allVideos)) as Hsc.
    rewrite Forall_forall in Hsc.
    eapply StronglySorted_weaken; [|apply sort_by_score_sorted].
    intros a b Ha Hb Hab. cbn beta in Hab.
    rewrite <- (Hsc a), <- (Hsc b) by (apply list_elem_of_In; assumption).
    exact Hab. }
  split; [exact Hs|].
  intros u v Hu Hv.
  destruct (decide (id v = id video)) as [Heq|Hne].
  { assert (calculateRelevance video v = -1) as ->.
    { unfold calculateRelevance.
      destruct (decide (id video = id v)); [reflexivity | congruence]. }
    assert (In u (Player.RecommendationsList r)) as Hin
      by (unfold Player.RecommendationsList; rewrite Hu; left; reflexivity).
    apply RecommendationsList_In in Hin as [_ Hne].
    pose proof (calculateRelevance_nonneg video u ltac:(congruence)). lia. }
  assert (In v (Player.RecommendationsList r)) as Hin
    by (apply RecommendationsList_In; split; assumption).
  unfold Player.RecommendationsList in Hin, Hs. rewrite Hu in Hin, Hs.
  cbn [option_list app] in *.
  destruct Hin as [->|Hin]; [lia|].
  apply StronglySorted_inv in Hs as [_ Hall].
  rewrite Forall_forall in Hall. apply Hall, list_elem_of_In, Hin.
Qed.

(** X13.  The sort is stable: the entries of any one score come in
    the order in which the catalog has them. *)
Theorem recommendations_stable (video : Video VideoId)
  (allVideos : list (Video VideoId)) (k : Z) :
  List.filter (fun v => calculateRelevance video v =? k)
    (Player.RecommendationsList (recommendations video allVideos))
  = List.filter (fun v => calculateRelevance video v =? k)
      (others video allVideos).
Proof.
  rewrite RecommendationsList_sorted.
  set (items := map (fun v => mkScored v (calculateRelevance video v))
                  (others video allVideos)).
  assert (forall l : list (Scored VideoId),
            Forall (fun it => item_score it
                              = calculateRelevance video (item_video it)) l ->
            List.filter (fun v => calculateRelevance video v =? k)
              (map item_video l)
            = map item_video (List.filter (fun it => item_score it =? k) l))
    as Hmap.
  { induction 1 as [|it l Hit _ IH]; cbn [map List.filter]; [reflexivity|].
    rewrite <- Hit, IH. destruct (item_score it =? k); reflexivity. }
  rewrite Hmap by apply sorted_scores.
  rewrite sort_by_score_stable.
  rewrite <- Hmap.
  2:{ apply Forall_forall. intros it Hit.
      apply list_elem_of_In, in_map_iff in Hit as [v [<- _]]. reflexivity. }
  unfold items. rewrite map_map. cbn [item_video]. rewrite map_id. reflexivity.
Qed.

End RecommendationFacts.

(** ** Tokens and the two parts of a score *)

Section TokenFacts.

Import Relevance.

Lemma lowered_word_char (c : ascii) :
  is_word_char (toLowerCase_char c) = true ->
  is_token_char (toLowerCase_char c) = true.
Proof.
  destruct c as [[] [] [] [] [] [] [] []]; vm_compute; intros H;
    first [reflexivity | discriminate H].
Qed.

Lemma list_ascii_of_string_app (a b : string) :
  list_ascii_of_string (a +:+ b)
  = list_ascii_of_string a ++ list_ascii_of_string b.
Proof.
  induction a as [|c a IH]; [reflexivity|].
  change (String c a +:+ b) with (String c (a +:+ b)).
  cbn [list_ascii_of_string app]. f_equal. exact IH.
Qed.

(** The pieces of a split hold no white space, and nothing that the
    text did not hold. *)
Lemma split_whitespace_pieces (P : ascii -> Prop) (s : list ascii) :
  forall (piece : list ascii) (in_run : bool),
  Forall (fun c => is_space_char c = false -> P c) s ->
  Forall P piece ->
  Forall (fun w => Forall P (list_ascii_of_string w))
    (split_whitespace_from s piece in_run).
Proof.
  induction s as [|c s IH]; intros piece in_run Hs Hp;
    cbn [split_whitespace_from].
  - constructor; [|constructor].
    rewrite list_ascii_of_string_of_list_ascii.
    apply Forall_forall. intros x Hx. rewrite Forall_forall in Hp.
    apply Hp. apply list_elem_of_In. apply list_elem_of_In in Hx.
    apply in_rev. exact Hx.
  - apply Forall_cons_1 in Hs as [Hc Hs].
    destruct (is_space_char c) eqn:Ec.
    + destruct in_run.
      * apply IH; [exact Hs | constructor].
      * constructor; [|apply IH; [exact Hs | constructor]].
        rewrite list_ascii_of_string_of_list_ascii.
        apply Forall_forall. intros x Hx. rewrite Forall_forall in Hp.
        apply Hp. apply list_elem_of_In. apply list_elem_of_In in Hx.
        apply in_rev. exact Hx.
    + apply IH; [exact Hs|]. constructor; [apply Hc; reflexivity | exact Hp].
Qed.

(** X8.  What a token is: every token has four characters or more,
    all of them lower-case ASCII letters, digits or underscores, and is none
    of the five stop words. *)
Theorem tokenize_tokens (text : string) :
  Forall
    (fun w =>
       (4 <= String.length w)%nat
       /\ ~ In w stop_words
       /\ Forall (fun c => is_token_char c = true) (list_ascii_of_string w))
    (tokenize text).
Proof.
  unfold tokenize. apply Forall_forall. intros w Hw.
  apply list_elem_of_In, filter_In in Hw as [Hw Hkeep].
  apply andb_prop in Hkeep as [Hlen Hstop].
  apply Nat.ltb_lt in Hlen. apply negb_true_iff, bool_decide_eq_false in Hstop.
  split; [lia|]. split; [intros Hin; apply Hstop, list_elem_of_In, Hin|].
  assert (Forall (fun w => Forall (fun c => is_token_char c = true)
                              (list_ascii_of_string w))
            (split_whitespace
               (List.filter (fun c => is_word_char c || is_space_char c)
                  (map toLowerCase_char (list_ascii_of_string text)))))
    as Hall.
  { apply split_whitespace_pieces; [|constructor].
    apply Forall_forall. intros c Hc Hns.
    apply list_elem_of_In, filter_In in Hc as [Hc Hkeep].
    apply in_map_iff in Hc as [c0 [<- _]].
    rewrite Hns, orb_false_r in Hkeep. apply lowered_word_char, Hkeep. }
  rewrite Forall_forall in Hall. apply Hall, list_elem_of_In, Hw.
Qed.

(** Splitting a text that has a space in it: the pieces of the part
    before and the pieces of the part after, up to empty pieces. *)
Lemma split_whitespace_join (keep : string -> bool) (x y : list ascii) :
  keep EmptyString = false ->
  forall (piece : list ascii) (in_run : bool),
  (in_run = true -> piece = []) ->
  List.filter keep (split_whitespace_from (x ++ " "%char :: y) piece in_run)
  = List.filter keep (split_whitespace_from x piece in_run)
    ++ List.filter keep (split_whitespace_from y [] false).
Proof.
  intros Hkeep.
  assert (forall y : list ascii,
            List.filter keep (split_whitespace_from y [] true)
            = List.filter keep (split_whitespace_from y [] false)) as Hrun.
  { intros [|c y']; cbn [split_whitespace_from]; [reflexivity|].
    destruct (is_space_char c); [|reflexivity].
    cbn [List.filter rev string_of_list_ascii]. rewrite Hkeep. reflexivity. }
  induction x as [|c x IH]; intros piece in_run Hinv;
    cbn [app split_whitespace_from].
  - change (is_space_char " ") with true. cbn match.
    destruct in_run.
    + rewrite (Hinv eq_refl). cbn [rev string_of_list_ascii List.filter].
      rewrite Hkeep. cbn [app]. apply Hrun.
    + cbn [List.filter]. rewrite Hrun.
      destruct (keep (string_of_list_ascii (rev piece))); reflexivity.
  - destruct (is_space_char c).
    + destruct in_run.
      * apply IH. reflexivity.
      * cbn [List.filter]. rewrite IH by reflexivity.
        destruct (keep (string_of_list_ascii (rev piece))); reflexivity.
    + apply IH. discriminate.
Qed.

Lemma tokenize_join (a b : string) :
  tokenize (a +:+ " " +:+ b) = tokenize a ++ tokenize b.
Proof.
  unfold tokenize, split_whitespace.
  rewrite !list_ascii_of_string_app. cbn [list_ascii_of_string].
  rewrite map_app, List.filter_app. cbn [map app List.filter].
  change (is_word_char (toLowerCase_char " ")
          || is_space_char (toLowerCase_char " ")) with true.
  cbn match. change (toLowerCase_char " ") with " "%char.
  apply split_whitespace_join; [reflexivity | discriminate].
Qed.

Section Score.

Context {VideoId : Type} `{EqDecision VideoId}.

Lemma count_matches (tokens : list string) (l : list string) :
  forall start : Z,
  fold_left
    (fun matches token =>
       if bool_decide (token ∈ (list_to_set tokens : gset string))
       then matches + 1 else matches)
    l start
  = start
    + Z.of_nat
        (length (List.filter (fun token => bool_decide (token ∈ tokens)) l)).
Proof.
  induction l as [|t l IH]; intros start; cbn [fold_left List.filter length];
    [lia|].
  rewrite IH.
  rewrite (bool_decide_ext (t ∈ (list_to_set tokens : gset string))
             (t ∈ tokens)) by apply elem_of_list_to_set.
  destruct (bool_decide (t ∈ tokens)); cbn [length]; lia.
Qed.

Lemma calculateRelevance_matches (current candidate : Video VideoId) :
  id current <> id candidate ->
  calculateRelevance current candidate
  = token_matches current (title candidate +:+ " " +:+ description candidate)
    + first_word_bonus current candidate.
Proof.
  intros Hne. unfold calculateRelevance, token_matches, first_word_bonus.
  destruct (decide (id current = id candidate)); [contradiction|].
  rewrite count_matches.
  destruct (bool_decide (first_word (title current)
                         = first_word (title candidate))); lia.
Qed.

Lemma token_matches_join (current : Video VideoId) (a b : string) :
  token_matches current (a +:+ " " +:+ b)
  = token_matches current a + token_matches current b.
Proof.
  unfold token_matches.
  rewrite (tokenize_join a b), List.filter_app, length_app. lia.
Qed.

Lemma token_matches_bounds (current : Video VideoId) (text : string) :
  0 <= token_matches current text <= Z.of_nat (length (tokenize text)).
Proof.
  unfold token_matches. split; [lia|]. apply inj_le, filter_length_le.
Qed.

(** X9.  The tokens of a title, a space and a description are the
    tokens of the title followed by those of the description; so, for items
    with distinct ids, the score is the number of title tokens of the
    candidate that occur in the reference item, plus the same number for its
    description, plus the first-word bonus. *)
Theorem relevance_adds_title_and_description :
  (forall a b : string, tokenize (a +:+ " " +:+ b) = tokenize a ++ tokenize b)
  /\ (forall current candidate : Video VideoId,
        id current <> id candidate ->
        calculateRelevance current candidate
        = token_matches current (title candidate)
          + token_matches current (description candidate)
          + first_word_bonus current candidate).
Proof.
  split; [exact tokenize_join|].
  intros current candidate Hne.
  rewrite calculateRelevance_matches by exact Hne.
  rewrite token_matches_join. reflexivity.
Qed.

(** X10.  Bounds of the score of items with distinct ids: at least the
    first-word bonus; at most the number of the candidate's tokens plus the
    bonus, hence plus 2; and at least 2 when the titles are equal. *)
Theorem relevance_bounds (current candidate : Video VideoId) :
  id current <> id candidate ->
  first_word_bonus current candidate <= calculateRelevance current candidate
  /\ calculateRelevance current candidate
     <= Z.of_nat (length (tokenize (title candidate)))
        + Z.of_nat (length (tokenize (description candidate)))
        + first_word_bonus current candidate
  /\ calculateRelevance current candidate
     <= Z.of_nat (length (tokenize (title candidate)))
        + Z.of_nat (length (tokenize (description candidate))) + 2
  /\ (title current = title candidate ->
      2 <= calculateRelevance current candidate).
Proof.
  intros Hne. rewrite calculateRelevance_matches by exact Hne.
  rewrite token_matches_join.
  pose proof (token_matches_bounds current (title candidate)).
  pose proof (token_matches_bounds current (description candidate)).
  assert (0 <= first_word_bonus current candidate <= 2) as Hb
    by (unfold first_word_bonus; destruct (bool_decide _); lia).
  repeat split; try lia.
  intros Ht. unfold first_word_bonus. rewrite Ht.
  rewrite bool_decide_eq_true_2 by reflexivity. lia.
Qed.

End Score.

End TokenFacts.

(** ** What is streamed: microphone chunks and video frames *)

Section StreamFacts.

Import Js Base64 Codec.

Lemma char_of_sextet_not_comma (n : Z) :
  Ascii.eqb (char_of_sextet n) "," = false.
Proof.
  unfold char_of_sextet.
  destruct (nth_in_or_default (Z.to_nat n) alphabet "A"%char) as [Hin| ->];
    [|reflexivity].
  revert Hin. generalize (nth (Z.to_nat n) alphabet "A"%char). intros c Hin.
  vm_compute in Hin.
  repeat (destruct Hin as [<-|Hin]; [reflexivity|]). contradiction.
Qed.

Lemma btoa_no_comma (binary : string) :
  Forall (fun c => Ascii.eqb c "," = false) (list_ascii_of_string (btoa binary)).
Proof.
  unfold btoa. rewrite list_ascii_of_string_of_list_ascii.
  apply Forall_app. split.
  - apply Forall_forall. intros c Hc.
    apply list_elem_of_In, in_map_iff in Hc as [n [<- _]].
    apply char_of_sextet_not_comma.
  - destruct (padding_shape (length (map charCode (list_ascii_of_string binary))))
      as [-> | [-> | ->]]; repeat constructor.
Qed.

Lemma split_comma_from_plain (s : list ascii) :
  Forall (fun c => Ascii.eqb c "," = false) s ->
  forall piece : list ascii,
  Capture.split_comma_from s piece = [string_of_list_ascii (rev piece ++ s)].
Proof.
  induction 1 as [|c s Hc _ IH]; intros piece; cbn [Capture.split_comma_from].
  - rewrite app_nil_r. reflexivity.
  - rewrite Hc, IH. cbn [rev]. rewrite <- app_assoc. reflexivity.
Qed.

Lemma split_comma_from_header (header payload : list ascii) :
  Forall (fun c => Ascii.eqb c "," = false) header ->
  forall piece : list ascii,
  Capture.split_comma_from (header ++ ","%char :: payload) piece
  = string_of_list_ascii (rev piece ++ header)
      :: Capture.split_comma_from payload [].
Proof.
  induction 1 as [|c s Hc _ IH]; intros piece;
    cbn [app Capture.split_comma_from].
  - rewrite Ascii.eqb_refl, app_nil_r. reflexivity.
  - rewrite Hc, IH. cbn [rev]. rewrite <- app_assoc. reflexivity.
Qed.

Lemma split_jpeg_data_url (binary : string) :
  Capture.split_comma (jpeg_data_url binary) !! 1%nat = Some (btoa binary).
Proof.
  unfold Capture.split_comma, jpeg_data_url.
  rewrite list_ascii_of_string_app.
  change (list_ascii_of_string "data:image/jpeg;base64,")
    with (list_ascii_of_string "data:image/jpeg;base64" ++ [","%char]).
  rewrite <- app_assoc. cbn [app].
  rewrite split_comma_from_header by (vm_compute; repeat constructor).
  rewrite (split_comma_from_plain _ (btoa_no_comma binary)).
  cbn [lookup list_lookup rev app].
  rewrite string_of_list_ascii_of_string. reflexivity.
Qed.

(** X7.  [captureFrame] sends nothing and leaves the canvas alone when
    the video element or the canvas is missing, or the video has no width or
    no height; otherwise it sizes the canvas to a quarter of the video in
    each direction, rounded down, and, when the platform gives a 2D context
    and a JPEG data URL, hands over one [image/jpeg] frame whose data is the
    base64 part of the URL, whole. *)
Theorem captureFrame_sends_quarter_frame (platform : Capture.Platform) :
  (forall (videoRef : option Capture.HTMLVideoElement)
          (videoCanvasRef : option Capture.HTMLCanvasElement),
     match videoRef, videoCanvasRef with
     | Some video, Some _ =>
         Capture.videoWidth video = 0%N \/ Capture.videoHeight video = 0%N
     | _, _ => True
     end ->
     Capture.captureFrame platform videoRef videoCanvasRef
     = (videoCanvasRef, Ok None))
  /\ (forall (video : Capture.HTMLVideoElement)
             (canvas : Capture.HTMLCanvasElement) (binary : string),
        Capture.videoWidth video <> 0%N ->
        Capture.videoHeight video <> 0%N ->
        let quarter :=
          Capture.mkCanvas (Capture.videoWidth video / 4)%N
            (Capture.videoHeight video / 4)%N in
        Capture.getContext platform quarter = true ->
        Capture.toDataURL platform video quarter = Ok (jpeg_data_url binary) ->
        Capture.captureFrame platform (Some video) (Some canvas)
        = (Some quarter,
           Ok (Some (Capture.mkMedia "image/jpeg" (Some (btoa binary)))))
        /\ (4 * Capture.width quarter <= Capture.videoWidth video)%N
        /\ (4 * Capture.height quarter <= Capture.videoHeight video)%N)
  /\ (forall (video : Capture.HTMLVideoElement)
             (canvas : Capture.HTMLCanvasElement),
        Capture.videoWidth video <> 0%N ->
        Capture.videoHeight video <> 0%N ->
        fst (Capture.captureFrame platform (Some video) (Some canvas))
        = Some (Capture.mkCanvas (Capture.videoWidth video / 4)%N
                  (Capture.videoHeight video / 4)%N)).
Proof.
  split; [|split].
  - intros [video|] [canvas|] H; try reflexivity.
    unfold Capture.captureFrame.
    destruct H as [-> | ->]; rewrite ?orb_true_r; reflexivity.
  - intros video canvas binary Hw Hh quarter Hctx Hurl.
    split.
    + unfold Capture.captureFrame.
      apply N.eqb_neq in Hw, Hh. rewrite Hw, Hh. cbn [orb].
      fold quarter. rewrite Hctx, Hurl, split_jpeg_data_url. reflexivity.
    + cbn [Capture.width Capture.height quarter].
      split; apply N.Div0.mul_div_le.
  - intros video canvas Hw Hh. unfold Capture.captureFrame.
    apply N.eqb_neq in Hw, Hh. rewrite Hw, Hh. cbn [orb].
    destruct (Capture.getContext platform _); [|reflexivity].
    destruct (Capture.toDataURL platform video _); reflexivity.
Qed.

Lemma captureFrame_sends_quarter_frame_witness :
  Capture.captureFrame example_platform (Some example_video)
    (Some (Capture.mkCanvas 300 150))
  = (Some (Capture.mkCanvas 320 180),
     Ok (Some (Capture.mkMedia "image/jpeg" (Some (btoa "JFIF")))))
  /\ Capture.captureFrame example_platform None
       (Some (Capture.mkCanvas 300 150))
     = (Some (Capture.mkCanvas 300 150), Ok None).
Proof.
  destruct (captureFrame_sends_quarter_frame example_platform)
    as (Hnone & Hframe & _).
  destruct (Hframe example_video (Capture.mkCanvas 300 150) "JFIF")
    as (Hrun & _); [discriminate | discriminate | reflexivity | reflexivity |].
  split; [exact Hrun|].
  exact (Hnone None (Some (Capture.mkCanvas 300 150)) I).
Defined.

(** X6.  A microphone chunk of [n] samples is handed over as
    [audio/pcm;rate=16000] with a payload of [4 * ceil (2 * n / 3)]
    characters, which [decode] turns into [2 * n] bytes: the 16-bit integers
    of the samples, low byte first. *)
Theorem onaudioprocess_payload (inputData : list spec_float) :
  let media := Capture.onaudioprocess inputData in
  Capture.mimeType media = "audio/pcm;rate=16000"
  /\ exists payload : string,
       Capture.data media = Some payload
       /\ String.length payload = (4 * ((2 * length inputData + 2) / 3))%nat
       /\ decode payload
          = Ok (Uint8Array_of_Int16Array (map pcm16 inputData))
       /\ length (Uint8Array_of_Int16Array (map pcm16 inputData))
          = (2 * length inputData)%nat.
Proof.
  intros media. split; [reflexivity|].
  exists (data (createBlob inputData)). split; [reflexivity|].
  split.
  - rewrite createBlob_payload, btoa_length, string_of_list_ascii_length,
      length_map, Uint8Array_view_length, length_map. reflexivity.
  - split; [apply decode_createBlob_bytes|].
    rewrite Uint8Array_view_length, length_map. reflexivity.
Qed.

End StreamFacts.

(** ** The application: what plays is in the catalog *)

Section AppFacts.

Import Relevance.

Context {VideoId : Type} `{EqDecision VideoId}.

(** X14.  Along every run of the application the catalog stays the
    initial one; the video that plays is an entry of it (none plays only
    when it is empty); and the entries offered for a click are the catalog
    entries with another id, so that a click always changes the id of the
    video that plays. *)
Theorem playing_video_stays_in_catalog
  (MOCK_VIDEOS : list (Video VideoId)) (s : App.State VideoId) :
  browsing MOCK_VIDEOS s ->
  App.videos s = MOCK_VIDEOS
  /\ match App.playingVideo s with
     | Some video => In video MOCK_VIDEOS
     | None => MOCK_VIDEOS = []
     end
  /\ (forall video v : Video VideoId,
        App.playingVideo s = Some video ->
        (In v (App.offered s) <-> In v MOCK_VIDEOS /\ id v <> id video)).
Proof.
  intros Hrun.
  assert (App.videos s = MOCK_VIDEOS
          /\ match App.playingVideo s with
             | Some video => In video MOCK_VIDEOS
             | None => MOCK_VIDEOS = []
             end) as [Hvideos Hplaying].
  { induction Hrun as [|s v _ [IHv IHp] Hv|s _ IH].
    - split; [reflexivity|]. cbn [App.initial App.playingVideo].
      destruct MOCK_VIDEOS as [|v l]; [reflexivity | left; reflexivity].
    - split; [exact IHv|]. cbn [App.handlePlayVideo App.playingVideo].
      unfold App.offered in Hv.
      destruct (App.playingVideo s) as [video|]; [|contradiction].
      apply (RecommendationsList_In video v (App.videos s)) in Hv as [Hv _].
      rewrite IHv in Hv. exact Hv.
    - exact IH. }
  split; [exact Hvideos|]. split; [exact Hplaying|].
  intros video v Hvideo. unfold App.offered. rewrite Hvideo, Hvideos.
  apply (RecommendationsList_In video v MOCK_VIDEOS).
Qed.

End AppFacts.

(** ** The scenario catalog once more *)

Section SidebarScenario.

Import Relevance.

Lemma recommendations_permutation_witness :
  Permutation
    (Player.RecommendationsList (recommendations item1 example_catalog))
    (others item1 example_catalog)
  /\ In item3
       (Player.RecommendationsList (recommendations item1 example_catalog)).
Proof.
  destruct (recommendations_permutation item1 example_catalog)
    as (Hperm & Hin & _).
  split; [exact Hperm|]. apply Hin.
  split; [right; right; left; reflexivity | discriminate].
Defined.

Lemma recommendations_sorted_witness :
  upNext (recommendations item1 example_catalog) = Some item2
  /\ calculateRelevance item1 item3 <= calculateRelevance item1 item2.
Proof.
  assert (upNext (recommendations item1 example_catalog) = Some item2) as Hup
    by (vm_compute; reflexivity).
  split; [exact Hup|].
  destruct (recommendations_sorted item1 example_catalog) as [_ Hmax].
  apply (Hmax item2 item3 Hup). right. right. left. reflexivity.
Defined.

Lemma relevance_adds_title_and_description_witness :
  id item1 <> id item2
  /\ calculateRelevance item1 item2
     = token_matches item1 (title item2)
       + token_matches item1 (description item2)
       + first_word_bonus item1 item2.
Proof.
  assert (id item1 <> id item2) as Hne by discriminate.
  split; [exact Hne|].
  destruct (@relevance_adds_title_and_description Z _) as [_ Hscore].
  exact (Hscore item1 item2 Hne).
Defined.

Lemma relevance_bounds_witness :
  id item1 <> id item2
  /\ first_word_bonus item1 item2 <= calculateRelevance item1 item2
  /\ calculateRelevance item1 item2
     <= Z.of_nat (length (tokenize (title item2)))
        + Z.of_nat (length (tokenize (description item2))) + 2.
Proof.
  assert (id item1 <> id item2) as Hne by discriminate.
  destruct (relevance_bounds item1 item2 Hne) as (Hlow & _ & Hhigh & _).
  split; [exact Hne|]. split; [exact Hlow | exact Hhigh].
Defined.

Lemma playing_video_stays_in_catalog_witness :
  browsing example_catalog
    (App.handlePlayVideo item2 (App.initial example_catalog))
  /\ In item2 example_catalog
  /\ (In item1
        (App.offered (App.handlePlayVideo item2 (App.initial example_catalog)))
      <-> In item1 example_catalog /\ id item1 <> id item2).
Proof.
  assert (browsing example_catalog
            (App.handlePlayVideo item2 (App.initial example_catalog))) as Hrun.
  { apply browsing_play; [apply browsing_initial|].
    vm_compute. left. reflexivity. }
  destruct (playing_video_stays_in_catalog example_catalog _ Hrun)
    as (_ & Hin & Hoffered).
  split; [exact Hrun|]. split; [exact Hin|].
  exact (Hoffered item2 item1 eq_refl).
Defined.

End SidebarScenario.

(** ** The session callbacks, one by one *)

Section SessionFacts.

Import Js Codec Session.

Lemma onmessage_flags (platform : AudioContext) (closure : Closure)
  (clock : Clock) (message : LiveServerMessage) (s : State) :
  let s' := fst (onmessage platform closure clock message s) in
  isConnecting s' = isConnecting s /\ connected s' = connected s
  /\ micActive s' = micActive s.
Proof.
  destruct s as [ic co mi ac inp se st vi cur src tr nid].
  destruct message as [audio intr].
  unfold_handler. cbn [inlineData Session.interrupted].
  destruct (truthy audio) as [base64Audio|]; cbn [audioContextRef].
  2:{ destruct intr; cbn; [destruct ac; cbn|]; repeat split. }
  destruct ac as [ctx|], (state clock); cbn;
    destruct (decode base64Audio) as [bytes|e]; cbn.
  all: try destruct (decodeAudioData bytes _ _ _) as [b|e']; cbn.
  all: try destruct (Pos.eqb ctx (outputNode closure)); cbn.
  all: destruct intr; cbn.
  all: repeat split.
Qed.

(** X21.  In every run, serial or not, [micActive] equals [connected],
    and [isConnecting] and [connected] are never set together. *)
Theorem flags_consistent (serial : bool) (s : State) (p : nat) :
  reach serial s p ->
  micActive s = connected s /\ isConnecting s && connected s = false.
Proof.
  induction 1 as [ | s p clock _ IH | s p settled _ IH | s p _ IH Hq
                 | s p _ IH Hq | s p _ IH Hq | s p _ IH
                 | s p platform closure clock message _ IH
                 | s p source _ IH ].
  - split; reflexivity.
  - unfold connect_begin.
    destruct (connected s || isConnecting s) eqn:Hflag; [exact IH|].
    apply orb_false_elim in Hflag as [Hco Hic]. destruct IH as [Hm _].
    cbn [fst micActive connected isConnecting]. rewrite Hco in *.
    split; [exact Hm | reflexivity].
  - destruct settled as [n|]; [exact IH | split; reflexivity].
  - split; reflexivity.
  - split; reflexivity.
  - split; reflexivity.
  - split; reflexivity.
  - destruct (onmessage_flags platform closure clock message s)
      as (Ec & Eo & Em).
    rewrite Ec, Eo, Em. exact IH.
  - exact IH.
Qed.

Lemma flags_consistent_witness :
  reach false leaked_state 0
  /\ micActive leaked_state = connected leaked_state
  /\ isConnecting leaked_state && connected leaked_state = false.
Proof.
  split; [exact leaked_state_reached|].
  exact (flags_consistent false leaked_state 0 leaked_state_reached).
Defined.

(** X15.  The audio path never rejects: for a message without the
    interrupted flag the handler's promise is fulfilled whatever the payload
    and the state; and when the payload does not decode ([decode] or
    [decodeAudioData] raises) while the output context is in place, the
    calls made are the [resume()] of a suspended context and one
    [console.error], and nothing else of the state changes. *)
Theorem onmessage_contains_audio_errors (platform : AudioContext)
  (closure : Closure) (clock : Clock) :
  (forall (audio : option string) (s : State),
     snd (onmessage platform closure clock (mkMessage audio false) s) = Ok tt)
  /\ (forall (base64Audio : string) (s : State) (ctx : positive) (e : JsError),
        base64Audio <> EmptyString ->
        audioContextRef s = Some ctx ->
        (bytes ← decode base64Audio;
         decodeAudioData bytes (Some platform) (24000 # 1) 1) = Throw e ->
        onmessage platform closure clock
          (mkMessage (Some base64Audio) false) s
        = (emit (resume_calls clock s ++ [ConsoleError]) s, Ok tt)).
Proof.
  split.
  - intros audio s. destruct s as [ic co mi ac inp se st vi cur src tr nid].
    unfold_handler. cbn [inlineData Session.interrupted].
    destruct (truthy audio) as [base64Audio|]; cbn [audioContextRef];
      [|reflexivity].
    destruct ac as [ctx|], (state clock); cbn;
      destruct (decode base64Audio) as [bytes|e]; cbn; try reflexivity.
    all: destruct (decodeAudioData bytes _ _ _) as [b|e']; cbn;
      try reflexivity.
    all: destruct (Pos.eqb ctx (outputNode closure)); reflexivity.
  - intros base64Audio s ctx e Hne Hctx Hfail.
    destruct s as [ic co mi ac inp se st vi cur src tr nid].
    cbn [audioContextRef] in Hctx. subst ac.
    unfold resume_calls. cbn [audioContextRef].
    unfold_handler. cbn [inlineData Session.interrupted].
    assert (truthy (Some base64Audio) = Some base64Audio) as ->
      by (destruct base64Audio; [contradiction | reflexivity]).
    cbn [audioContextRef].
    destruct (state clock); cbn;
      destruct (decode base64Audio) as [bytes|e0]; cbn in Hfail |- *;
      try (unfold emit; cbn; rewrite <- ?app_assoc; reflexivity).
    all: rewrite Hfail; cbn; unfold emit; cbn; rewrite <- ?app_assoc;
      reflexivity.
Qed.

Lemma onmessage_contains_audio_errors_witness :
  onmessage conforming_context example_closure run_clock
    (mkMessage (Some "QUJD") false) active_session
  = (emit [ConsoleError] active_session, Ok tt).
Proof.
  destruct (onmessage_contains_audio_errors conforming_context example_closure
              run_clock) as [_ Hdrop].
  apply (Hdrop "QUJD" active_session 1%positive RangeError).
  - discriminate.
  - reflexivity.
  - vm_compute. reflexivity.
Defined.

Lemma createBlob_data_nonempty (samples : list spec_float) :
  samples <> [] -> data (createBlob samples) <> EmptyString.
Proof.
  intros Hne Hempty.
  assert (String.length (data (createBlob samples)) = 0%nat) as Hlen
    by (rewrite Hempty; reflexivity).
  rewrite createBlob_payload, btoa_length, string_of_list_ascii_length,
    length_map, Uint8Array_view_length, length_map in Hlen.
  destruct samples as [|x samples]; [contradiction|]. cbn [length] in Hlen.
  assert (1 <= (2 * S (length samples) + 2) / 3)%nat
    by (apply Nat.div_le_lower_bound; lia).
  lia.
Qed.

Lemma decode_then_decodeAudioData (platform : AudioContext)
  (samples : list spec_float) (rate : Q) :
  accepts platform 1 (Z.of_nat (length samples)) rate = true ->
  decodeAudioData (Uint8Array_of_Int16Array (map pcm16 samples))
    (Some platform) rate 1
  = Ok (mkAudioBuffer 1 (Z.of_nat (length samples)) rate
          [map sample_of_pcm16 (map pcm16 samples)]).
Proof.
  intros Hacc.
  rewrite (decodeAudioData_mono platform rate _ (map pcm16 samples)).
  - rewrite length_map. reflexivity.
  - apply Int16Array_view_round_trip. apply Forall_forall. intros k Hk.
    apply list_elem_of_In, in_map_iff in Hk as [x [<- _]]. apply ToInt16_range.
  - rewrite length_map. exact Hacc.
Qed.

(** X16.  From the encoder to playback: a message that carries
    [createBlob] of [n >= 1] samples, handled on the session of its
    callbacks, creates one source and starts it at
    [Math.max(cursor, currentTime)] with a duration of [n / 24000] seconds,
    the quotient as a binary64 number; the cursor moves to the sum of that
    start and that duration, the binary64 sum, and the source joins the
    active set. *)
Theorem onmessage_plays_encoded_chunk (platform : AudioContext)
  (closure : Closure) (clock : Clock) (samples : list spec_float) (s : State) :
  samples <> [] ->
  audioContextRef s = Some (outputNode closure) ->
  accepts platform 1 (Z.of_nat (length samples)) (24000 # 1) = true ->
  let chunk :=
    Float.div (Float.of_Z (Z.of_nat (length samples))) (Float.of_Z 24000) in
  let when := Float.max (nextStartTimeRef s) (currentTime clock) in
  exists s' : State,
    onmessage platform closure clock
      (mkMessage (Some (data (createBlob samples))) false) s
    = (s', Ok tt)
    /\ trace s'
       = trace s ++ resume_calls clock s
         ++ [CreateBufferSource (next_id s);
             SourceStart (next_id s) when chunk]
    /\ nextStartTimeRef s' = Float.add when chunk
    /\ sourcesRef s' = Set_add (next_id s) (sourcesRef s)
    /\ audioContextRef s' = audioContextRef s.
Proof.
  intros Hne Hctx Hacc chunk when.
  pose proof (createBlob_data_nonempty samples Hne) as Hdata.
  pose proof (decode_createBlob_bytes samples) as Hdec.
  pose proof (decode_then_decodeAudioData platform samples (24000 # 1) Hacc)
    as Hbuf.
  destruct s as [ic co mi ac inp se st vi cur src tr nid].
  cbn [audioContextRef nextStartTimeRef next_id trace sourcesRef] in *.
  subst ac. unfold resume_calls. cbn [audioContextRef].
  set (payload := data (createBlob samples)) in *.
  set (bytes := Uint8Array_of_Int16Array (map pcm16 samples)) in *.
  unfold_handler. cbn [inlineData Session.interrupted].
  assert (truthy (Some payload) = Some payload) as ->
    by (destruct payload; [contradiction | reflexivity]).
  cbn [audioContextRef].
  assert (duration
            (mkAudioBuffer 1 (Z.of_nat (length samples)) (24000 # 1)
               [map sample_of_pcm16 (map pcm16 samples)]) = chunk) as Hdur
    by (unfold duration; cbn [buffer_length sampleRate];
        rewrite of_Q_24000; reflexivity).
  destruct (state clock); rewrite Hdec; cbn -[decodeAudioData];
    rewrite Hbuf; cbn -[duration Float.add Float.max];
    rewrite Pos.eqb_refl, Hdur; cbn -[Float.add Float.max]; eexists;
    (split; [reflexivity|]); cbn -[Float.add Float.max];
    rewrite <- ?app_assoc; repeat split; reflexivity.
Qed.

Lemma onmessage_plays_encoded_chunk_witness :
  exists s' : State,
    onmessage conforming_context example_closure
      (mkClock (binary64 1 (-1)) Running)
      (mkMessage (Some example_payload) false) active_session
    = (s', Ok tt)
    /\ sourcesRef s' = [6%positive]
    /\ nextStartTimeRef s'
       = Float.add (Float.max (Float.of_Z 0) (binary64 1 (-1)))
           (Float.div (Float.of_Z 3) (Float.of_Z 24000)).
Proof.
  destruct (onmessage_plays_encoded_chunk conforming_context example_closure
              (mkClock (binary64 1 (-1)) Running)
              (map Float.quantized [0; 16384; -16384]) active_session)
    as (s' & Hrun & _ & Hcursor & Hsources & _).
  - discriminate.
  - reflexivity.
  - reflexivity.
  - exists s'. split; [exact Hrun|]. split; [exact Hsources | exact Hcursor].
Defined.

(** X19.  A refused microphone leaves nothing behind: [connect()] on
    an idle component whose microphone request is rejected logs the error,
    closes the output context it had created and ends idle, and a later
    [connect()] passes the guard. *)
Theorem connect_denied_leaves_idle (clock : Clock) (s : State) :
  idle s ->
  let s' := connect clock Denied s in
  idle s'
  /\ trace s'
     = trace s ++ [NewAudioContext (next_id s) 24000; ConsoleError;
                   ContextClose (next_id s)]
  /\ (forall rate : Z, ~ context_open (trace s') rate (next_id s))
  /\ (forall clock' : Clock, is_Some (snd (connect_begin clock' s'))).
Proof.
  destruct s as [ic co mi ac inp se st vi cur src tr nid].
  unfold idle. cbn. intros (-> & -> & -> & -> & -> & -> & -> & -> & ->).
  cbn. split; [unfold idle; cbn; repeat split|].
  split; [rewrite <- !app_assoc; reflexivity|].
  split.
  - intros rate [_ H0]. unfold closes in H0.
    rewrite !count_app in H0. unfold count at 3 in H0. cbn in H0.
    rewrite Pos.eqb_refl in H0. cbn in H0. lia.
  - intros clock'. eexists. reflexivity.
Qed.

Lemma connect_denied_leaves_idle_witness :
  idle initial
  /\ idle (connect run_clock Denied initial)
  /\ trace (connect run_clock Denied initial)
     = [NewAudioContext 1 24000; ConsoleError; ContextClose 1].
Proof.
  assert (idle initial) as Hidle by (unfold idle; repeat split).
  destruct (connect_denied_leaves_idle run_clock initial Hidle)
    as (Hend & Htrace & _).
  split; [exact Hidle|]. split; [exact Hend | exact Htrace].
Defined.

(** X17.  The callbacks of an earlier [connect()] start nothing in the
    current session: their [outputNode] belongs to another context,
    [source.connect] raises inside the [try], and a message without the
    interrupted flag leaves the [start] calls, the cursor and the active set
    as they were. *)
Theorem stale_callbacks_start_nothing (platform : AudioContext)
  (closure : Closure) (clock : Clock) (audio : option string) (s : State)
  (ctx : positive) :
  audioContextRef s = Some ctx ->
  ctx <> outputNode closure ->
  exists s' : State,
    onmessage platform closure clock (mkMessage audio false) s = (s', Ok tt)
    /\ starts (trace s') = starts (trace s)
    /\ nextStartTimeRef s' = nextStartTimeRef s
    /\ sourcesRef s' = sourcesRef s.
Proof.
  intros Hctx Hne. apply Pos.eqb_neq in Hne.
  destruct s as [ic co mi ac inp se st vi cur src tr nid].
  cbn [audioContextRef] in Hctx. subst ac.
  unfold_handler. cbn [inlineData Session.interrupted].
  destruct (truthy audio) as [base64Audio|]; cbn [audioContextRef].
  2:{ eexists. repeat split; reflexivity. }
  destruct (state clock); cbn;
    destruct (decode base64Audio) as [bytes|e]; cbn.
  all: try destruct (decodeAudioData bytes _ _ _) as [b|e']; cbn.
  all: rewrite ?Hne; cbn.
  all: eexists; (split; [reflexivity|]); cbn; rewrite ?starts_app; cbn;
    rewrite ?app_nil_r; repeat split; reflexivity.
Qed.

Lemma stale_callbacks_start_nothing_witness :
  exists s' : State,
    onmessage conforming_context stale_closure
      (mkClock (binary64 1 (-1)) Running)
      (mkMessage (Some example_payload) false) active_session
    = (s', Ok tt)
    /\ starts (trace s') = starts (trace active_session)
    /\ sourcesRef s' = sourcesRef active_session.
Proof.
  destruct (stale_callbacks_start_nothing conforming_context stale_closure
              (mkClock (binary64 1 (-1)) Running) (Some example_payload)
              active_session 1)
    as (s' & Hrun & Hstarts & _ & Hsources).
  - reflexivity.
  - discriminate.
  - exists s'. split; [exact Hrun|]. split; [exact Hstarts | exact Hsources].
Defined.

Lemma Set_delete_In (x y : positive) (l : list positive) :
  In y (Set_delete x l) <-> In y l /\ y <> x.
Proof.
  unfold Set_delete. rewrite filter_In, negb_true_iff, Pos.eqb_neq.
  split; intros [H1 H2]; (split; [exact H1 | congruence]).
Qed.

(** X18.  A source that has ended is retired: [onended] removes it,
    and only it, from the active set without a platform call, and neither
    [disconnect] nor an interruption that follows calls [stop()] on it. *)
Theorem onended_retires_source (source : positive) (s : State) :
  let s' := onended source s in
  trace s' = trace s
  /\ (forall x : positive,
        In x (sourcesRef s') <-> In x (sourcesRef s) /\ x <> source)
  /\ source_stops (trace (disconnect s')) source = source_stops (trace s) source
  /\ (forall (clock : Clock) (message : LiveServerMessage),
        source_stops (trace (fst (interruption clock message s'))) source
        = source_stops (trace s) source).
Proof.
  intros s'. split; [reflexivity|].
  split; [intros x; apply Set_delete_In|].
  assert (count (is_source_stop source) (map SourceStop (sourcesRef s')) = 0%nat)
    as Hnone.
  { apply (count_map_notin is_source_stop SourceStop); [reflexivity|].
    intros Hin. apply Set_delete_In in Hin as [_ Hne]. congruence. }
  split.
  - unfold source_stops. rewrite disconnect_trace. unfold teardown_calls.
    rewrite !count_app, Hnone.
    destruct (videoIntervalRef s'), (audioContextRef s'), (inputContextRef s'),
      (streamRef s') as [tracks|];
      rewrite ?(count_map_none _ TrackStop) by reflexivity;
      unfold count; cbn; lia.
  - intros clock message. unfold source_stops. subst s'.
    destruct s as [ic co mi ac inp se st vi cur src tr nid].
    unfold onended in *. cbn [sourcesRef set_sourcesRef] in Hnone.
    unfold_handler. destruct (interrupted message); [|reflexivity].
    destruct ac; cbn -[count Set_delete]; rewrite count_app, Hnone; lia.
Qed.

(** X20.  [onopen] has no guard: when it comes after [disconnect()] it
    marks the component connected and the microphone active while every ref
    is [null]; the panel shows the session as live, and [connect()] is a
    no-op until [disconnect()] is called again.  Such a state is reached
    by a late acknowledgment in a run of either kind. *)
Theorem late_onopen_blocks_connect (s : State) :
  let s' := onopen (disconnect s) in
  connected s' = true /\ micActive s' = true /\ isConnecting s' = false
  /\ audioContextRef s' = None /\ inputContextRef s' = None
  /\ streamRef s' = None /\ videoIntervalRef s' = None
  /\ sessionRef s' = None
  /\ trace s' = trace (disconnect s)
  /\ Player.AICompanionPanel s' = Player.Listening
  /\ (forall (clock : Clock) (settled : MicrophoneRequest),
        connect clock settled s' = s')
  /\ disconnect s' = disconnect s
  /\ (forall serial : bool, reach serial s 0 -> reach serial s' 0).
Proof.
  cbn. repeat split.
  - unfold disconnect, onopen. cbn. rewrite app_nil_r. reflexivity.
  - intros serial Hrun. apply reach_onopen, reach_disconnect; [exact Hrun|].
    reflexivity.
Qed.

Lemma late_onopen_blocks_connect_witness :
  reach true (onopen (disconnect active_session)) 0
  /\ connected (onopen (disconnect active_session)) = true
  /\ audioContextRef (onopen (disconnect active_session)) = None
  /\ connect run_clock (Granted 1) (onopen (disconnect active_session))
     = onopen (disconnect active_session).
Proof.
  destruct (late_onopen_blocks_connect active_session)
    as (Hco & _ & _ & Hctx & _ & _ & _ & _ & _ & _ & Hguard & _ & Hreach).
  split; [exact (Hreach true active_session_reached)|].
  split; [exact Hco|]. split; [exact Hctx|].
  exact (Hguard run_clock (Granted 1)).
Defined.

(** X22.  Closing the companion panel tears the session down: from
    every state of a serial run, [toggleSidebarMode] with the panel open
    leaves the component idle with no timer, no context and no track
    held, as the cleanup of the mount effect and the "End Session" button
    do; toggling again opens the panel and begins a new [connect()] with
    a new output context. *)
Theorem toggleSidebarMode_closes_and_reopens (clock clock' : Clock)
  (p : Player.State) (suspended : nat) :
  Player.isSidebarOpen p = true ->
  reach true (Player.session p) suspended ->
  let closed := fst (Player.toggleSidebarMode clock p) in
  let reopened := Player.toggleSidebarMode clock' closed in
  (Player.isSidebarOpen closed = false
   /\ snd (Player.toggleSidebarMode clock p) = None
   /\ idle (Player.session closed)
   /\ trace (Player.session closed)
      = trace (Player.session p) ++ teardown_calls (Player.session p)
   /\ Player.session (Player.unmount p) = Player.session closed
   /\ (connected (Player.session p) = true ->
       Player.session (Player.endSession p) = Player.session closed))
  /\ ((forall t, ~ timer_live (trace (Player.session closed)) t)
      /\ (forall c, ~ context_open (trace (Player.session closed)) 24000 c)
      /\ (forall c, ~ context_open (trace (Player.session closed)) 16000 c)
      /\ (forall t, ~ track_live (trace (Player.session closed)) t))
  /\ (Player.isSidebarOpen (fst reopened) = true
      /\ snd reopened = Some (mkClosure (next_id (Player.session p)))
      /\ isConnecting (Player.session (fst reopened)) = true
      /\ audioContextRef (Player.session (fst reopened))
         = Some (next_id (Player.session p))
      /\ trace (Player.session (fst reopened))
         = trace (Player.session closed)
           ++ [NewAudioContext (next_id (Player.session p)) 24000]).
Proof.
  intros Hopen Hrun. unfold Player.toggleSidebarMode. rewrite Hopen.
  cbn [fst snd Player.session Player.isSidebarOpen].
  split.
  { repeat split. intros Hco. unfold Player.endSession. rewrite Hco.
    reflexivity. }
  split; [|cbn; repeat split].
  rewrite disconnect_trace. apply teardown_releases.
  apply (serial_run_inv _ suspended Hrun).
Qed.

Lemma toggleSidebarMode_closes_and_reopens_witness :
  Player.isSidebarOpen open_player = true
  /\ reach true (Player.session open_player) 0
  /\ idle (Player.session (fst (Player.toggleSidebarMode run_clock open_player)))
  /\ (forall t : positive,
        ~ timer_live
            (trace (Player.session
                      (fst (Player.toggleSidebarMode run_clock open_player)))) t).
Proof.
  assert (Player.isSidebarOpen open_player = true) as Hopen by reflexivity.
  destruct (toggleSidebarMode_closes_and_reopens run_clock run_clock
              open_player 0 Hopen active_session_reached)
    as ((_ & _ & Hidle & _) & (Htimer & _) & _).
  split; [exact Hopen|]. split; [exact active_session_reached|].
  split; [exact Hidle | exact Htimer].
Defined.

End SessionFacts.

(** ** Playback keeps the session established *)

Section PlaybackFacts.

Import Js Codec Session.
















End PlaybackFacts.
